(* ===================================================================== *)
(*  obsidian-image-manager: per-document image bookkeeping               *)
(*                                                                       *)
(*  A shallow embedding of                                               *)
(*    src/manager/magic_variable.ts   (MagicVariableProcessor)           *)
(*    src/manager/image_info.ts       (IImageInfo, createImageInfo)      *)
(*    src/manager/document_manager.ts (DocumentImageManager)             *)
(*    src/uploader/custom/custom_uploader.ts (CustomUploader)            *)
(*    the manager factory             (ImageManagerFactory)              *)
(*    src/utils/file.ts               (saveTemporaryFile, deleteFile,    *)
(*                                     ensureDirectory, moveFile)        *)
(*    src/editor/context_menu.ts      (extractImagePath)                 *)
(*  together with the properties of the bookkeeping subsystem.           *)
(*                                                                       *)
(*  Conventions of the embedding                                         *)
(*   - JavaScript strings are modelled as [string] (sequences of 8-bit   *)
(*     code units); Unicode normalisation is the identity.               *)
(*   - JavaScript numbers that hold sizes and epoch milliseconds are     *)
(*     integers [Z].                                                     *)
(*   - [async] methods run to completion one at a time, so they are      *)
(*     functions on an explicit state; an outcome is a returned value,   *)
(*     a thrown exception, or a loop that never ends.                    *)
(*   - The host (vault adapter, clock, random source, upload command,    *)
(*     network) is a record [World]: an in-memory file tree plus the     *)
(*     schedules of answers the host will give.                          *)
(* ===================================================================== *)

From Stdlib Require Import ZArith Ascii String List Lia Bool.
From Stdlib Require Import DecimalString.
From stdpp Require Import base option list gmap strings fin_maps.

Local Open Scope string_scope.
Local Open Scope Z_scope.

(* ===================================================================== *)
(** * JavaScript string primitives used by the sources                   *)
(* ===================================================================== *)

Module JS.

(** [s.length] *)
Definition len (s : string) : Z := Z.of_nat (String.length s).

(** Drop the first [n] code units. *)
Fixpoint drop (n : nat) (s : string) : string :=
  match n, s with
  | O, _ => s
  | S _, EmptyString => EmptyString
  | S n', String _ t => drop n' t
  end.

(** Keep the first [n] code units. *)
Fixpoint take (n : nat) (s : string) : string :=
  match n, s with
  | O, _ => EmptyString
  | S _, EmptyString => EmptyString
  | S n', String c t => String c (take n' t)
  end.

(** [s.startsWith(p)] *)
Fixpoint startsWith (p s : string) : bool :=
  match p, s with
  | EmptyString, _ => true
  | String _ _, EmptyString => false
  | String a p', String b s' => if Ascii.eqb a b then startsWith p' s' else false
  end.

(** Clamp an index argument of [substring] into [0, length]. *)
Definition clamp (s : string) (i : Z) : nat :=
  Z.to_nat (Z.min (Z.max i 0) (len s)).

(** [s.substring(a, b)]: indices are clamped and swapped when [a > b]. *)
Definition substring (s : string) (a b : Z) : string :=
  let a' := clamp s a in
  let b' := clamp s b in
  let lo := Nat.min a' b' in
  let hi := Nat.max a' b' in
  take (hi - lo) (drop lo s).

(** [s.substring(a)] *)
Definition substring_from (s : string) (a : Z) : string :=
  drop (clamp s a) s.

(** Index of the last occurrence of the code unit [c], scanning a string
    whose first code unit has index [i]. *)
Fixpoint lastIndexOf_from (c : ascii) (s : string) (i : Z) : Z :=
  match s with
  | EmptyString => -1
  | String a t =>
      let r := lastIndexOf_from c t (i + 1) in
      if Z.eqb r (-1) then (if Ascii.eqb a c then i else -1) else r
  end.

(** [s.lastIndexOf(c)] for a one-character needle; [-1] when absent. *)
Definition lastIndexOf (c : ascii) (s : string) : Z := lastIndexOf_from c s 0.

(** [s.split(c)] for a one-character separator. *)
Fixpoint split (c : ascii) (s : string) : list string :=
  match s with
  | EmptyString => [EmptyString]
  | String a t =>
      if Ascii.eqb a c then EmptyString :: split c t
      else match split c t with
           | h :: r => String a h :: r
           | [] => [String a EmptyString]
           end
  end.

(** [arr[0]] of an array of strings; [None] is [undefined]. *)
Definition first (arr : list string) : option string := head arr.

(** [s.replace(pat, repl)] with a string pattern: only the first
    occurrence is replaced. *)
Fixpoint replace_first (pat repl s : string) : string :=
  if startsWith pat s then repl +:+ drop (String.length pat) s
  else match s with
       | EmptyString => EmptyString
       | String a t => String a (replace_first pat repl t)
       end.

(** Template-literal rendering of an integer number. *)
Definition of_Z (z : Z) : string := NilZero.string_of_int (Z.to_int z).

End JS.

(* ===================================================================== *)
(** * Magic variables: src/manager/magic_variable.ts                     *)
(* ===================================================================== *)

Module Magic.

(** [IMagicVariableContext]: own properties of a plain object whose
    values are [string | undefined]. *)
Abbreviation context := (gmap string (option string)).

(** Property names every plain object inherits from [Object.prototype]. *)
Definition object_prototype_keys : list string :=
  [ "constructor"; "hasOwnProperty"; "isPrototypeOf"; "propertyIsEnumerable";
    "toLocaleString"; "toString"; "valueOf"; "__proto__";
    "__defineGetter__"; "__defineSetter__"; "__lookupGetter__";
    "__lookupSetter__" ]%string.

Definition inherited (name : string) : bool :=
  bool_decide (name ∈ object_prototype_keys).

(** What [String.prototype.replace] makes of an inherited value
    returned by the callback: the prototype object itself prints as
    [[object Object]], a built-in function as its native source text. *)
Definition inherited_text (name : string) : string :=
  if String.eqb name "__proto__" then "[object Object]"
  else "function " +:+
       (if String.eqb name "constructor" then "Object" else name) +:+
       "() { [native code] }".

(** [variable in context]: own or inherited property. *)
Definition js_in (variable : string) (ctx : context) : bool :=
  match ctx !! variable with
  | Some _ => true
  | None => inherited variable
  end.

(** [context[variable]] rendered as text; [None] is [undefined]. *)
Definition js_get (variable : string) (ctx : context) : option string :=
  match ctx !! variable with
  | Some v => v
  | None => if inherited variable then Some (inherited_text variable) else None
  end.

(** [\w] *)
Definition is_word (c : ascii) : bool :=
  let n := nat_of_ascii c in
  ((48 <=? n) && (n <=? 57) || (65 <=? n) && (n <=? 90) ||
   (97 <=? n) && (n <=? 122) || (n =? 95))%nat.

(** Longest prefix of word characters, and what follows it. *)
Fixpoint span_word (s : string) : string * string :=
  match s with
  | EmptyString => (EmptyString, EmptyString)
  | String c t =>
      if is_word c then
        let '(w, r) := span_word t in (String c w, r)
      else (EmptyString, s)
  end.

(** Strip two copies of the character [c] from the front of [s]. *)
Definition strip2 (c : ascii) (s : string) : option string :=
  match s with
  | String a (String b t) =>
      if Ascii.eqb a c && Ascii.eqb b c then Some t else None
  | _ => None
  end.

(** One match of [/\{\{(\w+)\}\}/] anchored at the start of [s]:
    the captured name and the text after the match. *)
Definition match_placeholder (s : string) : option (string * string) :=
  match strip2 "{" s with
  | Some t =>
      let '(name, r) := span_word t in
      if String.eqb name "" then None
      else match strip2 "}" r with
           | Some rest => Some (name, rest)
           | None => None
           end
  | None => None
  end.

(** The replacer callback of [process]. *)
Definition replacer (ctx : context) (matched variable : string) : string :=
  if js_in variable ctx then
    match js_get variable ctx with
    | Some v => v
    | None => matched
    end
  else matched.

Definition placeholder (name : string) : string := "{{" +:+ name +:+ "}}".

(** [template.replace(/\{\{(\w+)\}\}/g, callback)]: scan left to right,
    resume after each match; [fuel] bounds the number of steps. *)
Fixpoint replace_all (fuel : nat) (ctx : context) (s : string) : string :=
  match fuel with
  | O => s
  | S f =>
      match match_placeholder s with
      | Some (name, rest) =>
          replacer ctx (placeholder name) name +:+ replace_all f ctx rest
      | None =>
          match s with
          | EmptyString => EmptyString
          | String c t => String c (replace_all f ctx t)
          end
      end
  end.

(** [MagicVariableProcessor.process] *)
Definition process (template : string) (ctx : context) : string :=
  if String.eqb template "" then ""
  else replace_all (String.length template) ctx template.

(** Some suffix of [s] starts with a placeholder. *)
Fixpoint has_placeholder (s : string) : bool :=
  match match_placeholder s with
  | Some _ => true
  | None => match s with
            | EmptyString => false
            | String _ t => has_placeholder t
            end
  end.

(** A non-empty run of word characters: what [\w+] can capture. *)
Fixpoint all_word (s : string) : bool :=
  match s with
  | EmptyString => true
  | String c t => is_word c && all_word t
  end.

Definition is_name (s : string) : bool :=
  negb (String.eqb s "") && all_word s.

(** The text starts with a character that cannot continue a name. *)
Definition stops_word (s : string) : Prop :=
  match s with
  | EmptyString => True
  | String c _ => is_word c = false
  end.

End Magic.

(* ===================================================================== *)
(** * Paths: node's POSIX [path] module and the host's [normalizePath]   *)
(* ===================================================================== *)

Module Path.

Definition slash : ascii := "/"%char.
Definition backslash : ascii := "\"%char.

(** [segs.join("/")] *)
Fixpoint join_with (segs : list string) : string :=
  match segs with
  | [] => EmptyString
  | [x] => x
  | x :: r => x +:+ "/" +:+ join_with r
  end.

(** One step of node's [normalizeString]: the stack holds the segments
    kept so far, innermost first. *)
Definition push_segment (allowAboveRoot : bool) (stack : list string)
    (seg : string) : list string :=
  if String.eqb seg "" || String.eqb seg "." then stack
  else if String.eqb seg ".." then
    match stack with
    | top :: below =>
        if String.eqb top ".." then
          (if allowAboveRoot then ".." :: stack else stack)
        else below
    | [] => if allowAboveRoot then [".."] else []
    end
  else seg :: stack.

Definition normalizeString (path : string) (allowAboveRoot : bool) : string :=
  join_with (rev (fold_left (push_segment allowAboveRoot) (JS.split slash path) [])).

Fixpoint last_char (s : string) : option ascii :=
  match s with
  | EmptyString => None
  | String a EmptyString => Some a
  | String _ t => last_char t
  end.

Definition ends_with_slash (s : string) : bool :=
  match last_char s with
  | Some c => Ascii.eqb c slash
  | None => false
  end.

(** [path.posix.normalize] *)
Definition normalize (path : string) : string :=
  if String.eqb path "" then "."
  else
    let isAbsolute := JS.startsWith "/" path in
    let trailingSeparator := ends_with_slash path in
    let p := normalizeString path (negb isAbsolute) in
    if String.eqb p "" then
      (if isAbsolute then "/" else if trailingSeparator then "./" else ".")
    else
      let p' := if trailingSeparator then p +:+ "/" else p in
      if isAbsolute then "/" +:+ p' else p'.

(** [path.posix.join(a, b)] *)
Definition join (a b : string) : string :=
  if String.eqb a "" then
    (if String.eqb b "" then "." else normalize b)
  else if String.eqb b "" then normalize a
  else normalize (a +:+ "/" +:+ b).

(** Remove trailing slashes. *)
Fixpoint strip_trailing (s : string) : string :=
  match s with
  | EmptyString => EmptyString
  | String a t =>
      match strip_trailing t with
      | EmptyString => if Ascii.eqb a slash then EmptyString else String a EmptyString
      | r => String a r
      end
  end.

(** Remove leading slashes. *)
Fixpoint strip_leading (s : string) : string :=
  match s with
  | String a t => if Ascii.eqb a slash then strip_leading t else s
  | EmptyString => EmptyString
  end.

(** The last segment of a path, trailing slashes ignored. *)
Definition base (path : string) : string :=
  List.last (JS.split slash (strip_trailing path)) EmptyString.

(** [path.posix.basename(path)] *)
Definition basename (path : string) : string := base path.

Definition ends_with (suffix s : string) : bool :=
  (String.length suffix <=? String.length s)%nat &&
  String.eqb (JS.drop (String.length s - String.length suffix) s) suffix.

(** [path.posix.basename(path, suffix)] *)
Definition basename_ext (path suffix : string) : string :=
  if String.eqb suffix "" || (String.length path <? String.length suffix)%nat
  then basename path
  else if String.eqb suffix path then ""
  else
    let b := base path in
    if ends_with suffix b then
      (if String.eqb b suffix then b
       else JS.take (String.length b - String.length suffix) b)
    else if ends_with b suffix then
      JS.drop (String.length (strip_trailing path) - String.length b) path
    else b.

(** Position of the slash that ends the directory part: the right-most
    slash at an index >= 1 that has a non-slash character to its right.
    Returns the position and whether a non-slash was seen. *)
Fixpoint dirname_end (s : string) (i : nat) : option nat * bool :=
  match s with
  | EmptyString => (None, false)
  | String a t =>
      let '(r, seen) := dirname_end t (S i) in
      match r with
      | Some _ => (r, true)
      | None =>
          if Ascii.eqb a slash then
            (if seen && (1 <=? i)%nat then Some i else None, seen)
          else (None, true)
      end
  end.

(** [path.posix.dirname] *)
Definition dirname (path : string) : string :=
  if String.eqb path "" then "."
  else
    let hasRoot := JS.startsWith "/" path in
    match fst (dirname_end path 0) with
    | None => if hasRoot then "/" else "."
    | Some e => if hasRoot && (e =? 1)%nat then "//" else JS.take e path
    end.

Definition is_sep (c : ascii) : bool := Ascii.eqb c slash || Ascii.eqb c backslash.

(** [s.replace(/([\\/])+/g, "/")]; [prev] tells whether the previous
    character was a separator. *)
Fixpoint collapse (prev : bool) (s : string) : string :=
  match s with
  | EmptyString => EmptyString
  | String a t =>
      if is_sep a then
        (if prev then collapse true t else String slash (collapse true t))
      else String a (collapse false t)
  end.

(** The host's [normalizePath]: separators collapse to one slash,
    leading and trailing slashes go, the empty path is the root. *)
Definition normalizePath (path : string) : string :=
  let p := strip_trailing (strip_leading (collapse false path)) in
  if String.eqb p "" then "/" else p.

(** A single ordinary file name. *)
Fixpoint no_sep (s : string) : bool :=
  match s with
  | EmptyString => true
  | String a t => negb (is_sep a) && no_sep t
  end.


(** [TFile.basename] of the host: the file name without its extension;
    a leading or trailing dot is no extension. *)
Definition tfile_basename (path : string) : string :=
  let name := List.last (JS.split slash path) EmptyString in
  let i := JS.lastIndexOf "." name in
  if (i =? -1) || (i =? 0) || (i =? JS.len name - 1) then name
  else JS.substring name 0 i.

End Path.

(* ===================================================================== *)
(** * Outcomes and the state monad of the methods                        *)
(* ===================================================================== *)

(** How a call ends: it returns, it throws, or it never finishes. *)
Inductive outcome (A : Type) : Type :=
| Return (a : A)
| Throw
| Hang.
Arguments Return {A} a.
Arguments Throw {A}.
Arguments Hang {A}.

(** A computation over a mutable state [S].  The state survives a throw:
    what was mutated before the exception stays mutated. *)
Definition M (S A : Type) : Type := S -> outcome A * S.

Definition ret {S A} (a : A) : M S A := fun s => (Return a, s).

Definition bind {S A B} (c : M S A) (k : A -> M S B) : M S B :=
  fun s =>
    match c s with
    | (Return a, s') => k a s'
    | (Throw, s') => (Throw, s')
    | (Hang, s') => (Hang, s')
    end.

Definition throw {S A} : M S A := fun s => (Throw, s).
Definition hang {S A} : M S A := fun s => (Hang, s).

(** [try { c } catch (error) { h }] *)
Definition try_catch {S A} (c h : M S A) : M S A :=
  fun s =>
    match c s with
    | (Throw, s') => h s'
    | r => r
    end.

Definition get_state {S} : M S S := fun s => (Return s, s).
Definition modify {S} (f : S -> S) : M S unit := fun s => (Return tt, f s).

Declare Scope js_scope.
Delimit Scope js_scope with js.
Notation "x <- c ;; k" := (bind c (fun x => k))
  (at level 100, c at next level, right associativity) : js_scope.
Notation "c ;;; k" := (bind c (fun _ => k))
  (at level 100, right associativity) : js_scope.

(** [if (b) { c }] *)
Definition when {S} (b : bool) (c : M S unit) : M S unit :=
  if b then c else ret tt.
Local Open Scope js_scope.

(* ===================================================================== *)
(** * JSON values                                                        *)
(* ===================================================================== *)

Unset Elimination Schemes.
Inductive json : Type :=
| JNull
| JBool (b : bool)
| JNum (n : Z)
| JStr (s : string)
| JArr (items : list json)
| JObj (fields : list (string * json)).
Set Elimination Schemes.

(* ===================================================================== *)
(** * The host: vault adapter, clock, upload command, network            *)
(* ===================================================================== *)

(** What a file holds.  A file that holds JSON text is represented by the
    value the text denotes, so that [JSON.parse (JSON.stringify v)] is [v]
    as the language guarantees; every other file by its bytes. *)
Inductive content : Type :=
| Raw (bytes : string)
| Doc (value : json).

Inductive node : Type :=
| File (c : content)
| Folder.

(** The time-dependent part of a magic-variable context. *)
Record Stamp : Type := mkStamp {
  st_date : string;     (* YYYY-MM-DD *)
  st_time : string;     (* HHMMSS *)
  st_random : string    (* 8 characters *)
}.

Definition epoch_stamp : Stamp :=
  {| st_date := "1970-01-01"; st_time := "000000"; st_random := "00000000" |}.

Record World : Type := mkWorld {
  nodes : gmap string node;          (* files and folders of the vault *)
  vaultName : string;                (* [vault.getName()] *)
  faults : list bool;                (* per adapter call: does it fail? *)
  clock : list Z;                    (* answers of [Date.now()] *)
  stamps : list Stamp;               (* date, time, random per context *)
  replies : list (option string);    (* answers of the uploader; None rejects *)
  handed : list string;              (* paths handed to the uploader so far *)
  responses : list (option string)   (* bodies fetched; None is a failure *)
}.

Definition with_nodes (f : gmap string node -> gmap string node) (w : World) : World :=
  {| nodes := f (nodes w); vaultName := vaultName w; faults := faults w;
     clock := clock w; stamps := stamps w; replies := replies w;
     handed := handed w; responses := responses w |}.

Module Adapter.

(** Every adapter call first consults the fault schedule. *)
Definition io : M World unit :=
  fun w =>
    match faults w with
    | [] => (Return tt, w)
    | b :: rest =>
        let w' := {| nodes := nodes w; vaultName := vaultName w; faults := rest;
                     clock := clock w; stamps := stamps w; replies := replies w;
                     handed := handed w; responses := responses w |} in
        if b then (Throw, w') else (Return tt, w')
    end.

Definition peek : M World (gmap string node) := fun w => (Return (nodes w), w).

Definition exists_ (p : string) : M World bool :=
  io ;;; ns <- peek ;; ret (bool_decide (is_Some (ns !! p))).

Definition read (p : string) : M World content :=
  io ;;; ns <- peek ;;
  match ns !! p with
  | Some (File c) => ret c
  | _ => throw
  end.

Definition readBinary := read.

Definition write (p : string) (c : content) : M World unit :=
  io ;;; ns <- peek ;;
  match ns !! p with
  | Some Folder => throw
  | _ => modify (with_nodes (insert p (File c)))
  end.

Definition writeBinary := write.

Definition mkdir (p : string) : M World unit :=
  io ;;; ns <- peek ;;
  match ns !! p with
  | Some (File _) => throw
  | Some Folder => ret tt
  | None => modify (with_nodes (insert p Folder))
  end.

Definition remove (p : string) : M World unit :=
  io ;;; ns <- peek ;;
  match ns !! p with
  | Some (File _) => modify (with_nodes (delete p))
  | _ => throw
  end.

(** [p] lies strictly below [folder]. *)
Definition is_under (folder p : string) : bool :=
  JS.startsWith (folder +:+ "/") p.

Definition outside (folder : string) (entry : string * node) : Prop :=
  (String.eqb entry.1 folder || is_under folder entry.1) = false.

Global Instance outside_dec folder entry : Decision (outside folder entry).
Proof. unfold outside. apply _. Defined.

(** [rmdir(p, true)]: the folder goes with all it contains. *)
Definition rmdir (p : string) : M World unit :=
  io ;;; ns <- peek ;;
  match ns !! p with
  | Some Folder => modify (with_nodes (filter (outside p)))
  | _ => throw
  end.

(** A file directly inside [folder]. *)
Definition is_child_file (folder : string) (entry : string * node) : bool :=
  match entry.2 with
  | File _ =>
      is_under folder entry.1 &&
      Path.no_sep (JS.drop (String.length folder + 1) entry.1)
  | Folder => false
  end.

(** [list(p).files] *)
Definition list_files (p : string) : M World (list string) :=
  io ;;; ns <- peek ;;
  match ns !! p with
  | Some Folder =>
      ret (map fst (List.filter (is_child_file p) (map_to_list ns)))
  | _ => throw
  end.

Definition content_size (c : content) : Z :=
  match c with
  | Raw b => JS.len b
  | Doc _ => 0     (* the length of rendered JSON text is not modelled *)
  end.

(** [stat(p)]: the size when there is something at [p], else [null]. *)
Definition stat (p : string) : M World (option Z) :=
  io ;;; ns <- peek ;;
  match ns !! p with
  | Some (File c) => ret (Some (content_size c))
  | Some Folder => ret (Some 0)
  | None => ret None
  end.

End Adapter.

(** [Date.now()] *)
Definition Date_now : M World Z :=
  fun w =>
    match clock w with
    | [] => (Return 0, w)
    | t :: rest =>
        (Return t,
         {| nodes := nodes w; vaultName := vaultName w; faults := faults w;
            clock := rest; stamps := stamps w; replies := replies w;
            handed := handed w; responses := responses w |})
    end.

(** The date, time and random token of the next context. *)
Definition next_stamp : M World Stamp :=
  fun w =>
    match stamps w with
    | [] => (Return epoch_stamp, w)
    | s :: rest =>
        (Return s,
         {| nodes := nodes w; vaultName := vaultName w; faults := faults w;
            clock := clock w; stamps := rest; replies := replies w;
            handed := handed w; responses := responses w |})
    end.

(** [IUploader.upload(files, callbacks)]: the path is handed over, then
    the collaborator answers with its result text or rejects. *)
Definition upload (files : string) : M World string :=
  fun w =>
    let log := (handed w ++ [files])%list in
    match replies w with
    | [] =>
        (Throw,
         {| nodes := nodes w; vaultName := vaultName w; faults := faults w;
            clock := clock w; stamps := stamps w; replies := [];
            handed := log; responses := responses w |})
    | r :: rest =>
        let w' := {| nodes := nodes w; vaultName := vaultName w; faults := faults w;
                     clock := clock w; stamps := stamps w; replies := rest;
                     handed := log; responses := responses w |} in
        match r with
        | Some text => (Return text, w')
        | None => (Throw, w')
        end
    end.

(** [fetch(url)] followed by [response.arrayBuffer()]. *)
Definition fetch (url : string) : M World content :=
  fun w =>
    match responses w with
    | [] => (Throw, w)
    | r :: rest =>
        let w' := {| nodes := nodes w; vaultName := vaultName w; faults := faults w;
                     clock := clock w; stamps := stamps w; replies := replies w;
                     handed := handed w; responses := rest |} in
        match r with
        | Some body => (Return (Raw body), w')
        | None => (Throw, w')
        end
    end.

(* ===================================================================== *)
(** * JavaScript [Map<string, V>]                                        *)
(* ===================================================================== *)

(** Entries in insertion order.  A list stands for a [Map] when its keys
    are pairwise distinct ([wf]). *)
Module JsMap.
Section map.
Context {V : Type}.

Definition t : Type := list (string * V).

Definition keys (m : t) : list string := map fst m.
Definition wf (m : t) : Prop := NoDup (keys m).
Definition size (m : t) : nat := length m.

Fixpoint get (k : string) (m : t) : option V :=
  match m with
  | [] => None
  | (k', v) :: r => if String.eqb k' k then Some v else get k r
  end.

Definition has (k : string) (m : t) : bool :=
  match get k m with
  | Some _ => true
  | None => false
  end.

Definition delete (k : string) (m : t) : t :=
  List.filter (fun e => negb (String.eqb (fst e) k)) m.

(** Mutate, in place, the value object found under [k]. *)
Fixpoint alter (f : V -> V) (k : string) (m : t) : t :=
  match m with
  | [] => []
  | (k', v) :: r =>
      if String.eqb k' k then (k', f v) :: r else (k', v) :: alter f k r
  end.

(** Mutate, in place, the value object of the [i]-th entry. *)
Fixpoint alter_at (f : V -> V) (i : nat) (m : t) : t :=
  match m, i with
  | [], _ => []
  | (k, v) :: r, O => (k, f v) :: r
  | e :: r, S i' => e :: alter_at f i' r
  end.

(** [map.set(k, v)]: an existing key keeps its position. *)
Definition set (k : string) (v : V) (m : t) : t :=
  if has k m then alter (fun _ => v) k m else (m ++ [(k, v)])%list.

End map.
Arguments t V : clear implicits.
End JsMap.

(* ===================================================================== *)
(** * Image records: src/manager/image_info.ts                           *)
(* ===================================================================== *)

Record IImageInfo : Type := mkImageInfo {
  localPath : string;
  remotePath : string;
  isUploaded : bool;
  width : option Z;
  height : option Z;
  align : option string;
  originalName : option string;
  size : option Z;
  createTime : option Z;
  modifyTime : option Z
}.

(** [createImageInfo(localPath, remotePath = "", isUploaded = false)] *)
Definition createImageInfo (localPath' remotePath' : string) (isUploaded' : bool)
  : M World IImageInfo :=
  created <- Date_now ;;
  modified <- Date_now ;;
  ret {| localPath := localPath'; remotePath := remotePath';
         isUploaded := isUploaded';
         width := None; height := None; align := None;
         originalName := None; size := None;
         createTime := Some created; modifyTime := Some modified |}.

Definition set_localPath (p : string) (i : IImageInfo) : IImageInfo :=
  {| localPath := p; remotePath := remotePath i; isUploaded := isUploaded i;
     width := width i; height := height i; align := align i;
     originalName := originalName i; size := size i;
     createTime := createTime i; modifyTime := modifyTime i |}.

Definition set_originalName (n : string) (i : IImageInfo) : IImageInfo :=
  {| localPath := localPath i; remotePath := remotePath i; isUploaded := isUploaded i;
     width := width i; height := height i; align := align i;
     originalName := Some n; size := size i;
     createTime := createTime i; modifyTime := modifyTime i |}.

Definition set_size (n : Z) (i : IImageInfo) : IImageInfo :=
  {| localPath := localPath i; remotePath := remotePath i; isUploaded := isUploaded i;
     width := width i; height := height i; align := align i;
     originalName := originalName i; size := Some n;
     createTime := createTime i; modifyTime := modifyTime i |}.

Definition set_modifyTime (n : Z) (i : IImageInfo) : IImageInfo :=
  {| localPath := localPath i; remotePath := remotePath i; isUploaded := isUploaded i;
     width := width i; height := height i; align := align i;
     originalName := originalName i; size := size i;
     createTime := createTime i; modifyTime := Some n |}.

(** [info.remotePath = url; info.isUploaded = true] *)
Definition set_uploaded (url : string) (i : IImageInfo) : IImageInfo :=
  {| localPath := localPath i; remotePath := url; isUploaded := true;
     width := width i; height := height i; align := align i;
     originalName := originalName i; size := size i;
     createTime := createTime i; modifyTime := modifyTime i |}.

(* ===================================================================== *)
(** * Plain objects and the sidecar document                             *)
(* ===================================================================== *)

Module Obj.

Definition is_digit (c : ascii) : bool :=
  let n := nat_of_ascii c in ((48 <=? n) && (n <=? 57))%nat.

(** Value of a string of decimal digits. *)
Fixpoint digits_value (acc : N) (s : string) : option N :=
  match s with
  | EmptyString => Some acc
  | String c t =>
      if is_digit c
      then digits_value (acc * 10 + N.of_nat (nat_of_ascii c - 48))%N t
      else None
  end.

(** An array index: the canonical decimal form of an integer below
    2^32 - 1.  Such keys come first, in numeric order, among the own
    properties of an object. *)
Definition array_index (key : string) : option N :=
  match key with
  | EmptyString => None
  | String c t =>
      if Ascii.eqb c "0" && negb (String.eqb t "") then None
      else match digits_value 0 key with
           | Some n => if (n <? 4294967295)%N then Some n else None
           | None => None
           end
  end.

Definition is_index {V} (e : string * V) : bool :=
  match array_index (fst e) with Some _ => true | None => false end.

Definition index_of {V} (e : string * V) : N :=
  match array_index (fst e) with Some n => n | None => 0%N end.

Fixpoint insert_sorted {V} (e : string * V) (l : list (string * V)) :=
  match l with
  | [] => [e]
  | x :: r =>
      if (index_of e <? index_of x)%N then e :: l else x :: insert_sorted e r
  end.

Definition sort_indices {V} (l : list (string * V)) : list (string * V) :=
  fold_right insert_sorted [] l.

(** [Object.fromEntries(map)]: the own properties of the new object, in
    the order in which the language enumerates them. *)
Definition fromEntries {V} (entries : list (string * V)) : list (string * V) :=
  (sort_indices (List.filter is_index entries)
     ++ List.filter (fun e => negb (is_index e)) entries)%list.

(** [obj[name]] on the fields of a parsed object; a repeated key was
    overwritten by its last occurrence. *)
Fixpoint field (name : string) (fields : list (string * json)) : option json :=
  match fields with
  | [] => None
  | (k, v) :: r =>
      match field name r with
      | Some later => Some later
      | None => if String.eqb k name then Some v else None
      end
  end.

(** Truthiness of a value ([None] is [undefined]). *)
Definition truthy (v : option json) : bool :=
  match v with
  | None | Some JNull => false
  | Some (JBool b) => b
  | Some (JNum n) => negb (n =? 0)
  | Some (JStr s) => negb (String.eqb s "")
  | Some (JArr _) | Some (JObj _) => true
  end.

Fixpoint enumerate {A} (i : nat) (l : list A) : list (string * A) :=
  match l with
  | [] => []
  | x :: r => (JS.of_Z (Z.of_nat i), x) :: enumerate (S i) r
  end.

Fixpoint chars (s : string) : list json :=
  match s with
  | EmptyString => []
  | String c t => JStr (String c EmptyString) :: chars t
  end.

(** [Object.entries(v)] for a truthy [v]. *)
Definition entries (v : json) : list (string * json) :=
  match v with
  | JObj fields => fields
  | JArr items => enumerate 0 items
  | JStr s => enumerate 0 (chars s)
  | _ => []
  end.

End Obj.

Module Sidecar.

Definition opt_field {A} (name : string) (f : A -> json) (o : option A)
  : list (string * json) :=
  match o with
  | Some a => [(name, f a)]
  | None => []     (* [JSON.stringify] leaves out [undefined] *)
  end.

(** An image record as [JSON.stringify] renders it. *)
Definition of_info (i : IImageInfo) : json :=
  JObj ([ ("localPath", JStr (localPath i));
          ("remotePath", JStr (remotePath i));
          ("isUploaded", JBool (isUploaded i)) ]
        ++ opt_field "createTime" JNum (createTime i)
        ++ opt_field "modifyTime" JNum (modifyTime i)
        ++ opt_field "originalName" JStr (originalName i)
        ++ opt_field "size" JNum (size i)
        ++ opt_field "width" JNum (width i)
        ++ opt_field "height" JNum (height i)
        ++ opt_field "align" JStr (align i))%list.

Definition str_of (v : option json) : string :=
  match v with Some (JStr s) => s | _ => "" end.
Definition bool_of (v : option json) : bool :=
  match v with Some (JBool b) => b | _ => false end.
Definition opt_num (v : option json) : option Z :=
  match v with Some (JNum n) => Some n | _ => None end.
Definition opt_str (v : option json) : option string :=
  match v with Some (JStr s) => Some s | _ => None end.

(** [value as IImageInfo]: the cast checks nothing; a field of the wrong
    shape reads as the falsy value of its type. *)
Definition to_info (v : json) : IImageInfo :=
  let fs := match v with JObj fields => fields | _ => [] end in
  {| localPath := str_of (Obj.field "localPath" fs);
     remotePath := str_of (Obj.field "remotePath" fs);
     isUploaded := bool_of (Obj.field "isUploaded" fs);
     width := opt_num (Obj.field "width" fs);
     height := opt_num (Obj.field "height" fs);
     align := opt_str (Obj.field "align" fs);
     originalName := opt_str (Obj.field "originalName" fs);
     size := opt_num (Obj.field "size" fs);
     createTime := opt_num (Obj.field "createTime" fs);
     modifyTime := opt_num (Obj.field "modifyTime" fs) |}.

(** [{ mdPath: this.mdPath, images: Object.fromEntries(this.images) }] *)
Definition data (mdPath' : string) (images' : JsMap.t IImageInfo) : json :=
  JObj [ ("mdPath", JStr mdPath');
         ("images",
          JObj (Obj.fromEntries (map (fun e => (fst e, of_info (snd e))) images'))) ].

(** [JSON.parse(content)] *)
Definition parse {S} (c : content) : M S json :=
  match c with
  | Doc v => ret v
  | Raw _ => throw
  end.

(** [data.images]; reading a property of [null] throws. *)
Definition images_of {S} (d : json) : M S (option json) :=
  match d with
  | JNull => throw
  | JObj fields => ret (Obj.field "images" fields)
  | _ => ret None
  end.

End Sidecar.

(* ===================================================================== *)
(** * The command uploader: src/uploader/custom/custom_uploader.ts     *)
(* ===================================================================== *)

Module CustomUploader.

(** How the command ended: [exec] reports an error, or hands over what
    the command wrote. *)
Inductive exec_result : Type :=
| Failed
| Finished (stdout stderr : string).

(** [\s] and the line terminators, on ASCII text. *)
Definition is_space (c : ascii) : bool :=
  let n := nat_of_ascii c in (((9 <=? n) && (n <=? 13)) || (n =? 32))%nat.

Definition is_line_terminator (c : ascii) : bool :=
  let n := nat_of_ascii c in ((n =? 10) || (n =? 13))%nat.

(** The longest prefix of characters that satisfy [p], and what follows. *)
Fixpoint span (p : ascii -> bool) (s : string) : string * string :=
  match s with
  | EmptyString => (EmptyString, EmptyString)
  | String c t =>
      if p c then let '(a, b) := span p t in (String c a, b)
      else (EmptyString, s)
  end.

Fixpoint strip_prefix (p s : string) : option string :=
  match p, s with
  | EmptyString, _ => Some s
  | String _ _, EmptyString => None
  | String a p', String b s' => if Ascii.eqb a b then strip_prefix p' s' else None
  end.

(** [.+?(?:\s|$)]: one character that ends no line, then as few more as
    it takes to stand before white space or at the end. *)
Definition url_body (s : string) : option string :=
  match s with
  | EmptyString => None
  | String c t =>
      if is_line_terminator c then None
      else Some (String c (fst (span (fun x => negb (is_space x)) t)))
  end.

(** [line.match(/^\[(\d+)\]\s*(https?:\/\/.+?)(?:\s|$)/)]: the two
    groups, index and URL. *)
Definition match_line (line : string) : option (string * string) :=
  match strip_prefix "[" line with
  | None => None
  | Some r1 =>
      let '(index, r2) := span Obj.is_digit r1 in
      if String.eqb index "" then None
      else
        match strip_prefix "]" r2 with
        | None => None
        | Some r3 =>
            match strip_prefix "http" (snd (span is_space r3)) with
            | None => None
            | Some r4 =>
                let '(scheme, r5) :=
                  match strip_prefix "s" r4 with
                  | Some r => ("https", r)
                  | None => ("http", r4)
                  end in
                match strip_prefix "://" r5 with
                | None => None
                | Some r6 =>
                    match url_body r6 with
                    | None => None
                    | Some body => Some (index, scheme +:+ "://" +:+ body)
                    end
                end
            end
        end
  end.

(** [s.trim()] *)
Fixpoint trim_end (s : string) : string :=
  match s with
  | EmptyString => EmptyString
  | String c t =>
      let t' := trim_end t in
      if String.eqb t' "" && is_space c then EmptyString else String c t'
  end.

Definition trim (s : string) : string := trim_end (snd (span is_space s)).

(** [result.includes(sep)] and [result.split(sep)[1]] *)
Fixpoint after (sep s : string) : option string :=
  if JS.startsWith sep s then Some (JS.drop (String.length sep) s)
  else match s with
       | EmptyString => None
       | String _ t => after sep t
       end.

Fixpoint before (sep s : string) : string :=
  if JS.startsWith sep s then EmptyString
  else match s with
       | EmptyString => EmptyString
       | String c t => String c (before sep t)
       end.

(** [urlMap.set(index, url)] on a [Map<number, string>] *)
Fixpoint set_index (k : Z) (v : string) (m : list (Z * string)) : list (Z * string) :=
  match m with
  | [] => [(k, v)]
  | (k', v') :: r => if Z.eqb k' k then (k', v) :: r else (k', v') :: set_index k v r
  end.

(** [.sort(([a], [b]) => a - b)] *)
Fixpoint insert_by_index (e : Z * string) (l : list (Z * string)) : list (Z * string) :=
  match l with
  | [] => [e]
  | e' :: r => if Z.leb (fst e) (fst e') then e :: l else e' :: insert_by_index e r
  end.

Definition sort_by_index (l : list (Z * string)) : list (Z * string) :=
  fold_right insert_by_index [] l.

(** [urls.join(",")] *)
Fixpoint join (urls : list string) : string :=
  match urls with
  | [] => EmptyString
  | [u] => u
  | u :: rest => u +:+ "," +:+ join rest
  end.

Section parse.

(** [parseInt] on a run of decimal digits; how a long run is rounded is
    left open. *)
Variable parseInt : string -> Z.

Definition collect (urlMap : list (Z * string)) (line : string) : list (Z * string) :=
  match match_line line with
  | Some (index, url) => set_index (parseInt index) (trim url) urlMap
  | None => urlMap
  end.

(** [parseURL(result, fileCount)]; [None] when it throws. *)
Definition parseURL (result : string) (fileCount : nat) : option (list string) :=
  match after "Successfully uploaded:" result with
  | None => None
  | Some rest =>
      let result := before "Successfully uploaded:" rest in
      let lines := JS.split "010" result in
      let urlMap := fold_left collect lines [] in
      let urls := map snd (sort_by_index urlMap) in
      if (length urls =? 0)%nat then None
      else if negb (length urls =? fileCount)%nat then None
      else Some urls
  end.

(** [upload(files, options)]: what the promise settles to; [None] when it
    rejects. *)
Definition upload (command files : string) (ended : exec_result) : option string :=
  if String.eqb command "" then None
  else
    let fileCount := length (JS.split "," files) in
    match ended with
    | Failed => None
    | Finished stdout stderr =>
        if negb (String.eqb stderr "") then None
        else
          match parseURL stdout fileCount with
          | Some urls => Some (join urls)
          | None => None
          end
    end.

End parse.

End CustomUploader.

(* ===================================================================== *)
(** * File helpers: src/utils/file.ts                                    *)
(* ===================================================================== *)

Module Files.

(** [adapter.stat(p)] read for its [type]: ["file"], ["folder"], or
    [null] when nothing is at [p]. *)
Definition stat_type (p : string) : M World (option string) :=
  Adapter.io ;;; ns <- Adapter.peek ;;
  match ns !! p with
  | Some (File _) => ret (Some "file")
  | Some Folder => ret (Some "folder")
  | None => ret None
  end.

Definition saveTemporaryFile (filename : string) (data : content) : M World string :=
  try_catch
    (let tempFolderPath := "temp" in
     found <- Adapter.exists_ tempFolderPath ;;
     when (negb found) (Adapter.mkdir tempFolderPath) ;;;
     let tempPath := Path.join tempFolderPath filename in
     let normalizedPath := Path.normalizePath tempPath in
     Adapter.writeBinary normalizedPath data ;;;
     ret normalizedPath)
    throw.

Definition deleteFile (path : string) : M World bool :=
  try_catch
    (let normalizedPath := Path.normalizePath path in
     found <- Adapter.exists_ normalizedPath ;;
     if found then
       Adapter.remove normalizedPath ;;;
       ret true
     else ret false)
    (ret false).

Definition ensureDirectory (path : string) : M World bool :=
  try_catch
    (let normalizedPath := Path.normalizePath path in
     found <- Adapter.exists_ normalizedPath ;;
     if found then
       stat <- stat_type normalizedPath ;;
       match stat with
       | Some type => if String.eqb type "folder" then ret true else ret false
       | None => ret false
       end
     else
       Adapter.mkdir normalizedPath ;;;
       ret true)
    (ret false).

(** [normalizedTargetPath.substring(0, normalizedTargetPath.lastIndexOf('/'))] *)
Definition targetDirOf (normalizedTargetPath : string) : string :=
  JS.substring normalizedTargetPath 0 (JS.lastIndexOf "/" normalizedTargetPath).

Definition moveFile (sourcePath targetPath : string) : M World bool :=
  try_catch
    (let normalizedSourcePath := Path.normalizePath sourcePath in
     let normalizedTargetPath := Path.normalizePath targetPath in
     found <- Adapter.exists_ normalizedSourcePath ;;
     if negb found then ret false
     else
       let targetDir := targetDirOf normalizedTargetPath in
       stop <- (if String.eqb targetDir "" then ret false
                else ok <- ensureDirectory targetDir ;; ret (negb ok)) ;;
       if stop then ret false
       else
         data <- Adapter.readBinary normalizedSourcePath ;;
         Adapter.writeBinary normalizedTargetPath data ;;;
         Adapter.remove normalizedSourcePath ;;;
         ret true)
    (ret false).

End Files.

(* ===================================================================== *)
(** * The document image manager: src/manager/document_manager.ts        *)
(* ===================================================================== *)

(** The settings the manager reads. *)
Record ISettings : Type := mkSettings {
  isAutoUpload : bool;
  isDeleteTemp : bool;
  tempFolderPath : string;
  tempFileFormat : string
}.

Definition DEFAULT_SETTINGS : ISettings :=
  {| isAutoUpload := true; isDeleteTemp := false;
     tempFolderPath := "_assets.{{filename}}";
     tempFileFormat := "Image{{date}}_{{time}}" |}.

Record DocumentImageManager : Type := mkManager {
  settings : ISettings;
  mdPath : string;
  images : JsMap.t IImageInfo;
  imageFolderPath : string
}.

(** The state a method runs in: the manager object and the host. *)
Record St : Type := mkSt {
  this : DocumentImageManager;
  world : World
}.

(** Run a host call from inside a method. *)
Definition host {A} (c : M World A) : M St A :=
  fun s =>
    let '(r, w') := c (world s) in
    (r, {| this := this s; world := w' |}).

Definition self : M St DocumentImageManager := fun s => (Return (this s), s).

Definition update_this (f : DocumentImageManager -> DocumentImageManager) : M St unit :=
  fun s => (Return tt, {| this := f (this s); world := world s |}).

Definition set_mdPath (p : string) (m : DocumentImageManager) :=
  {| settings := settings m; mdPath := p; images := images m;
     imageFolderPath := imageFolderPath m |}.

Definition set_imageFolderPath (p : string) (m : DocumentImageManager) :=
  {| settings := settings m; mdPath := mdPath m; images := images m;
     imageFolderPath := p |}.

Definition set_images (i : JsMap.t IImageInfo) (m : DocumentImageManager) :=
  {| settings := settings m; mdPath := mdPath m; images := i;
     imageFolderPath := imageFolderPath m |}.

Definition update_images (f : JsMap.t IImageInfo -> JsMap.t IImageInfo) : M St unit :=
  update_this (fun m => set_images (f (images m)) m).

(** [MagicVariableProcessor.getContext]: the file's name parts when the
    path names a file of the vault, then date, time and random token. *)
Definition getContext (filePath : string) : M World Magic.context :=
  ns <- Adapter.peek ;;
  name <- (fun w => (Return (vaultName w), w)) ;;
  let ctx :=
    match ns !! filePath with
    | Some (File _) =>
        let filename := Path.tfile_basename filePath in
        <["workspace" := Some name]>
          (<["title" := Some filename]>
             (<["filename" := Some filename]> (∅ : Magic.context)))
    | _ => ∅
    end in
  stamp <- next_stamp ;;
  ret (<["random" := Some (st_random stamp)]>
         (<["time" := Some (st_time stamp)]>
            (<["date" := Some (st_date stamp)]> ctx))).

(** The asset folder a document path resolves to under given settings. *)
Definition resolveFolder (cfg : ISettings) (mdPath' : string) : M World string :=
  let mdDir := Path.dirname mdPath' in
  context <- getContext mdPath' ;;
  let relativeFolderPath := Magic.process (tempFolderPath cfg) context in
  ret (Path.normalizePath (Path.join mdDir relativeFolderPath)).

Definition getImageFolderPath : M St string :=
  m <- self ;;
  host (resolveFolder (settings m) (mdPath m)).

Definition jsonPathOf (mdPath' imageFolderPath' : string) : string :=
  Path.join imageFolderPath' (Path.basename_ext mdPath' ".md" +:+ ".json").

Definition getJsonPath (imageFolderPath' : string) : M St string :=
  m <- self ;;
  ret (jsonPathOf (mdPath m) imageFolderPath').

(** [new DocumentImageManager(app, settings, uploader, mdPath)] *)
Definition new_manager (cfg : ISettings) (mdPath' : string)
  : M World DocumentImageManager :=
  folder <- resolveFolder cfg mdPath' ;;
  ret {| settings := cfg; mdPath := mdPath'; images := [];
         imageFolderPath := folder |}.

(** [for (const [key, value] of Object.entries(data.images))
       this.images.set(key, value as IImageInfo)] *)
Definition load_entries (entries : list (string * json))
    (m : JsMap.t IImageInfo) : JsMap.t IImageInfo :=
  fold_left (fun acc e => JsMap.set (fst e) (Sidecar.to_info (snd e)) acc) entries m.

Definition loadFromJson : M St bool :=
  m <- self ;;
  jsonPath <- getJsonPath (imageFolderPath m) ;;
  found <-
    try_catch
      (present <- host (Adapter.exists_ jsonPath) ;;
       if present then
         content <- host (Adapter.read jsonPath) ;;
         data <- Sidecar.parse content ;;
         update_images (fun _ => []) ;;;
         imgs <- Sidecar.images_of data ;;
         when (Obj.truthy imgs)
           (match imgs with
            | Some v => update_images (load_entries (Obj.entries v))
            | None => ret tt
            end) ;;;
         ret true
       else ret false)
      (ret false) ;;
  ret found.

Definition saveToJson : M St bool :=
  try_catch
    (m <- self ;;
     if (JsMap.size (images m) =? 0)%nat then
       jsonPath <- getJsonPath (imageFolderPath m) ;;
       hasJson <- host (Adapter.exists_ jsonPath) ;;
       when hasJson (host (Adapter.remove jsonPath)) ;;;
       hasFolder <- host (Adapter.exists_ (imageFolderPath m)) ;;
       when hasFolder (host (Adapter.rmdir (imageFolderPath m))) ;;;
       ret true
     else
       let data := Sidecar.data (mdPath m) (images m) in
       hasFolder <- host (Adapter.exists_ (imageFolderPath m)) ;;
       when (negb hasFolder) (host (Adapter.mkdir (imageFolderPath m))) ;;;
       jsonPath <- getJsonPath (imageFolderPath m) ;;
       host (Adapter.write jsonPath (Doc data)) ;;;
       ret true)
    (ret false).

(** The name used when the destination is taken:
    [`${nameWithoutExt}_${timestamp}${ext}`]. *)
Definition nameWithTimestamp (newFileName : string) (timestamp : Z) : string :=
  let nameWithoutExt :=
    JS.substring newFileName 0 (JS.lastIndexOf "." newFileName) in
  let ext := JS.substring_from newFileName (JS.lastIndexOf "." newFileName) in
  nameWithoutExt +:+ "_" +:+ JS.of_Z timestamp +:+ ext.

Definition copyImageToFolder (sourcePath : string) : M St string :=
  try_catch
    (m <- self ;;
     let originalName := Path.basename sourcePath in
     let newFileName := originalName in
     hasFolder <- host (Adapter.exists_ (imageFolderPath m)) ;;
     when (negb hasFolder) (host (Adapter.mkdir (imageFolderPath m))) ;;;
     let targetPath := Path.normalizePath (Path.join (imageFolderPath m) newFileName) in
     taken <- host (Adapter.exists_ targetPath) ;;
     if taken then
       timestamp <- host Date_now ;;
       let newNameWithTimestamp := nameWithTimestamp newFileName timestamp in
       let targetPathWithTimestamp :=
         Path.normalizePath (Path.join (imageFolderPath m) newNameWithTimestamp) in
       sourceContent <- host (Adapter.readBinary sourcePath) ;;
       host (Adapter.writeBinary targetPathWithTimestamp sourceContent) ;;;
       ret targetPathWithTimestamp
     else
       sourceContent <- host (Adapter.readBinary sourcePath) ;;
       host (Adapter.writeBinary targetPath sourceContent) ;;;
       ret targetPath)
    throw.

Definition getRelativePath (mdPath' absolutePath : string) : string :=
  let mdDir := Path.dirname mdPath' in
  let relativePath :=
    JS.replace_first (Path.normalizePath mdDir) "" (Path.normalizePath absolutePath) in
  if JS.startsWith "/" relativePath then JS.substring_from relativePath 1
  else relativePath.

(** [uploadImage(localPath)] *)
Definition uploadImage (localPath' : string) : M St bool :=
  m <- self ;;
  if negb (JsMap.has localPath' (images m)) then ret false
  else
    match JsMap.get localPath' (images m) with
    | None => ret false
    | Some imageInfo =>
        if isUploaded imageInfo then ret true
        else
          try_catch
            (result <- host (upload localPath') ;;
             let urls := JS.split "," result in
             if (0 <? length urls)%nat then
               update_images
                 (JsMap.alter (set_uploaded (default "" (JS.first urls))) localPath') ;;;
               now <- host Date_now ;;
               update_images (JsMap.alter (set_modifyTime now) localPath') ;;;
               saveToJson ;;;
               cfg <- self ;;
               (if isDeleteTemp (settings cfg) then
                  present <- host (Adapter.exists_ localPath') ;;
                  when present (host (Adapter.remove localPath'))
                else ret tt) ;;;
               ret true
             else ret false)
            (ret false)
    end.

(** [addImage(sourcePath)] *)
Definition addImage (sourcePath : string) : M St string :=
  try_catch
    (targetPath <- copyImageToFolder sourcePath ;;
     imageInfo <- host (createImageInfo targetPath "" false) ;;
     let imageInfo := set_originalName (Path.basename sourcePath) imageInfo in
     imageInfo <-
       try_catch
         (stat <- host (Adapter.stat targetPath) ;;
          match stat with
          | Some n => ret (set_size n imageInfo)
          | None => ret imageInfo
          end)
         (ret imageInfo) ;;
     update_images (JsMap.set targetPath imageInfo) ;;;
     saveToJson ;;;
     m <- self ;;
     uploaded <-
       (if isAutoUpload (settings m) then
          try_catch
            (uploadResult <- uploadImage targetPath ;;
             if uploadResult then
               now <- self ;;
               ret (Some (match JsMap.get targetPath (images now) with
                          | Some info => remotePath info
                          | None => ""
                          end))
             else ret None)
            (ret None)
        else ret None) ;;
     match uploaded with
     | Some url => ret url
     | None => m' <- self ;; ret (getRelativePath (mdPath m') targetPath)
     end)
    throw.

(** [removeImage(localPath)] *)
Definition removeImage (localPath' : string) : M St bool :=
  try_catch
    (m <- self ;;
     if negb (JsMap.has localPath' (images m)) then ret false
     else
       match JsMap.get localPath' (images m) with
       | None => ret false
       | Some _ =>
           present <- host (Adapter.exists_ localPath') ;;
           when present (host (Adapter.remove localPath')) ;;;
           update_images (JsMap.delete localPath') ;;;
           saveToJson ;;;
           ret true
       end)
    (ret false).

(** The loop of [uploadAllImages]: the iterator stands at entry [i] of
    the live map, [n] entries remain. *)
Fixpoint uploadLoop (n i : nat) (allSuccess : bool) : M St bool :=
  match n with
  | O => ret allSuccess
  | S n' =>
      m <- self ;;
      match nth_error (images m) i with
      | None => ret allSuccess
      | Some (path, info) =>
          if negb (isUploaded info) then
            success <- uploadImage path ;;
            uploadLoop n' (S i) (allSuccess && success)
          else uploadLoop n' (S i) allSuccess
      end
  end.

Definition uploadAllImages : M St bool :=
  m <- self ;;
  uploadLoop (JsMap.size (images m)) 0 true.

(** [downloadImage(url)] *)
Definition downloadImage (url : string) : M St string :=
  try_catch
    (let fileName := Path.basename (default "" (JS.first (JS.split "?" url))) in
     imageFolderPath' <- getImageFolderPath ;;
     hasFolder <- host (Adapter.exists_ imageFolderPath') ;;
     when (negb hasFolder) (host (Adapter.mkdir imageFolderPath')) ;;;
     let targetPath := Path.normalizePath (Path.join imageFolderPath' fileName) in
     arrayBuffer <- host (fetch url) ;;
     host (Adapter.writeBinary targetPath arrayBuffer) ;;;
     ret targetPath)
    throw.

(** The loop of [downloadAllImages]. *)
Fixpoint downloadLoop (n i : nat) (allSuccess : bool) : M St bool :=
  match n with
  | O => ret allSuccess
  | S n' =>
      m <- self ;;
      match nth_error (images m) i with
      | None => ret allSuccess
      | Some (path, info) =>
          missing <-
            (if isUploaded info then
               if String.eqb (localPath info) "" then ret true
               else present <- host (Adapter.exists_ (localPath info)) ;;
                    ret (negb present)
             else ret false) ;;
          if missing then
            ok <-
              try_catch
                (localPath' <- downloadImage (remotePath info) ;;
                 update_images (JsMap.alter_at (set_localPath localPath') i) ;;;
                 now <- host Date_now ;;
                 update_images (JsMap.alter_at (set_modifyTime now) i) ;;;
                 ret true)
                (ret false) ;;
            downloadLoop n' (S i) (allSuccess && ok)
          else downloadLoop n' (S i) allSuccess
      end
  end.

Definition downloadAllImages : M St bool :=
  m <- self ;;
  allSuccess <- downloadLoop (JsMap.size (images m)) 0 true ;;
  saveToJson ;;;
  ret allSuccess.

(** The inner loop of [renameImageFolder] over the live map: the entry
    keyed by [file] is deleted and re-inserted under [targetPath], which
    appends it where the iterator will still come by. *)
Fixpoint rekey (fuel i : nat) (file targetPath : string)
    (imgs : JsMap.t IImageInfo) : option (JsMap.t IImageInfo) :=
  match fuel with
  | O => None
  | S fuel' =>
      match nth_error imgs i with
      | None => Some imgs
      | Some (oldPath, info) =>
          if String.eqb oldPath file then
            let newInfo := set_localPath targetPath info in
            rekey fuel' i file targetPath
              (JsMap.set targetPath newInfo (JsMap.delete oldPath imgs))
          else rekey fuel' (S i) file targetPath imgs
      end
  end.

Definition rekey_images (file targetPath : string) : M St unit :=
  m <- self ;;
  match rekey (2 * JsMap.size (images m) + 2) 0 file targetPath (images m) with
  | Some imgs => update_images (fun _ => imgs)
  | None => hang
  end.

(** [for (const file of files.files) { ... }] *)
Fixpoint moveFiles (files : list string) (oldImageFolder : string) : M St unit :=
  match files with
  | [] => ret tt
  | file :: rest =>
      content <- host (Adapter.readBinary file) ;;
      let relativePath := JS.substring_from file (JS.len oldImageFolder) in
      m <- self ;;
      let targetPath :=
        Path.normalizePath (Path.join (imageFolderPath m) relativePath) in
      host (Adapter.writeBinary targetPath content) ;;;
      host (Adapter.remove file) ;;;
      rekey_images file targetPath ;;;
      moveFiles rest oldImageFolder
  end.

(** [renameImageFolder(newMdPath)] *)
Definition renameImageFolder (newMdPath : string) : M St bool :=
  m <- self ;;
  if (JsMap.size (images m) =? 0)%nat then ret true
  else
    let oldMdPath := mdPath m in
    let oldImageFolder := imageFolderPath m in
    oldJsonPath <- getJsonPath oldImageFolder ;;
    update_this (set_mdPath newMdPath) ;;;
    folder <- getImageFolderPath ;;
    update_this (set_imageFolderPath folder) ;;;
    newJsonPath <- getJsonPath folder ;;
    hasOld <- host (Adapter.exists_ oldImageFolder) ;;
    if negb hasOld then ret true
    else
      hasNew <- host (Adapter.exists_ folder) ;;
      when (negb hasNew) (host (Adapter.mkdir folder)) ;;;
      if String.eqb oldImageFolder folder then
        hasJson <- host (Adapter.exists_ oldJsonPath) ;;
        when hasJson
          (content <- host (Adapter.read oldJsonPath) ;;
           host (Adapter.write newJsonPath content) ;;;
           host (Adapter.remove oldJsonPath)) ;;;
        ret true
      else
        try_catch
          (files <- host (Adapter.list_files oldImageFolder) ;;
           moveFiles files oldImageFolder ;;;
           saveToJson ;;;
           host (Adapter.rmdir oldImageFolder) ;;;
           ret true)
          (update_this (set_mdPath oldMdPath) ;;;
           update_this (set_imageFolderPath oldImageFolder) ;;;
           ret false).

(** [getMarkdownReference(localPath)] *)
Definition getMarkdownReference (m : DocumentImageManager) (localPath' : string)
  : string :=
  if negb (JsMap.has localPath' (images m)) then ""
  else
    match JsMap.get localPath' (images m) with
    | None => ""
    | Some imageInfo =>
        let imageName := Path.basename localPath' in
        let imageNameWithoutExt :=
          JS.substring imageName 0 (JS.lastIndexOf "." imageName) in
        if isUploaded imageInfo && negb (String.eqb (remotePath imageInfo) "") then
          "![" +:+ imageNameWithoutExt +:+ "](" +:+ remotePath imageInfo +:+ ")"
        else
          "![" +:+ imageNameWithoutExt +:+ "](" +:+
          getRelativePath (mdPath m) localPath' +:+ ")"
    end.

(* ===================================================================== *)
(** * The manager factory                                                *)
(* ===================================================================== *)

(** Managers are objects: the cache holds references into a store, and a
    method call mutates the object the reference points to. *)
Record Factory : Type := mkFactory {
  plugin_settings : ISettings;
  managers : gmap string nat;                  (* document path -> reference *)
  store : gmap nat DocumentImageManager        (* the objects *)
}.

Record FSt : Type := mkFSt {
  factory : Factory;
  fworld : World
}.

(** Call a method on the manager object behind [ref]. *)
Definition invoke {A} (ref : nat) (method : M St A) : M FSt A :=
  fun s =>
    match store (factory s) !! ref with
    | None => (Throw, s)
    | Some m =>
        let '(r, s') := method {| this := m; world := fworld s |} in
        (r, {| factory :=
                 {| plugin_settings := plugin_settings (factory s);
                    managers := managers (factory s);
                    store := <[ref := this s']> (store (factory s)) |};
               fworld := world s' |})
    end.

Definition update_managers (f : gmap string nat -> gmap string nat) : M FSt unit :=
  fun s =>
    (Return tt,
     {| factory := {| plugin_settings := plugin_settings (factory s);
                      managers := f (managers (factory s));
                      store := store (factory s) |};
        fworld := fworld s |}).

Definition the_factory : M FSt Factory := fun s => (Return (factory s), s).

(** A reference no object of the store uses. *)
Definition fresh_ref (objects : gmap nat DocumentImageManager) : nat :=
  fresh (dom objects).

(** [getManager(mdPath)] *)
Definition getManager (mdPath' : string) : M FSt nat :=
  f <- the_factory ;;
  match managers f !! mdPath' with
  | Some ref => ret ref
  | None =>
      let ref := fresh_ref (store f) in
      (fun s =>
         let '(r, w') := new_manager (plugin_settings f) mdPath' (fworld s) in
         match r with
         | Return m =>
             (Return tt,
              {| factory := {| plugin_settings := plugin_settings (factory s);
                               managers := managers (factory s);
                               store := <[ref := m]> (store (factory s)) |};
                 fworld := w' |})
         | Throw => (Throw, {| factory := factory s; fworld := w' |})
         | Hang => (Hang, {| factory := factory s; fworld := w' |})
         end) ;;;
      invoke ref loadFromJson ;;;
      update_managers (insert mdPath' ref) ;;;
      ret ref
  end.

(** [removeManager(mdPath)] *)
Definition removeManager (mdPath' : string) : M FSt unit :=
  update_managers (delete mdPath').

(** [renameManager(oldPath, newPath)] *)
Definition renameManager (oldPath newPath : string) : M FSt bool :=
  f <- the_factory ;;
  match managers f !! oldPath with
  | None => ret false
  | Some manager =>
      success <- invoke manager (renameImageFolder newPath) ;;
      when success
        (update_managers (insert newPath manager) ;;;
         update_managers (delete oldPath)) ;;;
      ret success
  end.

(* ===================================================================== *)
(** * Reading a reference back: src/editor/context_menu.ts               *)
(* ===================================================================== *)

Module ContextMenu.

(** [(.*?)\)]: the group takes as few characters as it can, none of them
    a line terminator, up to a closing parenthesis; the captured text. *)
Fixpoint lazy_path (s : string) : option string :=
  match CustomUploader.strip_prefix ")" s with
  | Some _ => Some EmptyString
  | None =>
      match s with
      | EmptyString => None
      | String c t =>
          if CustomUploader.is_line_terminator c then None
          else option_map (String c) (lazy_path t)
      end
  end.

(** [.*?\]\((.*?)\)]: as few characters as it takes, none of them a line
    terminator, to stand before [](] followed by a path and [)]. *)
Fixpoint lazy_alt (s : string) : option string :=
  match
    match CustomUploader.strip_prefix "](" s with
    | Some r => lazy_path r
    | None => None
    end
  with
  | Some path => Some path
  | None =>
      match s with
      | EmptyString => None
      | String c t =>
          if CustomUploader.is_line_terminator c then None else lazy_alt t
      end
  end.

(** [/!\[.*?\]\((.*?)\)/] anchored at the start of [s]. *)
Definition match_here (s : string) : option string :=
  match CustomUploader.strip_prefix "![" s with
  | Some r => lazy_alt r
  | None => None
  end.

(** [line.match(/!\[.*?\]\((.*?)\)/)]: the left-most match; its group. *)
Fixpoint match_image (line : string) : option string :=
  match match_here line with
  | Some path => Some path
  | None =>
      match line with
      | EmptyString => None
      | String _ t => match_image t
      end
  end.

(** [extractImagePath(line)]; [None] is [null]. *)
Definition extractImagePath (line : string) : option string := match_image line.

End ContextMenu.

(* ===================================================================== *)
(** * Notions used to state the properties                               *)
(* ===================================================================== *)

(** Something (a file or a folder) is at path [p]: what [exists] answers
    when it does not fail. *)
Definition present (w : World) (p : string) : bool :=
  bool_decide (is_Some (nodes w !! p)).

Definition set_faults (f : list bool) (w : World) : World :=
  {| nodes := nodes w; vaultName := vaultName w; faults := f;
     clock := clock w; stamps := stamps w; replies := replies w;
     handed := handed w; responses := responses w |}.

(** The map holds at least one record. *)
Definition nonempty (m : DocumentImageManager) : bool :=
  negb (JsMap.size (images m) =? 0)%nat.

(** The sidecar path of a manager. *)
Definition sidecar (m : DocumentImageManager) : string :=
  jsonPathOf (mdPath m) (imageFolderPath m).

(** The state [s] with the host replaced by [w]. *)
Definition at_world (s : St) (w : World) : St := {| this := this s; world := w |}.

(** Two maps hold the same records under the same keys. *)
Definition same_records (a b : JsMap.t IImageInfo) : Prop :=
  forall k, JsMap.get k a = JsMap.get k b.

(** ** A small vault used in the examples *)

Definition sample_nodes : gmap string node :=
  <["temp/img.png" := File (Raw "PNG")]>
    (<["temp" := Folder]>
       (<["notes/a.md" := File (Raw "# a")]> (<["notes" := Folder]> ∅))).

Definition sample_world : World :=
  {| nodes := sample_nodes; vaultName := "vault"; faults := [];
     clock := [100; 101; 102; 103; 104; 105; 106; 107];
     stamps := []; replies := []; handed := []; responses := [] |}.

(** The state of a manager just built for [mdPath'] on the host [w]. *)
Definition fresh_state (cfg : ISettings) (mdPath' : string) (w : World) : St :=
  match new_manager cfg mdPath' w with
  | (Return m, w') => {| this := m; world := w' |}
  | (_, w') =>
      {| this := {| settings := cfg; mdPath := mdPath'; images := [];
                    imageFolderPath := "" |};
         world := w' |}
  end.

Definition local_settings : ISettings :=
  {| isAutoUpload := false; isDeleteTemp := false;
     tempFolderPath := "_assets.{{filename}}";
     tempFileFormat := "Image{{date}}_{{time}}" |}.

(** A folder template that uses the random token. *)
Definition random_settings : ISettings :=
  {| isAutoUpload := false; isDeleteTemp := false;
     tempFolderPath := "img_{{random}}";
     tempFileFormat := "Image{{date}}_{{time}}" |}.

Definition two_stamps : list Stamp :=
  [ {| st_date := "2024-05-01"; st_time := "101500"; st_random := "k3x9q2ab" |};
    {| st_date := "2024-05-01"; st_time := "101501"; st_random := "z7m1c0de" |} ].

Definition with_stamps (l : list Stamp) (w : World) : World :=
  {| nodes := nodes w; vaultName := vaultName w; faults := faults w;
     clock := clock w; stamps := l; replies := replies w;
     handed := handed w; responses := responses w |}.

(** ** How a computation may end *)

(** [c] always finishes: it returns or throws. *)
Definition halts {S A} (c : M S A) : Prop :=
  forall s r s', c s = (r, s') -> r <> Hang.

(** [c] always returns. *)
Definition returns {S A} (c : M S A) : Prop :=
  forall s r s', c s = (r, s') -> exists a, r = Return a.

(** [c] leaves the manager object as it found it. *)
Definition keeps_this {A} (c : M St A) : Prop :=
  forall s r s', c s = (r, s') -> this s' = this s.

(** The step of [removeImage] that deletes the underlying file:
    [if (await exists(localPath)) await remove(localPath)]. *)
Definition deleteLocalFile (localPath' : string) : M St unit :=
  present <- host (Adapter.exists_ localPath') ;;
  when present (host (Adapter.remove localPath')).

(** A manager with one record, for examples. *)
Definition one_image : DocumentImageManager :=
  {| settings := local_settings; mdPath := "notes/a.md";
     images := [("notes/_assets.a/img.png",
                 {| localPath := "notes/_assets.a/img.png"; remotePath := "";
                    isUploaded := false; width := None; height := None;
                    align := None; originalName := Some "img.png";
                    size := Some 3; createTime := Some 100;
                    modifyTime := Some 100 |})];
     imageFolderPath := "notes/_assets.a" |}.

Definition one_image_nodes : gmap string node :=
  <["notes/_assets.a/a.json" := File (Doc (Sidecar.data "notes/a.md" (images one_image)))]>
    (<["notes/_assets.a/img.png" := File (Raw "PNG")]>
       (<["notes/_assets.a" := Folder]> sample_nodes)).

Definition one_image_world (f : list bool) : World :=
  {| nodes := one_image_nodes; vaultName := "vault"; faults := f;
     clock := [200; 201; 202; 203]; stamps := []; replies := []; handed := [];
     responses := [] |}.

(** ** Notions for [getMarkdownReference] *)

(** The base file name without its extension, as the words say: what
    stands before the last dot, and the whole name when it has no dot. *)
Definition name_without_extension (name : string) : string :=
  if JS.lastIndexOf "." name =? -1 then name
  else JS.substring name 0 (JS.lastIndexOf "." name).

(** [target] is a form of [localPath'] relative to the folder of the
    document: joined to that folder it names the same file. *)
Definition relative_form (mdPath' localPath' target : string) : Prop :=
  Path.normalizePath (Path.join (Path.dirname mdPath') target)
  = Path.normalizePath localPath'.

(** The label and the target of the reference the code builds. *)
Definition reference_label (localPath' : string) : string :=
  let imageName := Path.basename localPath' in
  JS.substring imageName 0 (JS.lastIndexOf "." imageName).

Definition embed (label target : string) : string :=
  "![" +:+ label +:+ "](" +:+ target +:+ ")".

(** A vault whose document lies at the root. *)
Definition root_world : World :=
  {| nodes := <["temp/img.png" := File (Raw "PNG")]>
                (<["temp" := Folder]> (<["a.md" := File (Raw "# a")]> ∅));
     vaultName := "vault"; faults := [];
     clock := [100; 101; 102; 103]; stamps := []; replies := []; handed := [];
     responses := [] |}.

(** The manager of the root document after one image was added. *)
Definition root_manager : DocumentImageManager :=
  this (snd (addImage "temp/img.png" (fresh_state local_settings "a.md" root_world))).

Definition uploaded_record (local remote : string) : IImageInfo :=
  {| localPath := local; remotePath := remote; isUploaded := true;
     width := None; height := None; align := None; originalName := None;
     size := None; createTime := None; modifyTime := None |}.

(** Whatever way [c] ends, the outcome and the final state satisfy [Q]. *)
Definition ensures {S A} (Q : outcome A -> S -> Prop) (c : M S A) : Prop :=
  forall s r s', c s = (r, s') -> Q r s'.

(** The cache after [renameManager] re-keyed an entry:
    [managers.set(newPath, manager); managers.delete(oldPath)]. *)
Definition rekeyed (oldPath newPath : string) (ref : nat)
    (cache : gmap string nat) : gmap string nat :=
  delete oldPath (<[newPath := ref]> cache).

(** A factory that caches one manager. *)
Definition one_manager_factory (path : string) (m : DocumentImageManager) : Factory :=
  {| plugin_settings := settings m;
     managers := {[ path := 0%nat ]};
     store := {[ 0%nat := m ]} |}.

(** A manager without records. *)
Definition empty_manager : DocumentImageManager :=
  {| settings := local_settings; mdPath := "notes/a.md"; images := [];
     imageFolderPath := "notes/_assets.a" |}.

(** [c] keeps the property [I] of the state, however it ends. *)
Definition preserves {S A} (I : S -> Prop) (c : M S A) : Prop :=
  forall s r s', c s = (r, s') -> I s -> I s'.

(** The keys of the records not yet uploaded, in the order of the map:
    the records [uploadAllImages] has to hand to the uploader. *)
Definition pending (imgs : JsMap.t IImageInfo) : list string :=
  map fst (List.filter (fun e => negb (isUploaded (snd e))) imgs).

(** Attempt the upload of each path in turn, whatever the earlier
    attempts gave, and collect the outcomes. *)
Fixpoint attempt_each (paths : list string) : M St (list bool) :=
  match paths with
  | [] => ret []
  | p :: rest =>
      ok <- uploadImage p ;;
      oks <- attempt_each rest ;;
      ret (ok :: oks)
  end.

(** The logical AND of the outcomes. *)
Definition all_true (oks : list bool) : bool := forallb (fun b => b) oks.

(** The uploader has been handed exactly the paths [L]. *)
Definition logged_as (L : list string) (w : World) : Prop := handed w = L.

(** Does [uploadImage p] reach the uploader? *)
Definition to_upload (p : string) (imgs : JsMap.t IImageInfo) : bool :=
  match JsMap.get p imgs with
  | Some info => negb (isUploaded info)
  | None => false
  end.



(** Settings that upload every new image and delete the local copy. *)
Definition upload_and_delete_settings : ISettings :=
  {| isAutoUpload := true; isDeleteTemp := true;
     tempFolderPath := "_assets.{{filename}}";
     tempFileFormat := "Image{{date}}_{{time}}" |}.

Definition with_replies (l : list (option string)) (w : World) : World :=
  {| nodes := nodes w; vaultName := vaultName w; faults := faults w;
     clock := clock w; stamps := stamps w; replies := l;
     handed := handed w; responses := responses w |}.

(** The invariant of an image record: an uploaded record has a remote
    path. *)
Definition well_uploaded (info : IImageInfo) : Prop :=
  isUploaded info = true -> remotePath info <> "".

(** Every URL the uploader extracts starts with its scheme. *)
Definition starts_h (u : string) : Prop := exists rest, u = String "h" rest.

(** ** Sequences of manager operations *)

(** The operations a caller may run on a manager. *)
Inductive operation : Type :=
| AddImage (sourcePath : string)
| UploadAllImages
| DownloadAllImages
| RemoveImage (localPath' : string)
| RenameImageFolder (newMdPath : string).

(** One call: the manager and the host as the call leaves them, whether
    it returned or threw. *)
Definition perform (o : operation) (s : St) : St :=
  match o with
  | AddImage sourcePath => snd (addImage sourcePath s)
  | UploadAllImages => snd (uploadAllImages s)
  | DownloadAllImages => snd (downloadAllImages s)
  | RemoveImage localPath' => snd (removeImage localPath' s)
  | RenameImageFolder newMdPath => snd (renameImageFolder newMdPath s)
  end.

Definition perform_all (ops : list operation) (s : St) : St :=
  fold_left (fun s0 o => perform o s0) ops s.

(** [urls[0]] of what the uploader answered. *)
Definition first_url (result : string) : string :=
  default "" (JS.first (JS.split "," result)).

(** The uploader's answer, when it gives one, is a comma-separated list
    of URLs: it starts with a URL. *)
Definition names_url (answer : option string) : Prop :=
  match answer with
  | Some result => first_url result <> ""
  | None => True
  end.

(** Every record of the manager is well uploaded. *)
Definition records_ok (m : DocumentImageManager) : Prop :=
  Forall (fun e => well_uploaded (snd e)) (images m).

(** Every answer the uploader is still to give names a URL. *)
Definition answers_ok (w : World) : Prop := Forall names_url (replies w).

Definition sound (s : St) : Prop := records_ok (this s) /\ answers_ok (world s).

(** [c] keeps [I], and what it returns satisfies [R]. *)
Definition yields {S A} (I : S -> Prop) (R : A -> Prop) (c : M S A) : Prop :=
  forall s r s', c s = (r, s') -> I s -> I s' /\ forall a, r = Return a -> R a.

(** ** Notions for the loops, the uploader answer and the references *)

(** The keys, and the records already uploaded, of the map [imgs]. *)
Definition keeps_uploaded (imgs : JsMap.t IImageInfo) (m : DocumentImageManager) : Prop :=
  JsMap.keys (images m) = JsMap.keys imgs /\
  forall e, e ∈ imgs -> isUploaded (snd e) = true -> e ∈ images m.

(** What [downloadAllImages] may do to a record: nothing at all when the
    record is not uploaded, and otherwise nothing but set [localPath] and
    [modifyTime]. *)
Definition relocated (a b : IImageInfo) : Prop :=
  remotePath b = remotePath a /\ isUploaded b = isUploaded a /\
  width b = width a /\ height b = height a /\ align b = align a /\
  originalName b = originalName a /\ size b = size a /\
  createTime b = createTime a /\
  (isUploaded a = false -> b = a).

Definition relocated_map (imgs : JsMap.t IImageInfo) (m : DocumentImageManager) : Prop :=
  Forall2 (fun e e' => fst e' = fst e /\ relocated (snd e) (snd e')) imgs (images m).

(** The record at [i] is uploaded, and the map is related to [imgs]. *)
Definition relocating (imgs : JsMap.t IImageInfo) (i : nat) (m : DocumentImageManager)
  : Prop :=
  (exists k info, nth_error (images m) i = Some (k, info) /\ isUploaded info = true) /\
  relocated_map imgs m.

(** [f] changes at most the local path and the modification time. *)
Definition touches_local (f : IImageInfo -> IImageInfo) : Prop :=
  forall v, remotePath (f v) = remotePath v /\ isUploaded (f v) = isUploaded v /\
            width (f v) = width v /\ height (f v) = height v /\ align (f v) = align v /\
            originalName (f v) = originalName v /\ size (f v) = size v /\
            createTime (f v) = createTime v.

(** The text starts with the scheme of a web address. *)
Definition is_http (u : string) : Prop :=
  JS.startsWith "http://" u = true \/ JS.startsWith "https://" u = true.

(** No character of the text ends a line. *)
Fixpoint one_line (s : string) : bool :=
  match s with
  | EmptyString => true
  | String c t => negb (CustomUploader.is_line_terminator c) && one_line t
  end.

(** The text [pat] occurs somewhere in [s]. *)
Fixpoint occurs (pat s : string) : bool :=
  JS.startsWith pat s ||
  match s with
  | EmptyString => false
  | String _ t => occurs pat t
  end.

(** What [getMarkdownReference] points a known record's reference at. *)
Definition reference_target (m : DocumentImageManager) (localPath' : string)
    (info : IImageInfo) : string :=
  if isUploaded info && negb (String.eqb (remotePath info) "") then remotePath info
  else getRelativePath (mdPath m) localPath'.

(* ===================================================================== *)
(*                               PROPERTIES                              *)
(* ===================================================================== *)

(* ===================================================================== *)
(** * Facts about strings                                                *)
(* ===================================================================== *)

#[local] Arguments String.append !s1 s2 : simpl nomatch.

Section string_facts.

Lemma app_nil_r_str (s : string) : s +:+ "" = s.
Proof. induction s as [|a s IH]; simpl; [reflexivity | now rewrite IH]. Qed.

Lemma app_assoc_str (a b c : string) : (a +:+ b) +:+ c = a +:+ (b +:+ c).
Proof. induction a as [|x a IH]; simpl; [reflexivity | now rewrite IH]. Qed.

Lemma app_length_str (a b : string) :
  String.length (a +:+ b) = (String.length a + String.length b)%nat.
Proof. induction a as [|x a IH]; simpl; [reflexivity | now rewrite IH]. Qed.



End string_facts.

(* ===================================================================== *)
(** * Magic variables                                                    *)
(* ===================================================================== *)

Section magic_facts.
Import Magic.

Lemma span_word_split (s : string) :
  fst (span_word s) +:+ snd (span_word s) = s.
Proof.
  induction s as [|c t IH]; simpl; [reflexivity |].
  destruct (is_word c); [| reflexivity].
  destruct (span_word t) as [w r]; simpl in *. now rewrite IH.
Qed.

Lemma span_word_app (s tail : string) :
  stops_word tail ->
  span_word (s +:+ tail) = (fst (span_word s), snd (span_word s) +:+ tail).
Proof.
  intros Htail. induction s as [|c t IH]; simpl.
  - destruct tail as [|a tl]; simpl in *; [reflexivity |].
    now rewrite Htail.
  - destruct (is_word c); [| reflexivity].
    rewrite IH. now destruct (span_word t).
Qed.

Lemma span_word_name (name tail : string) :
  all_word name = true -> stops_word tail ->
  span_word (name +:+ tail) = (name, tail).
Proof.
  intros Hname Htail. induction name as [|c t IH]; simpl in *.
  - destruct tail as [|a tl]; simpl in *; [reflexivity |]. now rewrite Htail.
  - apply andb_prop in Hname as [Hc Ht]. rewrite Hc, (IH Ht). reflexivity.
Qed.

Lemma strip2_length c s t :
  strip2 c s = Some t -> String.length s = S (S (String.length t)).
Proof.
  destruct s as [|a [|b s']]; simpl; try discriminate.
  destruct (Ascii.eqb a c && Ascii.eqb b c); [| discriminate].
  now intros [= ->].
Qed.

Lemma match_placeholder_shorter s name rest :
  match_placeholder s = Some (name, rest) ->
  (String.length rest < String.length s)%nat.
Proof.
  unfold match_placeholder.
  destruct (strip2 "{" s) as [t|] eqn:Hs; [| discriminate].
  pose proof (span_word_split t) as Hsplit.
  destruct (span_word t) as [w r]; simpl in Hsplit.
  destruct (String.eqb w ""); [discriminate |].
  destruct (strip2 "}" r) as [rest'|] eqn:Hr; [| discriminate].
  intros [= <- <-].
  apply strip2_length in Hs, Hr.
  rewrite Hs, <- Hsplit, app_length_str, Hr. lia.
Qed.

(** The matcher sees the placeholder of a name. *)
Lemma match_placeholder_here name post :
  is_name name = true ->
  match_placeholder (placeholder name +:+ post) = Some (name, post).
Proof.
  unfold is_name. intros [Hne Hw]%andb_prop.
  unfold match_placeholder, placeholder. simpl.
  rewrite app_assoc_str.
  rewrite span_word_name by (simpl; auto).
  apply negb_true_iff in Hne. rewrite Hne. reflexivity.
Qed.

(** More fuel than the text is long changes nothing. *)
Lemma replace_all_fuel ctx n s :
  (String.length s <= n)%nat ->
  replace_all n ctx s = replace_all (String.length s) ctx s.
Proof.
  remember (String.length s) as k eqn:Hk.
  revert s n Hk. induction k as [k IH] using lt_wf_ind.
  intros s n -> Hn.
  destruct n as [|n].
  - destruct s; simpl in *; [reflexivity | lia].
  - destruct s as [|c t].
    + simpl. reflexivity.
    + cbn [String.length replace_all].
      destruct (match_placeholder (String c t)) as [[name rest]|] eqn:Hm.
      * apply match_placeholder_shorter in Hm. simpl in Hm, Hn.
        rewrite (IH (String.length rest)) by (simpl; lia).
        symmetry.
        rewrite (IH (String.length rest)) by (simpl; lia).
        reflexivity.
      * simpl in Hn.
        rewrite (IH (String.length t)) by (simpl; lia). reflexivity.
Qed.

Lemma process_scan ctx s :
  process s ctx = replace_all (String.length s) ctx s.
Proof.
  unfold process. destruct (String.eqb_spec s "") as [->|]; reflexivity.
Qed.

(** No placeholder anywhere: the scan copies the text. *)
Lemma replace_all_no_placeholder ctx n s :
  has_placeholder s = false -> replace_all n ctx s = s.
Proof.
  revert s. induction n as [|n IH]; intros s Hs; [reflexivity |].
  destruct s as [|c t]; simpl in *.
  - reflexivity.
  - destruct (match_placeholder (String c t)); [discriminate |].
    now rewrite IH.
Qed.

Lemma strip2_app c s tail :
  s <> "" ->
  match tail with String a _ => Ascii.eqb a c = false | EmptyString => True end ->
  strip2 c (s +:+ tail) =
  match strip2 c s with Some t => Some (t +:+ tail) | None => None end.
Proof.
  intros Hs Htail.
  destruct s as [|a [|b s']]; [congruence | |]; simpl.
  - destruct tail as [|x tl]; simpl; [reflexivity |].
    rewrite Htail, andb_false_r. reflexivity.
  - destruct (Ascii.eqb a c && Ascii.eqb b c); reflexivity.
Qed.

(** A match that starts before a placeholder ends before it. *)
Lemma match_placeholder_before pre tail :
  pre <> "" ->
  (exists x, tail = String "{" (String "{" x)) ->
  match_placeholder (pre +:+ tail) =
  match match_placeholder pre with
  | Some (name, rest) => Some (name, rest +:+ tail)
  | None => None
  end.
Proof.
  intros Hpre [x ->].
  unfold match_placeholder.
  destruct pre as [|a [|b t]]; [congruence | |].
  - simpl. destruct (Ascii.eqb a "{"); reflexivity.
  - cbn [String.append strip2].
    destruct (Ascii.eqb a "{" && Ascii.eqb b "{"); [| reflexivity].
    rewrite span_word_app by reflexivity.
    destruct (span_word t) as [w r]; cbn [fst snd].
    destruct (String.eqb w ""); [reflexivity |].
    destruct r as [|r1 [|r2 r']]; simpl.
    + reflexivity.
    + rewrite andb_false_r. reflexivity.
    + destruct (Ascii.eqb r1 "}" && Ascii.eqb r2 "}"); reflexivity.
Qed.

(** The scan of a text that contains the placeholder of a name:
    the text before and the text after are scanned on their own. *)
Lemma replace_all_placeholder ctx name pre post :
  is_name name = true ->
  process (pre +:+ placeholder name +:+ post) ctx =
  process pre ctx +:+ replacer ctx (placeholder name) name +:+ process post ctx.
Proof.
  intros Hname. rewrite !process_scan.
  remember (String.length pre) as k eqn:Hk.
  revert pre Hk. induction k as [k IH] using lt_wf_ind. intros pre ->.
  destruct pre as [|c t].
  - cbn [String.append String.length].
    destruct (String.length (placeholder name +:+ post)) as [|n] eqn:Hlen.
    { unfold placeholder in Hlen. simpl in Hlen. discriminate. }
    cbn [replace_all]. rewrite match_placeholder_here by assumption.
    rewrite replace_all_fuel; [reflexivity |].
    unfold placeholder in Hlen. simpl in Hlen.
    rewrite !app_length_str in Hlen. simpl in Hlen. lia.
  - cbn [String.append String.length replace_all].
    change (String c (t +:+ placeholder name +:+ post))
      with (String c t +:+ (placeholder name +:+ post)).
    rewrite match_placeholder_before;
      [| discriminate | unfold placeholder; simpl; eauto].
    destruct (match_placeholder (String c t)) as [[n rest]|] eqn:Hm.
    + pose proof (match_placeholder_shorter _ _ _ Hm) as Hlt. simpl in Hlt.
      rewrite (replace_all_fuel ctx (String.length t) rest) by lia.
      rewrite (replace_all_fuel ctx _ (rest +:+ placeholder name +:+ post)).
      * rewrite (IH (String.length rest)) by (simpl; lia || reflexivity).
        rewrite !app_assoc_str. reflexivity.
      * rewrite !app_length_str. lia.
    + cbn [String.append]. f_equal.
      rewrite <- (IH (String.length t)) by (simpl; lia || reflexivity).
      reflexivity.
Qed.

(** A defined own key is replaced by its value. *)
Lemma replacer_defined ctx name v :
  ctx !! name = Some (Some v) -> replacer ctx (placeholder name) name = v.
Proof. intros H. unfold replacer, js_in, js_get. now rewrite H. Qed.

(** An own key whose value is [undefined] keeps the literal text. *)
Lemma replacer_undefined ctx name :
  ctx !! name = Some None ->
  replacer ctx (placeholder name) name = placeholder name.
Proof. intros H. unfold replacer, js_in, js_get. now rewrite H. Qed.

(** A name that is neither an own key nor a property of
    [Object.prototype] keeps the literal text. *)
Lemma replacer_unknown ctx name :
  ctx !! name = None -> inherited name = false ->
  replacer ctx (placeholder name) name = placeholder name.
Proof. intros H Hi. unfold replacer, js_in, js_get. now rewrite H, Hi. Qed.

(** A name inherited from [Object.prototype] counts as present. *)
Lemma replacer_inherited ctx name :
  ctx !! name = None -> inherited name = true ->
  replacer ctx (placeholder name) name = inherited_text name.
Proof. intros H Hi. unfold replacer, js_in, js_get. now rewrite H, Hi. Qed.

Lemma process_empty ctx : process "" ctx = "".
Proof. reflexivity. Qed.

Lemma process_no_placeholder ctx template :
  has_placeholder template = false -> process template ctx = template.
Proof. intros H. rewrite process_scan. now apply replace_all_no_placeholder. Qed.

Lemma process_defined ctx name v pre post :
  is_name name = true -> ctx !! name = Some (Some v) ->
  process (pre +:+ placeholder name +:+ post) ctx =
  process pre ctx +:+ v +:+ process post ctx.
Proof.
  intros Hn Hv. rewrite replace_all_placeholder by assumption.
  now rewrite (replacer_defined _ _ _ Hv).
Qed.

Lemma process_unknown ctx name pre post :
  is_name name = true -> ctx !! name = None -> inherited name = false ->
  process (pre +:+ placeholder name +:+ post) ctx =
  process pre ctx +:+ placeholder name +:+ process post ctx.
Proof.
  intros Hn Hv Hi. rewrite replace_all_placeholder by assumption.
  now rewrite (replacer_unknown _ _ Hv Hi).
Qed.

End magic_facts.

(** C7.  A placeholder whose name is
    not a key of the context must stay as literal text.  [process] tests
    the name with [in], which also finds what every object inherits:
    for the template [{{__proto__}}] and the empty context the name is no
    key of the context, and still the placeholder is replaced. *)
Theorem C7_inherited_name_is_replaced :
  (∅ : Magic.context) !! "__proto__" = None /\
  Magic.process "{{__proto__}}" ∅ = "[object Object]" /\
  Magic.process "{{__proto__}}" ∅ <> "{{__proto__}}".
Proof.
  split; [reflexivity |]. split; [vm_compute; reflexivity |].
  vm_compute. discriminate.
Qed.

(* ===================================================================== *)
(** * Running monadic code                                               *)
(* ===================================================================== *)

Section run_facts.
Context {S : Type}.

Lemma bind_inv {A B} (c : M S A) (k : A -> M S B) s r s' :
  bind c k s = (r, s') ->
  (exists a s1, c s = (Return a, s1) /\ k a s1 = (r, s')) \/
  (c s = (Throw, s') /\ r = Throw) \/
  (c s = (Hang, s') /\ r = Hang).
Proof.
  unfold bind. destruct (c s) as [[a| |] s1] eqn:Hc; intros H.
  - left. eauto.
  - right; left. now inversion H.
  - right; right. now inversion H.
Qed.

Lemma bind_return {A B} (c : M S A) (k : A -> M S B) s a s1 :
  c s = (Return a, s1) -> bind c k s = k a s1.
Proof. unfold bind. now intros ->. Qed.

Lemma bind_throw {A B} (c : M S A) (k : A -> M S B) s s1 :
  c s = (Throw, s1) -> bind c k s = (Throw, s1).
Proof. unfold bind. now intros ->. Qed.

Lemma bind_hang {A B} (c : M S A) (k : A -> M S B) s s1 :
  c s = (Hang, s1) -> bind c k s = (Hang, s1).
Proof. unfold bind. now intros ->. Qed.

Lemma try_catch_inv {A} (c h : M S A) s r s' :
  try_catch c h s = (r, s') ->
  (exists s1, c s = (Throw, s1) /\ h s1 = (r, s')) \/
  (c s = (r, s') /\ r <> Throw).
Proof.
  unfold try_catch. destruct (c s) as [[a| |] s1] eqn:Hc; intros H.
  - right. inversion H; subst. split; [reflexivity | discriminate].
  - left. eauto.
  - right. inversion H; subst. split; [reflexivity | discriminate].
Qed.

Lemma ret_inv {A} (a : A) (s : S) r s' :
  ret a s = (r, s') -> r = Return a /\ s' = s.
Proof. unfold ret. now intros [= <- <-]. Qed.

Lemma when_inv (b : bool) (c : M S unit) s r s' :
  when b c s = (r, s') ->
  (b = true /\ c s = (r, s')) \/ (b = false /\ r = Return tt /\ s' = s).
Proof.
  unfold when. destruct b; intros H; [left; auto |].
  apply ret_inv in H as [-> ->]. right; auto.
Qed.

End run_facts.

Lemma host_inv {A} (c : M World A) s r s' :
  host c s = (r, s') ->
  exists w', c (world s) = (r, w') /\ s' = {| this := this s; world := w' |}.
Proof.
  unfold host. destruct (c (world s)) as [r0 w'] eqn:Hc.
  intros [= <- <-]. eauto.
Qed.

Lemma self_inv s r s' : self s = (r, s') -> r = Return (this s) /\ s' = s.
Proof. unfold self. now intros [= <- <-]. Qed.

Lemma update_this_inv f s r s' :
  update_this f s = (r, s') ->
  r = Return tt /\ s' = {| this := f (this s); world := world s |}.
Proof. unfold update_this. now intros [= <- <-]. Qed.

Lemma getJsonPath_inv p s r s' :
  getJsonPath p s = (r, s') -> r = Return (jsonPathOf (mdPath (this s)) p) /\ s' = s.
Proof. unfold getJsonPath, bind, self, ret. now intros [= <- <-]. Qed.

(** ** What the adapter calls do to the vault *)

Section adapter_facts.
Import Adapter.

Lemma io_inv w r w' :
  io w = (r, w') ->
  exists f, w' = set_faults f w /\ (r = Return tt \/ r = Throw).
Proof.
  unfold io. destruct w as [ns vn fs ck sp rp hd rs]; simpl.
  destruct fs as [|b rest]; intros H.
  - inversion H; subst. exists []. split; [reflexivity | auto].
  - exists rest. destruct b; inversion H; subst; (split; [reflexivity | auto]).
Qed.

Lemma peek_inv w r w' : peek w = (r, w') -> r = Return (nodes w) /\ w' = w.
Proof. unfold peek. now intros [= <- <-]. Qed.

(** Decompose a call into the fault check and the action on the nodes. *)
Lemma call_inv {A} (k : gmap string node -> M World A) w r w' :
  (io ;;; ns <- peek ;; k ns) w = (r, w') ->
  exists f,
    (r = Throw /\ w' = set_faults f w) \/
    k (nodes w) (set_faults f w) = (r, w').
Proof.
  intros H. apply bind_inv in H as [(u & w1 & Hio & H) | [[Hio ->] | [Hio ->]]].
  - apply io_inv in Hio as (f & -> & _). exists f. right.
    apply bind_inv in H as [(ns & w2 & Hp & H) | [[Hp ->] | [Hp ->]]];
      apply peek_inv in Hp as [Hr ->]; try discriminate.
    inversion Hr; subst. exact H.
  - apply io_inv in Hio as (f & -> & _). exists f. left. auto.
  - apply io_inv in Hio as (f & -> & [?|?]); discriminate.
Qed.

Lemma exists_inv p w r w' :
  exists_ p w = (r, w') ->
  exists f, w' = set_faults f w /\ (r = Throw \/ r = Return (present w p)).
Proof.
  intros H. apply call_inv in H as (f & [[-> ->] | H]); exists f.
  - auto.
  - apply ret_inv in H as [-> ->]. auto.
Qed.

Lemma remove_inv p w r w' :
  remove p w = (r, w') ->
  exists f,
    (r = Throw /\ w' = set_faults f w) \/
    (r = Return tt /\ w' = with_nodes (delete p) (set_faults f w)).
Proof.
  intros H. apply call_inv in H as (f & [[-> ->] | H]); exists f; [auto |].
  destruct (nodes w !! p) as [[c|]|]; inversion H; subst; auto.
Qed.

Lemma rmdir_inv p w r w' :
  rmdir p w = (r, w') ->
  exists f,
    (r = Throw /\ w' = set_faults f w) \/
    (r = Return tt /\ w' = with_nodes (filter (outside p)) (set_faults f w)).
Proof.
  intros H. apply call_inv in H as (f & [[-> ->] | H]); exists f; [auto |].
  destruct (nodes w !! p) as [[c|]|]; inversion H; subst; auto.
Qed.

Lemma mkdir_inv p w r w' :
  mkdir p w = (r, w') ->
  exists f,
    (r = Throw /\ w' = set_faults f w) \/
    (r = Return tt /\ present w' p = true /\
     (w' = set_faults f w \/ w' = with_nodes (insert p Folder) (set_faults f w))).
Proof.
  intros H. apply call_inv in H as (f & [[-> ->] | H]); exists f; [auto |].
  destruct (nodes w !! p) as [[c|]|] eqn:Hp; inversion H; subst; auto.
  - right. repeat split; auto.
    unfold present. simpl. rewrite Hp. apply bool_decide_eq_true. eauto.
  - right. repeat split; auto.
    unfold present. simpl. rewrite lookup_insert_eq.
    apply bool_decide_eq_true. eauto.
Qed.

Lemma write_inv p c w r w' :
  write p c w = (r, w') ->
  exists f,
    (r = Throw /\ w' = set_faults f w) \/
    (r = Return tt /\ w' = with_nodes (insert p (File c)) (set_faults f w)).
Proof.
  intros H. apply call_inv in H as (f & [[-> ->] | H]); exists f; [auto |].
  destruct (nodes w !! p) as [[c'|]|]; inversion H; subst; auto.
Qed.

Lemma read_inv p w r w' :
  read p w = (r, w') ->
  exists f, w' = set_faults f w /\
    (r = Throw \/ exists c, r = Return c /\ nodes w !! p = Some (File c)).
Proof.
  intros H. apply call_inv in H as (f & [[-> ->] | H]); exists f; [auto |].
  destruct (nodes w !! p) as [[c'|]|] eqn:Hp; inversion H; subst; eauto.
Qed.

End adapter_facts.

Lemma present_set_faults f w p : present (set_faults f w) p = present w p.
Proof. reflexivity. Qed.

Lemma present_insert w p q n :
  present (with_nodes (insert q n) w) p = (bool_decide (q = p) || present w p).
Proof.
  unfold present. simpl. rewrite (lookup_insert (nodes w) q p n).
  destruct (decide (q = p)) as [->|Hne]; repeat case_bool_decide;
    simpl; try reflexivity; try congruence; exfalso; eauto.
Qed.

Lemma present_delete w p q :
  present (with_nodes (delete q) w) p = (negb (bool_decide (q = p)) && present w p).
Proof.
  unfold present. simpl. rewrite (lookup_delete (nodes w) q p).
  destruct (decide (q = p)) as [->|Hne]; repeat case_bool_decide;
    simpl; try reflexivity; try congruence; exfalso;
    match goal with H : is_Some None |- _ => destruct H; discriminate end.
Qed.

Lemma present_rmdir_self w p :
  present (with_nodes (filter (Adapter.outside p)) w) p = false.
Proof.
  unfold present. simpl. apply bool_decide_eq_false. intros [x Hx].
  apply map_lookup_filter_Some in Hx as [_ Hout].
  unfold Adapter.outside in Hout. simpl in Hout.
  rewrite String.eqb_refl in Hout. discriminate.
Qed.

Lemma present_rmdir_absent w p q :
  present w q = false ->
  present (with_nodes (filter (Adapter.outside p)) w) q = false.
Proof.
  unfold present. simpl. intros H.
  apply bool_decide_eq_false in H. apply bool_decide_eq_false.
  intros [x Hx]. apply H. apply map_lookup_filter_Some in Hx as [Hx _]. eauto.
Qed.

(** ** Adapter calls made from a method *)


Section host_facts.

Lemma host_exists_inv p s r s' :
  host (Adapter.exists_ p) s = (r, s') ->
  exists f, s' = at_world s (set_faults f (world s)) /\
            (r = Throw \/ r = Return (present (world s) p)).
Proof.
  intros H. apply host_inv in H as (w' & H & ->).
  apply exists_inv in H as (f & -> & Hr). eauto.
Qed.

Lemma host_remove_inv p s r s' :
  host (Adapter.remove p) s = (r, s') ->
  exists f,
    (r = Throw /\ s' = at_world s (set_faults f (world s))) \/
    (r = Return tt /\
     s' = at_world s (with_nodes (delete p) (set_faults f (world s)))).
Proof.
  intros H. apply host_inv in H as (w' & H & ->).
  apply remove_inv in H as (f & [[-> ->] | [-> ->]]); eauto.
Qed.

Lemma host_rmdir_inv p s r s' :
  host (Adapter.rmdir p) s = (r, s') ->
  exists f,
    (r = Throw /\ s' = at_world s (set_faults f (world s))) \/
    (r = Return tt /\
     s' = at_world s (with_nodes (filter (Adapter.outside p)) (set_faults f (world s)))).
Proof.
  intros H. apply host_inv in H as (w' & H & ->).
  apply rmdir_inv in H as (f & [[-> ->] | [-> ->]]); eauto.
Qed.

Lemma host_mkdir_inv p s r s' :
  host (Adapter.mkdir p) s = (r, s') ->
  this s' = this s /\
  (r = Throw \/ (r = Return tt /\ present (world s') p = true)).
Proof.
  intros H. apply host_inv in H as (w' & H & ->). split; [reflexivity |].
  apply mkdir_inv in H as (f & [[-> ->] | (-> & Hp & _)]); auto.
Qed.

Lemma host_write_inv p c s r s' :
  host (Adapter.write p c) s = (r, s') ->
  exists f,
    (r = Throw /\ s' = at_world s (set_faults f (world s))) \/
    (r = Return tt /\
     s' = at_world s (with_nodes (insert p (File c)) (set_faults f (world s)))).
Proof.
  intros H. apply host_inv in H as (w' & H & ->).
  apply write_inv in H as (f & [[-> ->] | [-> ->]]); eauto.
Qed.

End host_facts.

Ltac inv_bind H :=
  let a := fresh "a" in
  let s1 := fresh "s" in
  let Hc := fresh "Hc" in
  let Hr := fresh "Hr" in
  apply bind_inv in H as [(a & s1 & Hc & H) | [[Hc Hr] | [Hc Hr]]];
  [ | try discriminate Hr | try discriminate Hr ].

Ltac inv_self Hc :=
  let Hr := fresh "Hr" in
  apply self_inv in Hc as [Hr ->]; inversion Hr; subst; clear Hr.

(** Saving a map without records removes the sidecar and the folder. *)
Lemma saveToJson_empty (s s' : St) :
  saveToJson s = (Return true, s') ->
  nonempty (this s) = false ->
  present (world s') (sidecar (this s)) = false /\
  present (world s') (imageFolderPath (this s)) = false /\
  this s' = this s.
Proof.
  intros H Hne. unfold saveToJson in H.
  apply try_catch_inv in H as [(s1 & _ & Hh) | [H _]].
  { apply ret_inv in Hh as [Hh _]. discriminate. }
  inv_bind H. inv_self Hc.
  unfold nonempty in Hne. apply negb_false_iff in Hne. rewrite Hne in H.
  unfold sidecar.
  inv_bind H. apply getJsonPath_inv in Hc as [Hr ->]. inversion Hr; subst; clear Hr.
  inv_bind H. apply host_exists_inv in Hc as (f1 & -> & [Hr | Hr]); [discriminate |].
  inversion Hr; subst; clear Hr.
  inv_bind H.
  assert (Hjson : present (world s0) (jsonPathOf (mdPath (this s)) (imageFolderPath (this s))) = false
                  /\ this s0 = this s).
  { apply when_inv in Hc as [[Hp Hc] | (Hp & _ & ->)].
    - apply host_remove_inv in Hc as (f2 & [[Hr _] | [_ ->]]); [discriminate |].
      simpl. split; [| reflexivity].
      rewrite present_delete, bool_decide_eq_true_2 by reflexivity. reflexivity.
    - simpl. split; [| reflexivity]. exact Hp. }
  destruct Hjson as [Hjson Hthis].
  inv_bind H. apply host_exists_inv in Hc0 as (f3 & -> & [Hr | Hr]); [discriminate |].
  inversion Hr; subst; clear Hr.
  inv_bind H. apply ret_inv in H as [_ <-].
  apply when_inv in Hc0 as [[Hp Hc0] | (Hp & _ & ->)].
  - apply host_rmdir_inv in Hc0 as (f4 & [[Hr _] | [_ ->]]); [discriminate |].
    simpl. repeat split.
    + apply present_rmdir_absent. exact Hjson.
    + apply present_rmdir_self.
    + exact Hthis.
  - simpl. repeat split; assumption.
Qed.

(** Saving a map with records ensures the folder and writes the sidecar. *)
Lemma saveToJson_nonempty (s s' : St) :
  saveToJson s = (Return true, s') ->
  nonempty (this s) = true ->
  present (world s') (sidecar (this s)) = true /\
  present (world s') (imageFolderPath (this s)) = true /\
  this s' = this s.
Proof.
  intros H Hne. unfold saveToJson in H.
  apply try_catch_inv in H as [(s1 & _ & Hh) | [H _]].
  { apply ret_inv in Hh as [Hh _]. discriminate. }
  inv_bind H. inv_self Hc.
  unfold nonempty in Hne. apply negb_true_iff in Hne. rewrite Hne in H.
  unfold sidecar.
  inv_bind H. apply host_exists_inv in Hc as (f1 & -> & [Hr | Hr]); [discriminate |].
  inversion Hr; subst; clear Hr.
  inv_bind H.
  assert (Hfolder : present (world s0) (imageFolderPath (this s)) = true
                    /\ this s0 = this s).
  { apply when_inv in Hc as [[Hp Hc] | (Hp & _ & ->)].
    - apply host_mkdir_inv in Hc as [Hthis [Hr | [_ Hpres]]]; [discriminate |].
      split; assumption.
    - simpl. split; [| reflexivity].
      apply negb_false_iff in Hp. exact Hp. }
  destruct Hfolder as [Hfolder Hthis].
  inv_bind H. apply getJsonPath_inv in Hc0 as [Hr ->]. inversion Hr; subst; clear Hr.
  inv_bind H. apply ret_inv in H as [_ <-].
  apply host_write_inv in Hc0 as (f2 & [[Hr _] | [_ ->]]); [discriminate |].
  simpl. rewrite Hthis. repeat split.
  - rewrite present_insert, bool_decide_eq_true_2 by reflexivity. reflexivity.
  - rewrite present_insert, present_set_faults, Hfolder. apply orb_true_r.
Qed.

(** C2.  After a successful [saveToJson] the sidecar file and the asset
    folder are both there when the map holds a record, and both gone when
    it holds none; the manager itself is untouched. *)
Theorem C2_sidecar_and_folder_follow_the_map (s s' : St) :
  saveToJson s = (Return true, s') ->
  present (world s') (sidecar (this s)) = nonempty (this s) /\
  present (world s') (imageFolderPath (this s)) = nonempty (this s) /\
  this s' = this s.
Proof.
  intros H. destruct (nonempty (this s)) eqn:Hne.
  - now apply saveToJson_nonempty.
  - now apply saveToJson_empty.
Qed.

Lemma C2_witness :
  let m := {| settings := DEFAULT_SETTINGS; mdPath := "notes/a.md";
              images := [("notes/_assets.a/img.png",
                          {| localPath := "notes/_assets.a/img.png"; remotePath := "";
                             isUploaded := false; width := None; height := None;
                             align := None; originalName := Some "img.png";
                             size := Some 3; createTime := Some 100;
                             modifyTime := Some 100 |})];
              imageFolderPath := "notes/_assets.a" |} in
  let w := {| nodes := {[ "notes" := Folder ]}; vaultName := "vault"; faults := [];
              clock := []; stamps := []; replies := []; handed := [];
              responses := [] |} in
  let s := {| this := m; world := w |} in
  present (world (snd (saveToJson s))) "notes/_assets.a/a.json" = true /\
  present (world (snd (saveToJson s))) "notes/_assets.a" = true /\
  this (snd (saveToJson s)) = m.
Proof.
  intros m w s.
  apply (C2_sidecar_and_folder_follow_the_map s (snd (saveToJson s))).
  vm_compute. reflexivity.
Defined.

(* ===================================================================== *)
(** * Facts about [Map]                                                  *)
(* ===================================================================== *)

Section map_facts.
Context {V : Type}.
Implicit Types (m : JsMap.t V) (k : string) (v : V).

Lemma get_app k m m' :
  JsMap.get k (m ++ m')%list =
  match JsMap.get k m with Some v => Some v | None => JsMap.get k m' end.
Proof.
  induction m as [|[k' v'] m IH]; simpl; [reflexivity |].
  destruct (String.eqb k' k); [reflexivity | exact IH].
Qed.

Lemma get_None_keys k m : JsMap.get k m = None <-> k ∉ JsMap.keys m.
Proof.
  induction m as [|[k' v'] m IH]; simpl.
  - split; [intros _; apply not_elem_of_nil | reflexivity].
  - destruct (String.eqb_spec k' k) as [->|Hne].
    + split; [discriminate |]. intros H. exfalso. apply H. left.
    + rewrite IH. rewrite not_elem_of_cons. split; [intros H; split; auto | tauto].
Qed.

Lemma get_Some_elem k v m : JsMap.get k m = Some v -> (k, v) ∈ m.
Proof.
  induction m as [|[k' v'] m IH]; simpl; [discriminate |].
  destruct (String.eqb_spec k' k) as [->|Hne].
  - intros [= ->]. left.
  - intros H. right. auto.
Qed.

Lemma elem_get k v m : JsMap.wf m -> (k, v) ∈ m -> JsMap.get k m = Some v.
Proof.
  unfold JsMap.wf.
  induction m as [|[k' v'] m IH]; simpl; intros Hwf Hin.
  - now apply elem_of_nil in Hin.
  - apply NoDup_cons in Hwf as [Hnot Hwf].
    apply elem_of_cons in Hin as [[= <- <-] | Hin].
    + now rewrite String.eqb_refl.
    + destruct (String.eqb_spec k' k) as [->|Hne]; [| auto].
      exfalso. apply Hnot. apply list_elem_of_In.
      apply list_elem_of_In in Hin. exact (in_map fst _ _ Hin).
Qed.

(** On a [Map] the order of the entries does not matter to [get]. *)
Lemma get_perm k m m' : m ≡ₚ m' -> JsMap.wf m -> JsMap.get k m = JsMap.get k m'.
Proof.
  intros Hp Hwf.
  assert (Hwf' : JsMap.wf m').
  { unfold JsMap.wf, JsMap.keys in *. now rewrite <- Hp. }
  destruct (JsMap.get k m) as [v|] eqn:Hg.
  - symmetry. apply elem_get; [exact Hwf' |].
    rewrite <- Hp. now apply get_Some_elem.
  - symmetry. apply get_None_keys. unfold JsMap.keys. rewrite <- Hp.
    now apply get_None_keys.
Qed.


Lemma get_alter f k k' m :
  JsMap.get k' (JsMap.alter f k m) =
  if String.eqb k k' then f <$> JsMap.get k' m else JsMap.get k' m.
Proof.
  induction m as [|[k0 v0] m IH]; simpl.
  - now destruct (String.eqb k k').
  - destruct (String.eqb_spec k0 k) as [->|Hne]; simpl.
    + destruct (String.eqb_spec k k'); reflexivity.
    + destruct (String.eqb_spec k0 k') as [->|Hne'].
      * destruct (String.eqb_spec k k'); [congruence | reflexivity].
      * exact IH.
Qed.

Lemma keys_alter f k m : JsMap.keys (JsMap.alter f k m) = JsMap.keys m.
Proof.
  induction m as [|[k0 v0] m IH]; simpl; [reflexivity |].
  destruct (String.eqb k0 k); simpl; [reflexivity | now rewrite IH].
Qed.

Lemma get_set k v k' m :
  JsMap.get k' (JsMap.set k v m) =
  if String.eqb k k' then Some v else JsMap.get k' m.
Proof.
  unfold JsMap.set, JsMap.has.
  destruct (JsMap.get k m) as [v0|] eqn:Hg.
  - rewrite get_alter. destruct (String.eqb_spec k k') as [<-|]; [| reflexivity].
    now rewrite Hg.
  - rewrite get_app. simpl.
    destruct (String.eqb_spec k k') as [<-|].
    + now rewrite Hg.
    + now destruct (JsMap.get k' m).
Qed.

Lemma get_delete k k' m :
  JsMap.get k' (JsMap.delete k m) =
  if String.eqb k k' then None else JsMap.get k' m.
Proof.
  unfold JsMap.delete.
  induction m as [|[k0 v0] m IH]; simpl.
  - now destruct (String.eqb k k').
  - destruct (String.eqb_spec k0 k) as [->|Hne]; simpl.
    + rewrite IH. destruct (String.eqb_spec k k'); reflexivity.
    + rewrite IH. destruct (String.eqb_spec k0 k') as [->|Hne'].
      * destruct (String.eqb_spec k k'); [congruence | reflexivity].
      * reflexivity.
Qed.

Lemma wf_alter f k m : JsMap.wf m -> JsMap.wf (JsMap.alter f k m).
Proof. unfold JsMap.wf. now rewrite keys_alter. Qed.

Lemma wf_set k v m : JsMap.wf m -> JsMap.wf (JsMap.set k v m).
Proof.
  unfold JsMap.set. destruct (JsMap.has k m) eqn:Hh; [apply wf_alter |].
  unfold JsMap.wf, JsMap.keys. rewrite map_app. simpl. intros Hwf.
  apply NoDup_app. split; [exact Hwf |]. split; [| apply NoDup_singleton].
  intros x Hx ->%list_elem_of_singleton.
  assert (JsMap.get k m = None) as Hn.
  { unfold JsMap.has in Hh. now destruct (JsMap.get k m). }
  apply get_None_keys in Hn. contradiction.
Qed.

Lemma keys_delete k m :
  JsMap.keys (JsMap.delete k m) =
  List.filter (fun x => negb (String.eqb x k)) (JsMap.keys m).
Proof.
  unfold JsMap.delete, JsMap.keys.
  induction m as [|[k0 v0] m IH]; simpl; [reflexivity |].
  destruct (String.eqb k0 k); simpl; now rewrite IH.
Qed.

Lemma wf_delete k m : JsMap.wf m -> JsMap.wf (JsMap.delete k m).
Proof.
  unfold JsMap.wf. rewrite keys_delete.
  induction (JsMap.keys m) as [|x l IH]; simpl; intros Hwf; [constructor |].
  apply NoDup_cons in Hwf as [Hx Hwf].
  destruct (String.eqb x k); simpl; [auto |].
  apply NoDup_cons. split; [| auto].
  intros Hin. apply Hx. apply list_elem_of_In in Hin.
  apply filter_In in Hin as [Hin _]. now apply list_elem_of_In.
Qed.

End map_facts.

(* ===================================================================== *)
(** * The sidecar document                                               *)
(* ===================================================================== *)

Section sidecar_facts.

(** Reading back a rendered record gives the record. *)
Lemma to_info_of_info (i : IImageInfo) : Sidecar.to_info (Sidecar.of_info i) = i.
Proof.
  destruct i as [lp rp up w h a on sz ct mt].
  destruct w, h, a, on, sz, ct, mt; reflexivity.
Qed.

Lemma insert_sorted_perm {V} (e : string * V) l : Obj.insert_sorted e l ≡ₚ e :: l.
Proof.
  induction l as [|x l IH]; simpl; [reflexivity |].
  destruct (Obj.index_of e <? Obj.index_of x)%N; [reflexivity |].
  rewrite IH. apply perm_swap.
Qed.

Lemma sort_indices_perm {V} (l : list (string * V)) : Obj.sort_indices l ≡ₚ l.
Proof.
  unfold Obj.sort_indices.
  induction l as [|x l IH]; simpl; [reflexivity |].
  rewrite insert_sorted_perm. now rewrite IH.
Qed.

Lemma filter_split_perm {A} (f : A -> bool) (l : list A) :
  (List.filter f l ++ List.filter (fun x => negb (f x)) l)%list ≡ₚ l.
Proof.
  induction l as [|x l IH]; simpl; [reflexivity |].
  destruct (f x); simpl.
  - now rewrite IH.
  - rewrite <- Permutation_middle. now rewrite IH.
Qed.

(** The own properties of [Object.fromEntries(m)] are the entries of
    [m], possibly in another order. *)
Lemma fromEntries_perm {V} (l : list (string * V)) : Obj.fromEntries l ≡ₚ l.
Proof.
  unfold Obj.fromEntries. rewrite sort_indices_perm. apply filter_split_perm.
Qed.

Lemma load_entries_snoc l e m :
  load_entries (l ++ [e])%list m =
  JsMap.set (fst e) (Sidecar.to_info (snd e)) (load_entries l m).
Proof. unfold load_entries. now rewrite fold_left_app. Qed.

(** Loading entries with distinct keys into a map. *)
Lemma get_load_entries k l m :
  JsMap.wf l ->
  JsMap.get k (load_entries l m) =
  match JsMap.get k l with
  | Some v => Some (Sidecar.to_info v)
  | None => JsMap.get k m
  end.
Proof.
  induction l as [|e l IH] using rev_ind; intros Hwf; [reflexivity |].
  rewrite load_entries_snoc, get_set, get_app.
  unfold JsMap.wf, JsMap.keys in Hwf. rewrite map_app in Hwf.
  apply NoDup_app in Hwf as (Hwf & Hdisj & _).
  rewrite IH by exact Hwf. destruct e as [ke ve]; simpl.
  destruct (String.eqb_spec ke k) as [->|Hne].
  - assert (JsMap.get k l = None) as ->; [| reflexivity].
    apply get_None_keys. intros Hin. apply (Hdisj k Hin). simpl. left.
  - now destruct (JsMap.get k l).
Qed.

Lemma get_rendered k (imgs : JsMap.t IImageInfo) :
  JsMap.get k (map (fun e => (fst e, Sidecar.of_info (snd e))) imgs) =
  Sidecar.of_info <$> JsMap.get k imgs.
Proof.
  induction imgs as [|[k0 v0] imgs IH]; simpl; [reflexivity |].
  destruct (String.eqb k0 k); [reflexivity | exact IH].
Qed.

Lemma keys_rendered (imgs : JsMap.t IImageInfo) :
  JsMap.keys (map (fun e => (fst e, Sidecar.of_info (snd e))) imgs) = JsMap.keys imgs.
Proof. unfold JsMap.keys. rewrite map_map. reflexivity. Qed.

(** What the sidecar holds, read back into an empty map, has the
    records of the map that was written. *)
Lemma load_saved_images k (imgs : JsMap.t IImageInfo) :
  JsMap.wf imgs ->
  JsMap.get k
    (load_entries
       (Obj.fromEntries (map (fun e => (fst e, Sidecar.of_info (snd e))) imgs)) [])
  = JsMap.get k imgs.
Proof.
  intros Hwf.
  set (rendered := map (fun e => (fst e, Sidecar.of_info (snd e))) imgs).
  assert (Hwr : JsMap.wf rendered).
  { unfold JsMap.wf, rendered. now rewrite keys_rendered. }
  assert (Hwo : JsMap.wf (Obj.fromEntries rendered)).
  { unfold JsMap.wf, JsMap.keys in *. now rewrite fromEntries_perm. }
  rewrite get_load_entries by exact Hwo.
  rewrite (get_perm k _ rendered (fromEntries_perm rendered) Hwo).
  unfold rendered. rewrite get_rendered.
  destruct (JsMap.get k imgs) as [i|]; simpl; [| reflexivity].
  now rewrite to_info_of_info.
Qed.

End sidecar_facts.

(** ** A host that does not fail *)

Section quiet_facts.
Import Adapter.

Lemma io_quiet w : faults w = [] -> io w = (Return tt, w).
Proof. destruct w; simpl. intros ->. reflexivity. Qed.

Lemma exists_quiet p w :
  faults w = [] -> exists_ p w = (Return (present w p), w).
Proof.
  intros Hq. unfold exists_.
  rewrite (bind_return _ _ _ _ _ (io_quiet w Hq)). reflexivity.
Qed.

Lemma read_quiet p w c :
  faults w = [] -> nodes w !! p = Some (File c) -> read p w = (Return c, w).
Proof.
  intros Hq Hp. unfold read.
  rewrite (bind_return _ _ _ _ _ (io_quiet w Hq)).
  unfold bind, peek. now rewrite Hp.
Qed.

Lemma host_return {A} (c : M World A) s a w' :
  c (world s) = (Return a, w') -> host c s = (Return a, at_world s w').
Proof. unfold host. now intros ->. Qed.

End quiet_facts.

Lemma next_stamp_inv w r w' :
  next_stamp w = (r, w') ->
  (exists st, r = Return st) /\ nodes w' = nodes w /\ faults w' = faults w
  /\ vaultName w' = vaultName w.
Proof.
  unfold next_stamp. destruct (stamps w); intros [= <- <-]; simpl; eauto.
Qed.

Lemma resolveFolder_inv cfg p w r w' :
  resolveFolder cfg p w = (r, w') ->
  (exists folder, r = Return folder) /\ nodes w' = nodes w /\ faults w' = faults w.
Proof.
  unfold resolveFolder, getContext, bind, Adapter.peek, next_stamp, ret.
  destruct (stamps w); intros [= <- <-]; simpl; eauto.
Qed.

Lemma new_manager_inv cfg p w r w' :
  new_manager cfg p w = (r, w') ->
  (exists folder,
      r = Return {| settings := cfg; mdPath := p; images := [];
                    imageFolderPath := folder |}) /\
  nodes w' = nodes w /\ faults w' = faults w.
Proof.
  unfold new_manager. intros H.
  apply bind_inv in H as [(a & w1 & Hc & H) | [[Hc _] | [Hc _]]];
    apply resolveFolder_inv in Hc as ((folder & Hr) & Hn & Hf); try discriminate.
  apply ret_inv in H as [-> ->]. eauto.
Qed.

(** A successful save of a map with records leaves the rendered map in
    the sidecar. *)
Lemma saveToJson_written (s s' : St) :
  saveToJson s = (Return true, s') ->
  nonempty (this s) = true ->
  nodes (world s') !! sidecar (this s) =
  Some (File (Doc (Sidecar.data (mdPath (this s)) (images (this s))))).
Proof.
  intros H Hne. unfold saveToJson in H.
  apply try_catch_inv in H as [(s1 & _ & Hh) | [H _]].
  { apply ret_inv in Hh as [Hh _]. discriminate. }
  inv_bind H. inv_self Hc.
  unfold nonempty in Hne. apply negb_true_iff in Hne. rewrite Hne in H.
  inv_bind H. apply host_exists_inv in Hc as (f1 & -> & [Hr | Hr]); [discriminate |].
  inversion Hr; subst; clear Hr.
  inv_bind H.
  assert (Hthis : this s0 = this s).
  { apply when_inv in Hc as [[Hp Hc] | (Hp & _ & ->)]; [| reflexivity].
    now apply host_mkdir_inv in Hc as [Hthis _]. }
  inv_bind H. apply getJsonPath_inv in Hc0 as [Hr ->]. inversion Hr; subst; clear Hr.
  inv_bind H. apply ret_inv in H as [_ <-].
  apply host_write_inv in Hc0 as (f2 & [[Hr _] | [_ ->]]); [discriminate |].
  simpl. rewrite Hthis. unfold sidecar. apply lookup_insert_eq.
Qed.

(** Loading on a host that does not fail. *)
Lemma loadFromJson_absent (s : St) :
  faults (world s) = [] ->
  present (world s) (sidecar (this s)) = false ->
  loadFromJson s = (Return false, s).
Proof.
  intros Hq Hp. unfold loadFromJson, getJsonPath, sidecar in *.
  unfold bind at 1. unfold self at 1. unfold bind at 1. unfold bind at 1.
  unfold self at 1. unfold ret at 1.
  unfold bind at 1. unfold try_catch.
  rewrite (bind_return _ _ _ _ _ (host_return _ _ _ _ (exists_quiet _ _ Hq))).
  rewrite Hp. unfold ret. destruct s; reflexivity.
Qed.

Lemma loadFromJson_present (s : St) (data : json) (v : json) :
  faults (world s) = [] ->
  nodes (world s) !! sidecar (this s) = Some (File (Doc data)) ->
  (exists fields, data = JObj fields /\ Obj.field "images" fields = Some v) ->
  Obj.truthy (Some v) = true ->
  loadFromJson s =
  (Return true,
   {| this := set_images (load_entries (Obj.entries v) []) (this s);
      world := world s |}).
Proof.
  intros Hq Hp (fields & -> & Hf) Ht. unfold loadFromJson, getJsonPath, sidecar in *.
  unfold bind at 1. unfold self at 1. unfold bind at 1. unfold bind at 1.
  unfold self at 1. unfold ret at 1.
  unfold bind at 1. unfold try_catch.
  rewrite (bind_return _ _ _ _ _ (host_return _ _ _ _ (exists_quiet _ _ Hq))).
  assert (present (world s) (jsonPathOf (mdPath (this s)) (imageFolderPath (this s))) = true)
    as ->.
  { unfold present. rewrite Hp. apply bool_decide_eq_true. eauto. }
  assert (Hq' : faults (world (at_world s (world s))) = []) by exact Hq.
  rewrite (bind_return _ _ _ _ _ (host_return _ _ _ _ (read_quiet _ _ _ Hq' Hp))).
  unfold Sidecar.parse, Sidecar.images_of, update_images, update_this, bind, ret, when.
  simpl. rewrite Hf, Ht. reflexivity.
Qed.

(** C3.  Let a manager save its map successfully, and let a
    fresh manager be built for the same document path and settings on the
    vault as saved.  When the fresh manager resolves its asset folder to
    the folder of the saving manager and the host does not fail while
    loading, [loadFromJson] on the fresh manager reports whether the
    saved map had records and leaves a map with the same keys and equal
    records. *)
Theorem C3_round_trip (s s' : St) (wc w1 : World) (fresh : DocumentImageManager)
    (r : outcome bool) (s2 : St) :
  JsMap.wf (images (this s)) ->
  saveToJson s = (Return true, s') ->
  nodes wc = nodes (world s') ->
  faults wc = [] ->
  new_manager (settings (this s)) (mdPath (this s)) wc = (Return fresh, w1) ->
  imageFolderPath fresh = imageFolderPath (this s) ->
  loadFromJson {| this := fresh; world := w1 |} = (r, s2) ->
  r = Return (nonempty (this s)) /\
  same_records (images (this s2)) (images (this s)).
Proof.
  intros Hwf Hsave Hnodes Hquiet Hnew Hfolder Hload.
  apply new_manager_inv in Hnew as ((folder & Hr) & Hn1 & Hf1).
  inversion Hr; subst fresh; clear Hr. simpl in Hfolder. subst folder.
  set (s1 := {| this := _; world := w1 |}) in Hload.
  assert (Hq1 : faults (world s1) = []) by (simpl; congruence).
  assert (Hside : sidecar (this s1) = sidecar (this s)) by reflexivity.
  destruct (nonempty (this s)) eqn:Hne.
  - (* the sidecar holds the rendered map *)
    pose proof (saveToJson_written s s' Hsave Hne) as Hdoc.
    assert (Hdoc1 : nodes (world s1) !! sidecar (this s1) =
                    Some (File (Doc (Sidecar.data (mdPath (this s)) (images (this s)))))).
    { simpl. rewrite Hn1, Hnodes. exact Hdoc. }
    rewrite (loadFromJson_present s1 _
               (JObj (Obj.fromEntries
                        (map (fun e => (fst e, Sidecar.of_info (snd e)))
                           (images (this s)))))
               Hq1 Hdoc1) in Hload.
    + inversion Hload; subst. split; [reflexivity |].
      intros k. simpl. now apply load_saved_images.
    + unfold Sidecar.data. eexists. split; [reflexivity |]. reflexivity.
    + reflexivity.
  - (* nothing was written, nothing is loaded *)
    assert (Hp1 : present (world s1) (sidecar (this s1)) = false).
    { destruct (saveToJson_empty s s' Hsave Hne) as (Hjson & _ & _).
      unfold present in *. simpl. rewrite Hn1, Hnodes. exact Hjson. }
    rewrite (loadFromJson_absent s1 Hq1 Hp1) in Hload.
    inversion Hload; subst. split; [reflexivity |].
    intros k. simpl. unfold nonempty in Hne. apply negb_false_iff in Hne.
    apply Nat.eqb_eq in Hne. unfold JsMap.size in Hne.
    destruct (images (this s)); [reflexivity | discriminate].
Qed.

Lemma C3_round_trip_witness :
  let s := snd (addImage "temp/img.png"
                  (fresh_state local_settings "notes/a.md" sample_world)) in
  let s' := snd (saveToJson s) in
  let built := new_manager local_settings "notes/a.md" (world s') in
  let fresh := this (fresh_state local_settings "notes/a.md" (world s')) in
  let loaded := loadFromJson {| this := fresh; world := snd built |} in
  fst loaded = Return true /\
  same_records (images (this (snd loaded))) (images (this s)).
Proof.
  intros s s' built fresh loaded.
  assert (H : fst loaded = Return (nonempty (this s)) /\
              same_records (images (this (snd loaded))) (images (this s))).
  { eapply (C3_round_trip s s' (world s') (snd built) fresh (fst loaded) (snd loaded)).
    - vm_compute. repeat constructor. intros H. inversion H.
    - vm_compute. reflexivity.
    - reflexivity.
    - vm_compute. reflexivity.
    - vm_compute. reflexivity.
    - vm_compute. reflexivity.
    - vm_compute. reflexivity. }
  exact H.
Defined.

(** C3, without the premise on the folder: with a folder template that uses the random
    token, the manager that saved and the fresh manager for the same
    document and settings resolve to different folders, and the fresh
    manager loads nothing. *)
Lemma C3_counterexample :
  let w0 := with_stamps two_stamps sample_world in
  let s := snd (addImage "temp/img.png" (fresh_state random_settings "notes/a.md" w0)) in
  let s' := snd (saveToJson s) in
  let fresh := fresh_state random_settings "notes/a.md" (world s') in
  let loaded := loadFromJson fresh in
  fst (saveToJson s) = Return true /\
  JsMap.keys (images (this s)) = ["notes/img_k3x9q2ab/img.png"] /\
  imageFolderPath (this s) = "notes/img_k3x9q2ab" /\
  imageFolderPath (this fresh) = "notes/img_z7m1c0de" /\
  fst loaded = Return false /\
  images (this (snd loaded)) = [] /\
  ~ same_records (images (this (snd loaded))) (images (this s)).
Proof.
  intros w0 s s' fresh loaded.
  repeat split; try (vm_compute; reflexivity).
  intros H. specialize (H "notes/img_k3x9q2ab/img.png").
  vm_compute in H. discriminate.
Qed.

(** A host failure while the sidecar is read has the same effect: here
    the folder is the same, [exists] goes through and [read] fails; the
    fresh manager reports false and is left without records. *)
Example read_failure_loads_nothing :
  let s := snd (addImage "temp/img.png"
                  (fresh_state local_settings "notes/a.md" sample_world)) in
  let saved := saveToJson s in
  let fresh := fresh_state local_settings "notes/a.md"
                 (set_faults [false; true] (world (snd saved))) in
  let loaded := loadFromJson fresh in
  fst saved = Return true /\
  imageFolderPath (this fresh) = imageFolderPath (this s) /\
  JsMap.keys (images (this s)) = ["notes/_assets.a/img.png"] /\
  fst loaded = Return false /\
  images (this (snd loaded)) = [].
Proof. vm_compute. repeat split; reflexivity. Qed.

(* ===================================================================== *)
(** * Termination and frame rules                                        *)
(* ===================================================================== *)

Create HintDb js discriminated.

Section ending_rules.
Context {S : Type}.

Lemma halts_ret {A} (a : A) : halts (@ret S A a).
Proof. intros s r s' [= <- _]. discriminate. Qed.

Lemma halts_throw {A} : halts (@throw S A).
Proof. intros s r s' [= <- _]. discriminate. Qed.

Lemma halts_bind {A B} (c : M S A) (k : A -> M S B) :
  halts c -> (forall a, halts (k a)) -> halts (bind c k).
Proof.
  intros Hc Hk s r s' H.
  apply bind_inv in H as [(a & s1 & _ & H) | [[H ->] | [H ->]]].
  - eapply Hk, H.
  - discriminate.
  - exfalso. eapply Hc; [exact H | reflexivity].
Qed.

Lemma halts_try {A} (c h : M S A) : halts c -> halts h -> halts (try_catch c h).
Proof.
  intros Hc Hh s r s' H.
  apply try_catch_inv in H as [(s1 & _ & H) | [H _]]; [eapply Hh | eapply Hc]; eauto.
Qed.

Lemma halts_when b (c : M S unit) : halts c -> halts (when b c).
Proof. intros Hc. destruct b; [exact Hc | apply halts_ret]. Qed.

Lemma halts_modify (f : S -> S) : halts (modify f).
Proof. intros s r s' [= <- _]. discriminate. Qed.

Lemma returns_ret {A} (a : A) : returns (@ret S A a).
Proof. intros s r s' [= <- _]. eauto. Qed.

Lemma returns_halts {A} (c : M S A) : returns c -> halts c.
Proof. intros Hc s r s' H. destruct (Hc _ _ _ H) as [a ->]. discriminate. Qed.

Lemma returns_bind {A B} (c : M S A) (k : A -> M S B) :
  returns c -> (forall a, returns (k a)) -> returns (bind c k).
Proof.
  intros Hc Hk s r s' H.
  apply bind_inv in H as [(a & s1 & _ & H) | [[H ->] | [H ->]]].
  - eapply Hk, H.
  - destruct (Hc _ _ _ H) as [a Ha]. discriminate.
  - destruct (Hc _ _ _ H) as [a Ha]. discriminate.
Qed.

(** A [try] whose handler returns, returns. *)
Lemma returns_try {A} (c h : M S A) : halts c -> returns h -> returns (try_catch c h).
Proof.
  intros Hc Hh s r s' H.
  apply try_catch_inv in H as [(s1 & _ & H) | [H Hr]]; [eapply Hh; eauto |].
  destruct r as [a| |]; [eauto | congruence |].
  exfalso. eapply Hc; [exact H | reflexivity].
Qed.

Lemma returns_when b (c : M S unit) : returns c -> returns (when b c).
Proof. intros Hc. destruct b; [exact Hc | apply returns_ret]. Qed.

End ending_rules.

Section host_ending.
Import Adapter.

Lemma halts_io : halts io.
Proof. intros w r w' H. apply io_inv in H as (f & _ & [-> | ->]); discriminate. Qed.

Lemma halts_peek : halts peek.
Proof. intros w r w' [= <- _]. discriminate. Qed.

Lemma halts_call {A} (k : gmap string node -> M World A) :
  (forall ns, halts (k ns)) -> halts (io ;;; ns <- peek ;; k ns).
Proof.
  intros Hk. apply halts_bind; [apply halts_io | intros _].
  apply halts_bind; [apply halts_peek | exact Hk].
Qed.

Lemma halts_exists p : halts (exists_ p).
Proof. apply halts_call. intros ns. apply halts_ret. Qed.

Lemma halts_read p : halts (read p).
Proof.
  apply halts_call. intros ns.
  destruct (ns !! p) as [[c|]|]; auto using halts_ret, halts_throw.
Qed.

Lemma halts_write p c : halts (write p c).
Proof.
  apply halts_call. intros ns.
  destruct (ns !! p) as [[c'|]|]; auto using halts_modify, halts_throw.
Qed.

Lemma halts_mkdir p : halts (mkdir p).
Proof.
  apply halts_call. intros ns.
  destruct (ns !! p) as [[c'|]|];
    auto using halts_modify, halts_throw, halts_ret.
Qed.

Lemma halts_remove p : halts (remove p).
Proof.
  apply halts_call. intros ns.
  destruct (ns !! p) as [[c'|]|]; auto using halts_modify, halts_throw.
Qed.

Lemma halts_rmdir p : halts (rmdir p).
Proof.
  apply halts_call. intros ns.
  destruct (ns !! p) as [[c'|]|]; auto using halts_modify, halts_throw.
Qed.

Lemma halts_list_files p : halts (list_files p).
Proof.
  apply halts_call. intros ns.
  destruct (ns !! p) as [[c'|]|]; auto using halts_ret, halts_throw.
Qed.

Lemma halts_stat p : halts (stat p).
Proof.
  apply halts_call. intros ns.
  destruct (ns !! p) as [[c'|]|]; auto using halts_ret.
Qed.

Lemma halts_Date_now : halts Date_now.
Proof. intros w r w'. unfold Date_now. destruct (clock w); intros [= <- _]; discriminate. Qed.

Lemma returns_Date_now : returns Date_now.
Proof. intros w r w'. unfold Date_now. destruct (clock w); intros [= <- _]; eauto. Qed.

Lemma halts_upload p : halts (upload p).
Proof.
  intros w r w'. unfold upload.
  destruct (replies w) as [|[t|] rest]; intros [= <- _]; discriminate.
Qed.

Lemma halts_fetch u : halts (fetch u).
Proof.
  intros w r w'. unfold fetch.
  destruct (responses w) as [|[t|] rest]; intros [= <- _]; discriminate.
Qed.

Lemma returns_resolveFolder cfg p : returns (resolveFolder cfg p).
Proof. intros w r w' H. now apply resolveFolder_inv in H as [H _]. Qed.

Lemma halts_host {A} (c : M World A) : halts c -> halts (host c).
Proof. intros Hc s r s' H. apply host_inv in H as (w' & H & _). eapply Hc, H. Qed.

Lemma returns_host {A} (c : M World A) : returns c -> returns (host c).
Proof. intros Hc s r s' H. apply host_inv in H as (w' & H & _). eapply Hc, H. Qed.

Lemma returns_self : returns self.
Proof. intros s r s' [= <- _]. eauto. Qed.

Lemma returns_update_this f : returns (update_this f).
Proof. intros s r s' [= <- _]. eauto. Qed.

Lemma returns_getJsonPath p : returns (getJsonPath p).
Proof. intros s r s' H. apply getJsonPath_inv in H as [-> _]. eauto. Qed.

End host_ending.

Section frame_rules.

Lemma keeps_ret {A} (a : A) : keeps_this (ret a).
Proof. intros s r s' [= _ <-]. reflexivity. Qed.

Lemma keeps_throw {A} : keeps_this (@throw St A).
Proof. intros s r s' [= _ <-]. reflexivity. Qed.

Lemma keeps_self : keeps_this self.
Proof. intros s r s' [= _ <-]. reflexivity. Qed.

Lemma keeps_host {A} (c : M World A) : keeps_this (host c).
Proof. intros s r s' H. apply host_inv in H as (w' & _ & ->). reflexivity. Qed.

Lemma keeps_getJsonPath p : keeps_this (getJsonPath p).
Proof. intros s r s' H. apply getJsonPath_inv in H as [_ ->]. reflexivity. Qed.

Lemma keeps_bind {A B} (c : M St A) (k : A -> M St B) :
  keeps_this c -> (forall a, keeps_this (k a)) -> keeps_this (bind c k).
Proof.
  intros Hc Hk s r s' H.
  apply bind_inv in H as [(a & s1 & H1 & H) | [[H _] | [H _]]].
  - rewrite (Hk _ _ _ _ H). eapply Hc, H1.
  - eapply Hc, H.
  - eapply Hc, H.
Qed.

Lemma keeps_try {A} (c h : M St A) :
  keeps_this c -> keeps_this h -> keeps_this (try_catch c h).
Proof.
  intros Hc Hh s r s' H.
  apply try_catch_inv in H as [(s1 & H1 & H) | [H _]].
  - rewrite (Hh _ _ _ H). eapply Hc, H1.
  - eapply Hc, H.
Qed.

Lemma keeps_when b (c : M St unit) : keeps_this c -> keeps_this (when b c).
Proof. intros Hc. destruct b; [exact Hc | apply keeps_ret]. Qed.

End frame_rules.

#[export] Hint Resolve halts_ret halts_throw halts_when halts_modify
  halts_exists halts_read halts_write halts_mkdir halts_remove halts_rmdir
  halts_list_files halts_stat halts_Date_now halts_upload halts_fetch
  halts_host returns_ret returns_when returns_host returns_self
  returns_update_this returns_getJsonPath returns_Date_now
  returns_resolveFolder returns_halts
  keeps_ret keeps_throw keeps_self keeps_host keeps_getJsonPath keeps_when : js.

(** Walk through a method body, rule by rule. *)
Ltac ending :=
  repeat first
    [ progress (eauto 5 with js)
    | apply halts_bind; [| intros ?]
    | apply halts_try
    | apply returns_bind; [| intros ?]
    | apply returns_try
    | apply keeps_bind; [| intros ?]
    | apply keeps_try
    | match goal with
      | |- _ (if ?b then _ else _) => destruct b
      | |- _ (match ?x with _ => _ end) => destruct x
      end ].

Lemma halts_saveToJson : halts saveToJson.
Proof.
  unfold saveToJson, Adapter.readBinary, Adapter.writeBinary. ending.
  all: unfold getJsonPath; ending.
Qed.

Lemma returns_saveToJson : returns saveToJson.
Proof.
  unfold saveToJson. apply returns_try; [| apply returns_ret].
  ending. all: unfold getJsonPath; ending.
Qed.

Lemma keeps_saveToJson : keeps_this saveToJson.
Proof. unfold saveToJson. ending. Qed.

#[export] Hint Resolve halts_saveToJson returns_saveToJson keeps_saveToJson : js.

(* ===================================================================== *)
(** * removeImage                                                        *)
(* ===================================================================== *)

Lemma bind_assoc {S A B C} (c : M S A) (f : A -> M S B) (k : B -> M S C) s :
  bind (bind c f) k s = bind c (fun x => bind (f x) k) s.
Proof. unfold bind. now destruct (c s) as [[a| |] s1]. Qed.

Lemma halts_deleteLocalFile p : halts (deleteLocalFile p).
Proof. unfold deleteLocalFile. ending. Qed.

Lemma keeps_deleteLocalFile p : keeps_this (deleteLocalFile p).
Proof. unfold deleteLocalFile. ending. Qed.

Lemma has_false_get {V} k (m : JsMap.t V) : JsMap.has k m = false -> JsMap.get k m = None.
Proof. unfold JsMap.has. now destruct (JsMap.get k m). Qed.

Lemma has_true_get {V} k (m : JsMap.t V) :
  JsMap.has k m = true -> exists v, JsMap.get k m = Some v.
Proof. unfold JsMap.has. destruct (JsMap.get k m); [eauto | discriminate]. Qed.

(** C4.  [removeImage] on a path that is no key returns
    false and changes nothing.  On a key, the outcome follows the step
    that deletes the underlying file: when that step goes through, the
    entry is removed from the map and the call returns true; when it
    throws, the call returns false and the manager, with the entry still
    in its map, is left as it was. *)
Theorem C4_removeImage (p : string) (s s' : St) (r : outcome bool) :
  removeImage p s = (r, s') ->
  (JsMap.has p (images (this s)) = false -> r = Return false /\ s' = s) /\
  (JsMap.has p (images (this s)) = true ->
   exists r1 s1,
     deleteLocalFile p s = (r1, s1) /\
     ((r1 = Return tt /\ r = Return true /\
       this s' = set_images (JsMap.delete p (images (this s))) (this s)) \/
      (r1 = Throw /\ r = Return false /\ s' = s1 /\ this s' = this s))).
Proof.
  intros H. split; intros Hhas.
  - unfold removeImage, try_catch, bind, self in H. rewrite Hhas in H.
    simpl in H. now inversion H.
  - destruct (has_true_get _ _ Hhas) as [info Hget].
    unfold removeImage in H.
    destruct (deleteLocalFile p s) as [r1 s1] eqn:Hdel.
    exists r1, s1. split; [reflexivity |].
    pose proof (keeps_deleteLocalFile p _ _ _ Hdel) as Hthis.
    unfold deleteLocalFile in Hdel.
    unfold try_catch in H. unfold bind at 1 in H. unfold self at 1 in H.
    rewrite Hhas, Hget in H. cbn [negb] in H.
    rewrite <- (bind_assoc (host (Adapter.exists_ p))
                  (fun present => when present (host (Adapter.remove p)))
                  (fun _ => update_images (JsMap.delete p) ;;; saveToJson ;;; ret true) s)
      in H.
    unfold bind at 1 in H. unfold deleteLocalFile in H. rewrite Hdel in H.
    destruct r1 as [[]| |].
    + left. split; [reflexivity |].
      unfold bind at 1 in H. unfold update_images, update_this in H.
      unfold bind in H.
      match type of H with
      | context [saveToJson ?st] => destruct (saveToJson st) as [rs ss] eqn:Hsave
      end.
      pose proof (keeps_saveToJson _ _ _ Hsave) as Hk.
      destruct (returns_saveToJson _ _ _ Hsave) as [b ->].
      unfold ret in H. inversion H; subst. split; [reflexivity |].
      rewrite Hk. simpl. now rewrite Hthis.
    + right. unfold ret in H. inversion H; subst. auto.
    + exfalso. eapply (halts_deleteLocalFile p); [| reflexivity].
      unfold deleteLocalFile. exact Hdel.
Qed.

Lemma C4_removeImage_witness :
  let s := {| this := one_image; world := one_image_world [] |} in
  let run := removeImage "notes/_assets.a/img.png" s in
  (JsMap.has "notes/_assets.a/img.png" (images (this s)) = false ->
   fst run = Return false /\ snd run = s) /\
  (JsMap.has "notes/_assets.a/img.png" (images (this s)) = true ->
   exists r1 s1,
     deleteLocalFile "notes/_assets.a/img.png" s = (r1, s1) /\
     ((r1 = Return tt /\ fst run = Return true /\
       this (snd run) = set_images (JsMap.delete "notes/_assets.a/img.png" (images (this s))) (this s)) \/
      (r1 = Throw /\ fst run = Return false /\ snd run = s1 /\ this (snd run) = this s))).
Proof.
  intros s run.
  apply (C4_removeImage "notes/_assets.a/img.png" s (snd run) (fst run)).
  vm_compute. reflexivity.
Defined.

(** C4, when the deletion fails: when deleting the file fails, the entry is not
    removed from the map.  Here the first adapter call ([exists]) goes
    through and the second ([remove]) fails. *)
Lemma C4_counterexample :
  let s := {| this := one_image; world := one_image_world [false; true] |} in
  let run := removeImage "notes/_assets.a/img.png" s in
  JsMap.has "notes/_assets.a/img.png" (images (this s)) = true /\
  fst (deleteLocalFile "notes/_assets.a/img.png" s) = Throw /\
  fst run = Return false /\
  JsMap.has "notes/_assets.a/img.png" (images (this (snd run))) = true /\
  images (this (snd run)) = images (this s).
Proof. vm_compute. repeat split; reflexivity. Qed.

(* ===================================================================== *)
(** * getMarkdownReference                                               *)
(* ===================================================================== *)

Lemma getMarkdownReference_unknown m p :
  JsMap.has p (images m) = false -> getMarkdownReference m p = "".
Proof. intros H. unfold getMarkdownReference. now rewrite H. Qed.

(** The shape of the reference for a known path. *)
Lemma getMarkdownReference_known m p info :
  JsMap.get p (images m) = Some info ->
  getMarkdownReference m p =
  embed (reference_label p)
    (if isUploaded info && negb (String.eqb (remotePath info) "")
     then remotePath info
     else getRelativePath (mdPath m) p).
Proof.
  intros H. unfold getMarkdownReference, JsMap.has. rewrite H. simpl.
  destruct (isUploaded info && negb (String.eqb (remotePath info) "")); reflexivity.
Qed.

(** For a name with a dot the label is the name without extension. *)
Lemma reference_label_with_dot p :
  JS.lastIndexOf "." (Path.basename p) <> -1 ->
  reference_label p = name_without_extension (Path.basename p).
Proof.
  intros H. unfold reference_label, name_without_extension.
  destruct (Z.eqb_spec (JS.lastIndexOf "." (Path.basename p)) (-1)); [contradiction |].
  reflexivity.
Qed.

(** The scenario of the specification: the record of [y.png], uploaded
    to [https://x/y.png]. *)
Example reference_of_uploaded_record :
  getMarkdownReference
    {| settings := DEFAULT_SETTINGS; mdPath := "notes/a.md";
       images := [("notes/_assets.a/y.png",
                   uploaded_record "notes/_assets.a/y.png" "https://x/y.png")];
       imageFolderPath := "notes/_assets.a" |}
    "notes/_assets.a/y.png"
  = "![y](https://x/y.png)".
Proof. vm_compute. reflexivity. Qed.

(** C9.  For a local record the target
    must be a document-relative form of the local path, and the label the
    base name without extension.  [getRelativePath] removes the first
    occurrence of the document's folder from the path; for a document at
    the root of the vault that folder is ["."], so the first dot of the
    path is removed.  And a base name without a dot gets an empty label. *)
Theorem C9_reference_of_root_document :
  JsMap.keys (images root_manager) = ["_assets.a/img.png"] /\
  getMarkdownReference root_manager "_assets.a/img.png" = "![img](_assetsa/img.png)" /\
  ~ relative_form (mdPath root_manager) "_assets.a/img.png" "_assetsa/img.png" /\
  relative_form (mdPath root_manager) "_assets.a/img.png" "_assets.a/img.png" /\
  getMarkdownReference
    {| settings := DEFAULT_SETTINGS; mdPath := "notes/a.md";
       images := [("notes/_assets.a/README",
                   uploaded_record "notes/_assets.a/README" "https://x/README")];
       imageFolderPath := "notes/_assets.a" |}
    "notes/_assets.a/README" = "![](https://x/README)" /\
  name_without_extension (Path.basename "notes/_assets.a/README") = "README".
Proof.
  repeat split; try (vm_compute; reflexivity).
  unfold relative_form. vm_compute. discriminate.
Qed.

(* ===================================================================== *)
(** * renameImageFolder and renameManager                                *)
(* ===================================================================== *)

Section ensures_rules.
Context {S : Type}.

Lemma ensures_ret {A} (Q : outcome A -> S -> Prop) (a : A) :
  (forall s, Q (Return a) s) -> ensures Q (ret a).
Proof. intros HQ s r s' [= <- <-]. apply HQ. Qed.

(** A property that only speaks of returned values passes through the
    first part of a sequence. *)
Lemma ensures_bind {A B} (Q : outcome B -> S -> Prop) (c : M S A) (k : A -> M S B) :
  (forall s, Q Throw s) -> (forall s, Q Hang s) ->
  (forall a, ensures Q (k a)) -> ensures Q (bind c k).
Proof.
  intros Ht Hh Hk s r s' H.
  apply bind_inv in H as [(a & s1 & _ & H) | [[_ ->] | [_ ->]]]; eauto.
  eapply Hk, H.
Qed.

Lemma ensures_try {A} (Q : outcome A -> S -> Prop) (c h : M S A) :
  ensures (fun r s => r <> Throw -> Q r s) c -> ensures Q h ->
  ensures Q (try_catch c h).
Proof.
  intros Hc Hh s r s' H.
  apply try_catch_inv in H as [(s1 & _ & H) | [H Hr]].
  - eapply Hh, H.
  - eapply Hc; eauto.
Qed.

End ensures_rules.

(** The moves of [renameImageFolder], once started, never end in a
    returned [false]: that only comes from the handler. *)
Lemma rename_moves_never_false oldImageFolder :
  ensures (fun r _ => r <> Throw -> r <> Return false)
    (files <- host (Adapter.list_files oldImageFolder) ;;
     moveFiles files oldImageFolder ;;;
     saveToJson ;;;
     host (Adapter.rmdir oldImageFolder) ;;;
     ret true).
Proof.
  repeat (apply ensures_bind; [intros; congruence | intros; discriminate | intros ?]).
  apply ensures_ret. intros; discriminate.
Qed.

(** When [renameImageFolder] returns false, the document path and the
    folder path of the manager are what they were before the call. *)
Lemma renameImageFolder_rollback newMdPath s s' :
  renameImageFolder newMdPath s = (Return false, s') ->
  mdPath (this s') = mdPath (this s) /\
  imageFolderPath (this s') = imageFolderPath (this s).
Proof.
  revert s'.
  enough (H : ensures (fun r s' => r = Return false ->
                         mdPath (this s') = mdPath (this s) /\
                         imageFolderPath (this s') = imageFolderPath (this s))
                (fun s0 => renameImageFolder newMdPath
                             {| this := this s; world := world s0 |})).
  { intros s' Hr. destruct s as [m w]. eapply (H {| this := m; world := w |}); eauto. }
  intros s0 r s'. unfold renameImageFolder.
  unfold bind at 1. unfold self at 1. cbn [this world].
  destruct (JsMap.size (images (this s)) =? 0)%nat.
  { intros [= <- _]. discriminate. }
  revert r s'. generalize ({| this := this s; world := world s0 |}).
  change (ensures (fun r s' => r = Return false ->
                     mdPath (this s') = mdPath (this s) /\
                     imageFolderPath (this s') = imageFolderPath (this s))
            (oldJsonPath <- getJsonPath (imageFolderPath (this s)) ;;
             update_this (set_mdPath newMdPath) ;;;
             folder <- getImageFolderPath ;;
             update_this (set_imageFolderPath folder) ;;;
             newJsonPath <- getJsonPath folder ;;
             hasOld <- host (Adapter.exists_ (imageFolderPath (this s))) ;;
             if negb hasOld then ret true
             else
               hasNew <- host (Adapter.exists_ folder) ;;
               when (negb hasNew) (host (Adapter.mkdir folder)) ;;;
               if String.eqb (imageFolderPath (this s)) folder then
                 hasJson <- host (Adapter.exists_ oldJsonPath) ;;
                 when hasJson
                   (content <- host (Adapter.read oldJsonPath) ;;
                    host (Adapter.write newJsonPath content) ;;;
                    host (Adapter.remove oldJsonPath)) ;;;
                 ret true
               else
                 try_catch
                   (files <- host (Adapter.list_files (imageFolderPath (this s))) ;;
                    moveFiles files (imageFolderPath (this s)) ;;;
                    saveToJson ;;;
                    host (Adapter.rmdir (imageFolderPath (this s))) ;;;
                    ret true)
                   (update_this (set_mdPath (mdPath (this s))) ;;;
                    update_this (set_imageFolderPath (imageFolderPath (this s))) ;;;
                    ret false))).
  repeat (apply ensures_bind; [intros; discriminate | intros; discriminate | intros ?]).
  destruct (negb a4); [apply ensures_ret; intros; discriminate |].
  repeat (apply ensures_bind; [intros; discriminate | intros; discriminate | intros ?]).
  destruct (String.eqb (imageFolderPath (this s)) a1).
  - repeat (apply ensures_bind; [intros; discriminate | intros; discriminate | intros ?]).
    apply ensures_ret; intros; discriminate.
  - apply ensures_try.
    + intros s1 r s' H Hr ->.
      destruct (rename_moves_never_false _ _ _ _ H Hr eq_refl).
    + intros s1 r s' H _. unfold bind, update_this, ret in H.
      inversion H; subst. simpl. auto.
Qed.

(** Calling a method through a reference of the store. *)
Lemma invoke_inv {A} ref (method : M St A) fs r fs' m :
  store (factory fs) !! ref = Some m ->
  invoke ref method fs = (r, fs') ->
  exists s0,
    method {| this := m; world := fworld fs |} = (r, s0) /\
    fs' = {| factory := {| plugin_settings := plugin_settings (factory fs);
                           managers := managers (factory fs);
                           store := <[ref := this s0]> (store (factory fs)) |};
             fworld := world s0 |}.
Proof.
  intros Hm. unfold invoke. rewrite Hm.
  destruct (method _) as [r0 s0] eqn:Hrun. intros [= <- <-]. eauto.
Qed.

(** C8.  [renameManager] returns false and changes nothing when no
    manager is cached under [oldPath].  Otherwise it ends the way the
    manager's [renameImageFolder newPath] ends; the cache is re-keyed
    (the reference is set under [newPath] and the key [oldPath] deleted)
    exactly when that result is true; and when the result is false the
    cache is as before, still holding under [oldPath] the manager, whose
    document path and folder path are the ones it had before the call. *)
Theorem C8_renameManager (oldPath newPath : string) (fs fs' : FSt) (r : outcome bool) :
  renameManager oldPath newPath fs = (r, fs') ->
  (managers (factory fs) !! oldPath = None -> r = Return false /\ fs' = fs) /\
  (forall ref m,
      managers (factory fs) !! oldPath = Some ref ->
      store (factory fs) !! ref = Some m ->
      exists s0,
        renameImageFolder newPath {| this := m; world := fworld fs |} = (r, s0) /\
        store (factory fs') = <[ref := this s0]> (store (factory fs)) /\
        fworld fs' = world s0 /\
        (r = Return true ->
         managers (factory fs') = rekeyed oldPath newPath ref (managers (factory fs))) /\
        (r <> Return true -> managers (factory fs') = managers (factory fs)) /\
        (r = Return false ->
         managers (factory fs') !! oldPath = Some ref /\
         mdPath (this s0) = mdPath m /\
         imageFolderPath (this s0) = imageFolderPath m)).
Proof.
  intros H. unfold renameManager in H.
  unfold bind at 1 in H. unfold the_factory at 1 in H.
  split.
  - intros Hnone. rewrite Hnone in H. now inversion H.
  - intros ref m Href Hm. rewrite Href in H.
    destruct (invoke ref (renameImageFolder newPath) fs) as [r0 fs1] eqn:Hinv.
    destruct (invoke_inv _ _ _ _ _ _ Hm Hinv) as (s0 & Hrun & ->).
    unfold bind at 1 in H. rewrite Hinv in H.
    destruct r0 as [[|]| |].
    + (* the folder was renamed: set under the new key, delete the old *)
      unfold when, bind, update_managers, ret in H. simpl in H.
      inversion H; subst. exists s0. simpl.
      repeat split; try reflexivity; try assumption; try congruence.
    + (* the rename failed: the cache is left alone *)
      unfold when, bind, update_managers, ret in H. simpl in H.
      inversion H; subst. exists s0. simpl.
      repeat split; try reflexivity; try assumption; try congruence.
      * apply (renameImageFolder_rollback _ _ _ Hrun).
      * apply (renameImageFolder_rollback _ _ _ Hrun).
    + inversion H; subst. exists s0. simpl.
      repeat split; try reflexivity; try assumption; try congruence.
    + inversion H; subst. exists s0. simpl.
      repeat split; try reflexivity; try assumption; try congruence.
Qed.

(** What a lookup finds in a re-keyed cache. *)
Lemma rekeyed_lookup oldPath newPath ref (cache : gmap string nat) k :
  rekeyed oldPath newPath ref cache !! k =
  if decide (oldPath = k) then None
  else if decide (newPath = k) then Some ref
  else cache !! k.
Proof.
  unfold rekeyed. rewrite lookup_delete. destruct (decide (oldPath = k)); [reflexivity |].
  apply lookup_insert.
Qed.

Lemma C8_renameManager_witness :
  let fs := {| factory := one_manager_factory "notes/a.md" one_image;
               fworld := one_image_world [false; false; false; true] |} in
  let run := renameManager "notes/a.md" "notes/b.md" fs in
  fst run = Return false /\
  ((managers (factory fs) !! "notes/a.md" = None -> fst run = Return false /\ snd run = fs) /\
   (forall ref m,
      managers (factory fs) !! "notes/a.md" = Some ref ->
      store (factory fs) !! ref = Some m ->
      exists s0,
        renameImageFolder "notes/b.md" {| this := m; world := fworld fs |} = (fst run, s0) /\
        store (factory (snd run)) = <[ref := this s0]> (store (factory fs)) /\
        fworld (snd run) = world s0 /\
        (fst run = Return true ->
         managers (factory (snd run)) =
         rekeyed "notes/a.md" "notes/b.md" ref (managers (factory fs))) /\
        (fst run <> Return true -> managers (factory (snd run)) = managers (factory fs)) /\
        (fst run = Return false ->
         managers (factory (snd run)) !! "notes/a.md" = Some ref /\
         mdPath (this s0) = mdPath m /\
         imageFolderPath (this s0) = imageFolderPath m))).
Proof.
  intros fs run. split; [vm_compute; reflexivity |].
  apply (C8_renameManager "notes/a.md" "notes/b.md" fs (snd run) (fst run)).
  vm_compute. reflexivity.
Defined.

(** C10.  On a manager without records [renameImageFolder] returns true
    and changes nothing: neither the manager (its document path and its
    folder path stay those of the old document) nor the host.  So
    [renameManager] on such a manager returns true and re-keys the cache
    while the manager object keeps the document path it had; when that
    was [oldPath] and [newPath] differs, the manager found under
    [newPath] still says [oldPath]. *)
Theorem C10_rename_of_empty_manager :
  (forall newMdPath s,
      images (this s) = [] -> renameImageFolder newMdPath s = (Return true, s)) /\
  (forall oldPath newPath fs ref m,
      managers (factory fs) !! oldPath = Some ref ->
      store (factory fs) !! ref = Some m ->
      images m = [] ->
      exists fs',
        renameManager oldPath newPath fs = (Return true, fs') /\
        managers (factory fs') = rekeyed oldPath newPath ref (managers (factory fs)) /\
        store (factory fs') = store (factory fs) /\
        fworld fs' = fworld fs /\
        (oldPath <> newPath ->
         managers (factory fs') !! newPath = Some ref /\
         managers (factory fs') !! oldPath = None /\
         store (factory fs') !! ref = Some m /\
         (mdPath m = oldPath -> mdPath m <> newPath))).
Proof.
  assert (Hempty : forall newMdPath s,
             images (this s) = [] -> renameImageFolder newMdPath s = (Return true, s)).
  { intros newMdPath s He. unfold renameImageFolder, bind, self. rewrite He. reflexivity. }
  split; [exact Hempty |].
  intros oldPath newPath fs ref m Href Hm He.
  unfold renameManager, bind, the_factory. rewrite Href.
  unfold invoke. rewrite Hm. rewrite (Hempty newPath {| this := m; world := fworld fs |} He).
  unfold when, bind, update_managers, ret. simpl.
  eexists. split; [reflexivity |]. simpl.
  rewrite (insert_id _ _ _ Hm).
  fold (rekeyed oldPath newPath ref (managers (factory fs))).
  repeat split; try reflexivity.
  - rewrite rekeyed_lookup. destruct (decide (oldPath = newPath)); [contradiction |].
    destruct (decide (newPath = newPath)); [reflexivity | contradiction].
  - rewrite rekeyed_lookup. destruct (decide (oldPath = oldPath)); [reflexivity | contradiction].
  - exact Hm.
  - congruence.
Qed.

Lemma C10_rename_of_empty_manager_witness :
  let fs := {| factory := one_manager_factory "notes/a.md" empty_manager;
               fworld := sample_world |} in
  exists fs',
    renameManager "notes/a.md" "notes/b.md" fs = (Return true, fs') /\
    managers (factory fs') !! "notes/b.md" = Some 0%nat /\
    managers (factory fs') !! "notes/a.md" = None /\
    store (factory fs') !! 0%nat = Some empty_manager /\
    mdPath empty_manager = "notes/a.md".
Proof.
  intros fs.
  destruct C10_rename_of_empty_manager as [_ H].
  destruct (H "notes/a.md" "notes/b.md" fs 0%nat empty_manager)
    as (fs' & Hrun & _ & _ & _ & Hkeys).
  - reflexivity.
  - reflexivity.
  - reflexivity.
  - exists fs'. destruct Hkeys as (Hnew & Hold & Hstore & _).
    + discriminate.
    + repeat split; assumption || reflexivity.
Defined.

(* ===================================================================== *)
(** * Invariants of a run                                                *)
(* ===================================================================== *)

Section preserves_rules.
Context {S : Type}.

Lemma preserves_ret {A} (I : S -> Prop) (a : A) : preserves I (ret a).
Proof. intros s r s' [= _ <-]. auto. Qed.

Lemma preserves_throw {A} (I : S -> Prop) : preserves I (@throw S A).
Proof. intros s r s' [= _ <-]. auto. Qed.

Lemma preserves_hang {A} (I : S -> Prop) : preserves I (@hang S A).
Proof. intros s r s' [= _ <-]. auto. Qed.

Lemma preserves_bind {A B} (I : S -> Prop) (c : M S A) (k : A -> M S B) :
  preserves I c -> (forall a, preserves I (k a)) -> preserves I (bind c k).
Proof.
  intros Hc Hk s r s' H Hi.
  apply bind_inv in H as [(a & s1 & H1 & H) | [[H _] | [H _]]].
  - eapply Hk; [exact H |]. eapply Hc; eauto.
  - eapply Hc; eauto.
  - eapply Hc; eauto.
Qed.

Lemma preserves_try {A} (I : S -> Prop) (c h : M S A) :
  preserves I c -> preserves I h -> preserves I (try_catch c h).
Proof.
  intros Hc Hh s r s' H Hi.
  apply try_catch_inv in H as [(s1 & H1 & H) | [H _]].
  - eapply Hh; [exact H |]. eapply Hc; eauto.
  - eapply Hc; eauto.
Qed.

Lemma preserves_when (I : S -> Prop) b (c : M S unit) :
  preserves I c -> preserves I (when b c).
Proof. intros Hc. destruct b; [exact Hc | apply preserves_ret]. Qed.

End preserves_rules.

Section preserves_manager.

(** A property of the manager object is kept by what keeps the object. *)
Lemma preserves_keeps {A} (P : DocumentImageManager -> Prop) (c : M St A) :
  keeps_this c -> preserves (fun s => P (this s)) c.
Proof. intros Hc s r s' H Hp. now rewrite (Hc _ _ _ H). Qed.

Lemma preserves_update_images (P : DocumentImageManager -> Prop) f :
  (forall m, P m -> P (set_images (f (images m)) m)) ->
  preserves (fun s => P (this s)) (update_images f).
Proof. intros Hf s r s' [= _ <-] Hp. simpl. auto. Qed.

Lemma preserves_update_this (P : DocumentImageManager -> Prop) f :
  (forall m, P m -> P (f m)) ->
  preserves (fun s => P (this s)) (update_this f).
Proof. intros Hf s r s' [= _ <-] Hp. simpl. auto. Qed.

(** A property of the host is kept by what does not touch the host. *)
Lemma preserves_world_self (Q : World -> Prop) :
  preserves (fun s => Q (world s)) self.
Proof. intros s r s' [= _ <-]. auto. Qed.

Lemma preserves_world_update (Q : World -> Prop) f :
  preserves (fun s => Q (world s)) (update_this f).
Proof. intros s r s' [= _ <-]. auto. Qed.

Lemma preserves_world_getJsonPath (Q : World -> Prop) p :
  preserves (fun s => Q (world s)) (getJsonPath p).
Proof. intros s r s' H. apply getJsonPath_inv in H as [_ ->]. auto. Qed.

Lemma preserves_world_host {A} (Q : World -> Prop) (c : M World A) :
  preserves Q c -> preserves (fun s => Q (world s)) (host c).
Proof.
  intros Hc s r s' H Hq. apply host_inv in H as (w' & H & ->). simpl.
  eapply Hc; eauto.
Qed.

End preserves_manager.

(** ** The uploader's log is only written by [upload] *)

Section log_facts.
Import Adapter.
Variable L : list string.

Local Abbreviation logged := (logged_as L).

Lemma log_io : preserves logged io.
Proof. intros w r w' H Hl. apply io_inv in H as (f & -> & _). exact Hl. Qed.

Lemma log_call {A} (k : gmap string node -> M World A) :
  (forall ns, preserves logged (k ns)) ->
  preserves logged (io ;;; ns <- peek ;; k ns).
Proof.
  intros Hk. apply preserves_bind; [apply log_io | intros _].
  apply preserves_bind; [| exact Hk].
  intros w r w' [= _ <-]. auto.
Qed.

Lemma log_modify_nodes f : preserves logged (modify (with_nodes f)).
Proof. intros w r w' [= _ <-] Hl. exact Hl. Qed.

Lemma log_exists p : preserves logged (exists_ p).
Proof. apply log_call. intros ns. apply preserves_ret. Qed.

Lemma log_read p : preserves logged (read p).
Proof.
  apply log_call. intros ns.
  destruct (ns !! p) as [[c|]|]; auto using preserves_ret, preserves_throw.
Qed.

Lemma log_write p c : preserves logged (write p c).
Proof.
  apply log_call. intros ns.
  destruct (ns !! p) as [[c'|]|]; auto using log_modify_nodes, preserves_throw.
Qed.

Lemma log_mkdir p : preserves logged (mkdir p).
Proof.
  apply log_call. intros ns.
  destruct (ns !! p) as [[c'|]|];
    auto using log_modify_nodes, preserves_throw, preserves_ret.
Qed.

Lemma log_remove p : preserves logged (remove p).
Proof.
  apply log_call. intros ns.
  destruct (ns !! p) as [[c'|]|]; auto using log_modify_nodes, preserves_throw.
Qed.

Lemma log_rmdir p : preserves logged (rmdir p).
Proof.
  apply log_call. intros ns.
  destruct (ns !! p) as [[c'|]|]; auto using log_modify_nodes, preserves_throw.
Qed.

Lemma log_Date_now : preserves logged Date_now.
Proof.
  intros w r w'. unfold Date_now. destruct (clock w); intros [= _ <-]; auto.
Qed.

Lemma log_saveToJson : preserves (fun s => logged_as L (world s)) saveToJson.
Proof.
  unfold saveToJson.
  repeat first
    [ apply preserves_ret
    | apply preserves_world_self
    | apply preserves_world_getJsonPath
    | apply preserves_when
    | apply preserves_world_host;
      first [apply log_exists | apply log_remove | apply log_rmdir
            | apply log_mkdir | apply log_write]
    | apply preserves_try
    | apply preserves_bind; [| intros ?]
    | match goal with |- preserves _ (if ?b then _ else _) => destruct b end ].
Qed.

End log_facts.

Lemma handed_saveToJson s r s' :
  saveToJson s = (r, s') -> handed (world s') = handed (world s).
Proof. intros H. now apply (log_saveToJson (handed (world s)) _ _ _ H). Qed.

(* ===================================================================== *)
(** * uploadImage and uploadAllImages                                    *)
(* ===================================================================== *)

Section alter_facts.
Context {V : Type}.
Implicit Types (m : JsMap.t V).

Lemma alter_id k m : JsMap.alter (fun v => v) k m = m.
Proof.
  induction m as [|[k0 v0] m IH]; simpl; [reflexivity |].
  destruct (String.eqb k0 k); [reflexivity | now rewrite IH].
Qed.

Lemma alter_alter f g k m :
  JsMap.alter g k (JsMap.alter f k m) = JsMap.alter (fun v => g (f v)) k m.
Proof.
  induction m as [|[k0 v0] m IH]; simpl; [reflexivity |].
  destruct (String.eqb k0 k) eqn:He; simpl; rewrite He; [reflexivity | now rewrite IH].
Qed.

Lemma length_alter f k m : length (JsMap.alter f k m) = length m.
Proof.
  induction m as [|[k0 v0] m IH]; simpl; [reflexivity |].
  destruct (String.eqb k0 k); simpl; [reflexivity | now rewrite IH].
Qed.

Lemma nth_error_drop {A} (l : list A) i x :
  nth_error l i = Some x -> drop i l = x :: drop (S i) l.
Proof.
  revert i. induction l as [|y l IH]; intros [|i]; simpl; try discriminate.
  - now intros [= ->].
  - apply IH.
Qed.

Lemma nth_error_drop_nil {A} (l : list A) i : nth_error l i = None -> drop i l = [].
Proof.
  revert i. induction l as [|y l IH]; intros [|i]; simpl; try discriminate; auto.
Qed.

(** Altering the value under the key of entry [i] leaves the entries
    after [i] alone. *)
Lemma drop_alter f k v i m :
  JsMap.wf m -> nth_error m i = Some (k, v) ->
  drop (S i) (JsMap.alter f k m) = drop (S i) m.
Proof.
  unfold JsMap.wf. revert i.
  induction m as [|[k0 v0] m IH]; intros i Hwf Hi; [now destruct i |].
  apply NoDup_cons in Hwf as [Hk0 Hwf]. simpl.
  destruct i as [|i]; simpl in Hi.
  - inversion Hi; subst. rewrite String.eqb_refl. reflexivity.
  - destruct (String.eqb_spec k0 k) as [->|Hne].
    + exfalso. apply Hk0. apply list_elem_of_In.
      apply nth_error_In in Hi. exact (in_map fst _ _ Hi).
    + simpl. apply IH; assumption.
Qed.

Lemma get_nth_error k v i m :
  JsMap.wf m -> nth_error m i = Some (k, v) -> JsMap.get k m = Some v.
Proof.
  intros Hwf Hi. apply elem_get; [exact Hwf |].
  apply list_elem_of_In. eapply nth_error_In, Hi.
Qed.

End alter_facts.

Lemma set_images_same m : set_images (images m) m = m.
Proof. now destruct m. Qed.

Lemma returns_uploadImage p : returns (uploadImage p).
Proof.
  unfold uploadImage. apply returns_bind; [apply returns_self | intros m].
  destruct (negb (JsMap.has p (images m))); [apply returns_ret |].
  destruct (JsMap.get p (images m)) as [info|]; [| apply returns_ret].
  destruct (isUploaded info); [apply returns_ret |].
  apply returns_try; [| apply returns_ret].
  unfold update_images. ending. all: unfold update_images; ending.
Qed.

(** [uploadImage p] only touches the record under [p]. *)
Lemma uploadImage_images p s r s' :
  uploadImage p s = (r, s') ->
  exists f, this s' = set_images (JsMap.alter f p (images (this s))) (this s).
Proof.
  intros H.
  set (P := fun m => exists f,
                m = set_images (JsMap.alter f p (images (this s))) (this s)).
  assert (Hp : preserves (fun s0 => P (this s0)) (uploadImage p)).
  { unfold uploadImage.
    repeat first
      [ apply preserves_ret
      | apply preserves_keeps;
        first [apply keeps_self | apply keeps_host | apply keeps_saveToJson]
      | apply preserves_when
      | apply preserves_try
      | apply preserves_bind; [| intros ?]
      | apply preserves_update_images;
        intros m [f ->]; simpl; rewrite alter_alter; eexists; reflexivity
      | match goal with
        | |- preserves _ (if ?b then _ else _) => destruct b
        | |- preserves _ (match ?x with _ => _ end) => destruct x
        end ]. }
  apply (Hp s r s' H). exists (fun v => v).
  now rewrite alter_id, set_images_same.
Qed.

Lemma upload_logs p w r w' : upload p w = (r, w') -> handed w' = (handed w ++ [p])%list.
Proof.
  unfold upload. destruct (replies w) as [|[t|] rest]; intros [= _ <-]; reflexivity.
Qed.

(** The uploader sees [p] exactly when the record under [p] exists and is
    not yet uploaded. *)
Lemma uploadImage_handed p s r s' :
  uploadImage p s = (r, s') ->
  handed (world s') =
  (handed (world s) ++ (if to_upload p (images (this s)) then [p] else []))%list.
Proof.
  unfold uploadImage, to_upload, JsMap.has. unfold bind at 1. unfold self at 1.
  destruct (JsMap.get p (images (this s))) as [info|]; simpl.
  2: { intros [= _ <-]. now rewrite app_nil_r. }
  destruct (isUploaded info); simpl.
  { intros [= _ <-]. now rewrite app_nil_r. }
  intros H.
  assert (Hrest : forall (c : M St bool) s2 r0 s3,
             c s2 = (r0, s3) ->
             preserves (fun s0 => logged_as (handed (world s) ++ [p])%list (world s0)) c ->
             handed (world s2) = (handed (world s) ++ [p])%list ->
             handed (world s3) = (handed (world s) ++ [p])%list).
  { intros c s2 r0 s3 Hc Hp Hl. exact (Hp _ _ _ Hc Hl). }
  assert (Hbody : forall s1 r1,
             (result <- host (upload p) ;;
              (if (0 <? length (JS.split "," result))%nat
               then
                 update_images
                   (JsMap.alter
                      (set_uploaded (default "" (JS.first (JS.split "," result)))) p) ;;;
                 now <- host Date_now ;;
                 update_images (JsMap.alter (set_modifyTime now) p) ;;;
                 saveToJson ;;;
                 cfg <- self ;;
                 (if isDeleteTemp (settings cfg)
                  then present <- host (Adapter.exists_ p) ;;
                       when present (host (Adapter.remove p))
                  else ret tt) ;;;
                 ret true
               else ret false)) s = (r1, s1) ->
             handed (world s1) = (handed (world s) ++ [p])%list).
  { intros s1 r1 Hc.
    apply bind_inv in Hc as [(a & s2 & Hu & Hc) | [[Hu _] | [Hu _]]];
      apply host_inv in Hu as (w' & Hu & ->); apply upload_logs in Hu; [| exact Hu ..].
    eapply Hrest; [exact Hc | | exact Hu].
    unfold update_images.
    repeat first
      [ apply preserves_ret
      | apply preserves_world_self
      | apply preserves_world_update
      | apply log_saveToJson
      | apply preserves_when
      | apply preserves_world_host;
        first [apply log_exists | apply log_remove | apply log_Date_now]
      | apply preserves_bind; [| intros ?]
      | match goal with |- preserves _ (if ?b then _ else _) => destruct b end ]. }
  apply try_catch_inv in H as [(s1 & Hc & Hh) | [Hc _]].
  - apply ret_inv in Hh as [_ ->]. eapply Hbody, Hc.
  - eapply Hbody, Hc.
Qed.

Lemma pending_cons k info rest :
  pending ((k, info) :: rest) =
  if negb (isUploaded info) then k :: pending rest else pending rest.
Proof. unfold pending. simpl. now destruct (isUploaded info). Qed.

(** The loop of [uploadAllImages] from entry [i] on attempts the pending
    records among the entries from [i] on, one after the other. *)
Lemma uploadLoop_spec n : forall i acc s,
  JsMap.wf (images (this s)) ->
  (length (images (this s)) <= n + i)%nat ->
  uploadLoop n i acc s =
  match attempt_each (pending (drop i (images (this s)))) s with
  | (Return oks, s') => (Return (acc && all_true oks), s')
  | (Throw, s') => (Throw, s')
  | (Hang, s') => (Hang, s')
  end.
Proof.
  induction n as [|n IH]; intros i acc s Hwf Hlen.
  - rewrite drop_ge by lia. simpl. unfold ret. now rewrite andb_true_r.
  - cbn [uploadLoop]. unfold bind at 1. unfold self at 1.
    destruct (nth_error (images (this s)) i) as [[path info]|] eqn:Hi.
    2: { rewrite (nth_error_drop_nil _ _ Hi). simpl. unfold ret.
         now rewrite andb_true_r. }
    rewrite (nth_error_drop _ _ _ Hi), pending_cons.
    destruct (isUploaded info) eqn:Hup; cbn [negb].
    + apply IH; [exact Hwf | lia].
    + cbn [attempt_each]. unfold bind.
      destruct (uploadImage path s) as [r1 s1] eqn:Hu.
      destruct (returns_uploadImage _ _ _ _ Hu) as [ok ->].
      destruct (uploadImage_images _ _ _ _ Hu) as [f Hthis].
      assert (Himgs : images (this s1) = JsMap.alter f path (images (this s))).
      { now rewrite Hthis. }
      rewrite IH.
      * rewrite Himgs, (drop_alter f path info i _ Hwf Hi).
        destruct (attempt_each _ s1) as [[oks| |] s2]; try reflexivity.
        unfold ret, all_true. simpl. now destruct acc, ok.
      * rewrite Himgs. now apply wf_alter.
      * rewrite Himgs, length_alter. lia.
Qed.

Lemma to_upload_alter_other f p q imgs :
  p <> q -> to_upload q (JsMap.alter f p imgs) = to_upload q imgs.
Proof.
  intros Hne. unfold to_upload. rewrite get_alter.
  destruct (String.eqb_spec p q); [contradiction | reflexivity].
Qed.

(** Attempting paths that are all pending hands each of them to the
    uploader, in order, and gives one outcome per path. *)
Lemma attempt_each_pending paths : forall s r s',
  NoDup paths ->
  (forall p, p ∈ paths -> to_upload p (images (this s)) = true) ->
  attempt_each paths s = (r, s') ->
  handed (world s') = (handed (world s) ++ paths)%list /\
  exists oks, r = Return oks /\ length oks = length paths.
Proof.
  induction paths as [|p rest IH]; intros s r s' Hnd Hall H.
  - apply ret_inv in H as [-> ->]. rewrite app_nil_r. eauto.
  - cbn [attempt_each] in H. apply NoDup_cons in Hnd as [Hp Hnd].
    unfold bind at 1 in H.
    destruct (uploadImage p s) as [r1 s1] eqn:Hu.
    destruct (returns_uploadImage _ _ _ _ Hu) as [ok ->].
    destruct (uploadImage_images _ _ _ _ Hu) as [f Hthis].
    pose proof (uploadImage_handed _ _ _ _ Hu) as Hlog.
    rewrite (Hall p) in Hlog by left.
    unfold bind at 1 in H.
    destruct (attempt_each rest s1) as [r2 s2] eqn:Hrest.
    destruct (IH s1 r2 s2 Hnd) as (Hlog2 & oks & -> & Hlen).
    + intros q Hq. rewrite Hthis. simpl.
      rewrite to_upload_alter_other; [apply Hall; now right |].
      intros ->. contradiction.
    + exact Hrest.
    + apply ret_inv in H as [-> ->]. split.
      * rewrite Hlog2, Hlog, <- app_assoc. reflexivity.
      * exists (ok :: oks). split; [reflexivity |]. simpl. now rewrite Hlen.
Qed.

Lemma pending_NoDup imgs : JsMap.wf imgs -> NoDup (pending imgs).
Proof.
  unfold JsMap.wf, JsMap.keys.
  induction imgs as [|[k info] imgs IH]; intros Hwf; [constructor |].
  simpl in Hwf. apply NoDup_cons in Hwf as [Hk Hwf].
  rewrite pending_cons. destruct (isUploaded info); simpl; [auto |].
  apply NoDup_cons. split; [| auto].
  intros Hin. apply Hk. unfold pending in Hin.
  apply list_elem_of_In, in_map_iff in Hin as ([k' v'] & Hf & Hin'). simpl in Hf. subst.
  apply filter_In in Hin' as [Hin' _].
  apply list_elem_of_In. exact (in_map fst _ _ Hin').
Qed.

Lemma pending_to_upload imgs p :
  JsMap.wf imgs -> p ∈ pending imgs -> to_upload p imgs = true.
Proof.
  intros Hwf Hin. unfold pending in Hin.
  apply list_elem_of_In, in_map_iff in Hin as ([k v] & Hf & Hin'). simpl in Hf. subst.
  apply filter_In in Hin' as [Hin' Hup]. simpl in Hup.
  unfold to_upload. apply list_elem_of_In in Hin'.
  now rewrite (elem_get _ _ _ Hwf Hin').
Qed.

(** A record that is already uploaded is never among the pending. *)
Lemma uploaded_not_pending imgs p info :
  JsMap.wf imgs -> JsMap.get p imgs = Some info -> isUploaded info = true ->
  p ∉ pending imgs.
Proof.
  intros Hwf Hget Hup Hin. apply (pending_to_upload _ _ Hwf) in Hin.
  unfold to_upload in Hin. rewrite Hget, Hup in Hin. discriminate.
Qed.

(** C6.  [uploadAllImages] hands to the uploader exactly the keys of the
    records whose [isUploaded] is false, in the order of the map; it
    attempts every one of them, whatever the earlier attempts gave; and
    it returns the logical AND of the outcomes of the attempts. *)
Theorem C6_uploadAllImages (s s' : St) (r : outcome bool) :
  JsMap.wf (images (this s)) ->
  uploadAllImages s = (r, s') ->
  handed (world s') = (handed (world s) ++ pending (images (this s)))%list /\
  exists oks,
    attempt_each (pending (images (this s))) s = (Return oks, s') /\
    length oks = length (pending (images (this s))) /\
    r = Return (all_true oks).
Proof.
  intros Hwf H. unfold uploadAllImages in H.
  unfold bind at 1 in H. unfold self at 1 in H.
  rewrite uploadLoop_spec in H by (unfold JsMap.size; auto with arith).
  rewrite drop_0 in H.
  destruct (attempt_each (pending (images (this s))) s) as [ro s1] eqn:Hrun.
  destruct (attempt_each_pending _ _ _ _ (pending_NoDup _ Hwf)
              (fun p => pending_to_upload _ p Hwf) Hrun)
    as (Hlog & oks & -> & Hlen).
  inversion H; subst. split; [exact Hlog |].
  exists oks. auto.
Qed.

Lemma C6_uploadAllImages_witness :
  let rec := fun (name : string) (up : bool) =>
    (("notes/_assets.a/" +:+ name)%string,
     {| localPath := "notes/_assets.a/" +:+ name;
        remotePath := if up then "https://x/" +:+ name else "";
        isUploaded := up; width := None; height := None; align := None;
        originalName := Some name; size := Some 3; createTime := Some 100;
        modifyTime := Some 100 |}) in
  let m := {| settings := local_settings; mdPath := "notes/a.md";
              images := [rec "a.png" true; rec "b.png" false; rec "c.png" true;
                         rec "d.png" false; rec "e.png" true];
              imageFolderPath := "notes/_assets.a" |} in
  let w := {| nodes := one_image_nodes; vaultName := "vault"; faults := [];
              clock := [300; 301]; stamps := [];
              replies := [None; Some "https://x/d.png"]; handed := [];
              responses := [] |} in
  let s := {| this := m; world := w |} in
  let run := uploadAllImages s in
  handed (world (snd run)) = ["notes/_assets.a/b.png"; "notes/_assets.a/d.png"] /\
  exists oks,
    attempt_each (pending (images (this s))) s = (Return oks, snd run) /\
    length oks = 2%nat /\
    fst run = Return (all_true oks).
Proof.
  intros rec m w s run.
  apply (C6_uploadAllImages s (snd run) (fst run)).
  - unfold JsMap.wf. apply (bool_decide_unpack _). vm_compute. exact I.
  - vm_compute. reflexivity.
Defined.

(* ===================================================================== *)
(** * Facts about paths                                                  *)
(* ===================================================================== *)

Section path_facts.
Import Path.





Lemma split_nonempty c s : JS.split c s <> [].
Proof.
  induction s as [|x s IH]; simpl; [discriminate |].
  destruct (Ascii.eqb x c); [discriminate |].
  destruct (JS.split c s); [contradiction | discriminate].
Qed.










Lemma startsWith_slash_app a n :
  a <> "" -> JS.startsWith "/" (a +:+ n) = JS.startsWith "/" a.
Proof. destruct a; [congruence | reflexivity]. Qed.













End path_facts.

(* ===================================================================== *)
(** * addImage                                                           *)
(* ===================================================================== *)

Section timestamp_facts.
Import Path.










End timestamp_facts.


Lemma Date_now_inv w r w' :
  Date_now w = (r, w') -> (exists t, r = Return t) /\ nodes w' = nodes w.
Proof. unfold Date_now. destruct (clock w); intros [= <- <-]; simpl; eauto. Qed.



Lemma keeps_copyImageToFolder src : keeps_this (copyImageToFolder src).
Proof.
  unfold copyImageToFolder, Adapter.readBinary, Adapter.writeBinary. ending.
Qed.





(** When the destination was taken before the first call, both calls
    take a name with a timestamp, and that name is not tested: two calls
    within one tick of the clock store under the same path, the second
    image over the first, and share one key. *)
Example same_timestamp_same_key :
  let w := {| nodes := <["inbox/img.png" := File (Raw "GIF")]>
                         (<["notes/_assets.a/img.png" := File (Raw "OLD")]>
                            (<["notes/_assets.a" := Folder]> sample_nodes));
              vaultName := "vault"; faults := [];
              clock := [100; 100; 100; 100; 100; 100];
              stamps := []; replies := []; handed := []; responses := [] |} in
  let s0 := fresh_state local_settings "notes/a.md" w in
  let first := addImage "temp/img.png" s0 in
  let second := addImage "inbox/img.png" (snd first) in
  fst first = Return "_assets.a/img_100.png" /\
  fst second = Return "_assets.a/img_100.png" /\
  JsMap.keys (images (this (snd first))) = ["notes/_assets.a/img_100.png"] /\
  JsMap.keys (images (this (snd second))) = ["notes/_assets.a/img_100.png"] /\
  nodes (world (snd first)) !! "notes/_assets.a/img_100.png" = Some (File (Raw "PNG")) /\
  nodes (world (snd second)) !! "notes/_assets.a/img_100.png" = Some (File (Raw "GIF")).
Proof. vm_compute. repeat split; reflexivity. Qed.

(* ===================================================================== *)
(** * Removing the last record, adding the first                         *)
(* ===================================================================== *)

(** Once the underlying file is out of the way, [removeImage] deletes the
    entry and ends with the save of the remaining map. *)
Lemma removeImage_saves p s s1 :
  JsMap.has p (images (this s)) = true ->
  deleteLocalFile p s = (Return tt, s1) ->
  removeImage p s =
  (Return true,
   snd (saveToJson {| this := set_images (JsMap.delete p (images (this s))) (this s);
                      world := world s1 |})).
Proof.
  intros Hhas Hdel. destruct (has_true_get _ _ Hhas) as [info Hget].
  pose proof (keeps_deleteLocalFile p _ _ _ Hdel) as Hthis.
  unfold removeImage, try_catch. unfold bind at 1. unfold self at 1.
  rewrite Hhas, Hget. cbn [negb].
  rewrite <- (bind_assoc (host (Adapter.exists_ p))
                (fun present => when present (host (Adapter.remove p)))
                (fun _ => update_images (JsMap.delete p) ;;; saveToJson ;;; ret true) s).
  unfold bind at 1. unfold deleteLocalFile in Hdel. rewrite Hdel.
  unfold bind at 1. unfold update_images, update_this. unfold bind.
  rewrite Hthis.
  destruct (saveToJson _) as [rs ss] eqn:Hsave.
  destruct (returns_saveToJson _ _ _ Hsave) as [b ->].
  reflexivity.
Qed.

(** When the record removed was the last one and the save goes through,
    the sidecar and the asset folder are gone. *)
Corollary removing_the_last_record p s s1 s' :
  JsMap.has p (images (this s)) = true ->
  JsMap.delete p (images (this s)) = [] ->
  deleteLocalFile p s = (Return tt, s1) ->
  saveToJson {| this := set_images [] (this s); world := world s1 |} = (Return true, s') ->
  removeImage p s = (Return true, s') /\
  images (this s') = [] /\
  present (world s') (sidecar (this s)) = false /\
  present (world s') (imageFolderPath (this s)) = false.
Proof.
  intros Hhas Hlast Hdel Hsave.
  rewrite (removeImage_saves p s s1 Hhas Hdel), Hlast, Hsave.
  destruct (saveToJson_empty _ _ Hsave eq_refl) as (Hjson & Hfolder & Hthis).
  split; [reflexivity |]. split; [now rewrite Hthis |]. split; assumption.
Qed.

(** Without upload on insertion, a successful [addImage] ends with the
    save of the map that holds the new record. *)
Lemma addImage_saves src s r s' :
  isAutoUpload (settings (this s)) = false ->
  addImage src s = (Return r, s') ->
  exists key info s1 ok,
    this s1 = set_images (JsMap.set key info (images (this s))) (this s) /\
    saveToJson s1 = (Return ok, s').
Proof.
  intros Hauto H. unfold addImage in H.
  apply try_catch_inv in H as [(s2 & _ & Hh) | [H _]]; [discriminate |].
  inv_bind H. rename Hc into Hcopy.
  pose proof (keeps_copyImageToFolder _ _ _ _ Hcopy) as Hthis1.
  inv_bind H. apply host_inv in Hc as (w1 & _ & ->).
  inv_bind H.
  assert (Hthis2 : this s1 = this s0).
  { match type of Hc with
    | ?c _ = _ => assert (Hk : keeps_this c)
    end.
    { apply keeps_try; [| apply keeps_ret].
      apply keeps_bind; [apply keeps_host | intros [n|]; apply keeps_ret]. }
    exact (Hk _ _ _ Hc). }
  inv_bind H. apply update_this_inv in Hc0 as [_ ->].
  inv_bind H. rename Hc0 into Hsave.
  destruct (returns_saveToJson _ _ _ Hsave) as [ok Hok]. inversion Hok; subst a3.
  pose proof (keeps_saveToJson _ _ _ Hsave) as Hthis3.
  inv_bind H. inv_self Hc0.
  rewrite Hthis3 in H. cbn [this settings set_images] in H.
  rewrite Hthis2 in H. cbn [this] in H. rewrite Hthis1, Hauto in H.
  inv_bind H. apply ret_inv in Hc0 as [Hr ->]. inversion Hr; subst a3.
  inv_bind H. inv_self Hc0. apply ret_inv in H as [_ ->].
  eexists a, a1, _, ok. split; [| exact Hsave].
  cbn [this]. rewrite Hthis2. cbn [this]. now rewrite Hthis1.
Qed.

(** When that save goes through, the sidecar and the asset folder are
    there: so they are after the first record was added. *)
Corollary adding_a_record src s r s' :
  isAutoUpload (settings (this s)) = false ->
  addImage src s = (Return r, s') ->
  exists s1 ok,
    saveToJson s1 = (Return ok, s') /\
    nonempty (this s1) = true /\
    (ok = true ->
     present (world s') (sidecar (this s)) = true /\
     present (world s') (imageFolderPath (this s)) = true).
Proof.
  intros Hauto H.
  destruct (addImage_saves _ _ _ _ Hauto H) as (key & info & s1 & ok & Hthis & Hsave).
  exists s1, ok. split; [exact Hsave |].
  assert (Hne : nonempty (this s1) = true).
  { unfold nonempty. rewrite Hthis. cbn [images set_images].
    unfold JsMap.set, JsMap.size. destruct (JsMap.has key (images (this s))) eqn:Hhas.
    - rewrite length_alter. destruct (has_true_get _ _ Hhas) as [v Hv].
      destruct (images (this s)); [discriminate | reflexivity].
    - rewrite length_app. simpl. now rewrite Nat.add_1_r. }
  split; [exact Hne |]. intros ->.
  destruct (saveToJson_nonempty _ _ Hsave Hne) as (Hjson & Hfolder & _).
  unfold sidecar in *. rewrite Hthis in Hjson, Hfolder. auto.
Qed.

(* ===================================================================== *)
(** * Uploaded records have a remote path                                *)
(* ===================================================================== *)

Section yields_rules.
Context {S : Type}.

Lemma yields_ret {A} (I : S -> Prop) (R : A -> Prop) (a : A) :
  R a -> yields I R (ret a).
Proof. intros Ha s r s' [= <- <-] Hi. split; [exact Hi |]. now intros a' [= <-]. Qed.

Lemma yields_throw {A} (I : S -> Prop) (R : A -> Prop) : yields I R throw.
Proof. intros s r s' [= <- <-] Hi. split; [exact Hi |]. discriminate. Qed.

Lemma yields_hang {A} (I : S -> Prop) (R : A -> Prop) : yields I R hang.
Proof. intros s r s' [= <- <-] Hi. split; [exact Hi |]. discriminate. Qed.

Lemma yields_bind {A B} (I : S -> Prop) (R1 : A -> Prop) (R : B -> Prop)
    (c : M S A) (k : A -> M S B) :
  yields I R1 c -> (forall a, R1 a -> yields I R (k a)) -> yields I R (bind c k).
Proof.
  intros Hc Hk s r s' H Hi.
  apply bind_inv in H as [(a & s1 & H1 & H) | [[H ->] | [H ->]]].
  - destruct (Hc _ _ _ H1 Hi) as [Hi1 Ha]. eapply Hk; eauto.
  - split; [eapply Hc; eauto | discriminate].
  - split; [eapply Hc; eauto | discriminate].
Qed.

Lemma yields_try {A} (I : S -> Prop) (R : A -> Prop) (c h : M S A) :
  yields I R c -> yields I R h -> yields I R (try_catch c h).
Proof.
  intros Hc Hh s r s' H Hi.
  apply try_catch_inv in H as [(s1 & H1 & H) | [H _]].
  - eapply Hh; [exact H |]. eapply Hc; eauto.
  - eapply Hc; eauto.
Qed.

Lemma yields_any {A} (I : S -> Prop) (c : M S A) :
  preserves I c -> yields I (fun _ => True) c.
Proof. intros Hc s r s' H Hi. split; [eapply Hc; eauto | auto]. Qed.

Lemma yields_weaken {A} (I : S -> Prop) (R R' : A -> Prop) (c : M S A) :
  yields I R c -> (forall a, R a -> R' a) -> yields I R' c.
Proof. intros Hc Hr s r s' H Hi. destruct (Hc _ _ _ H Hi) as [Hi' Ha]. eauto. Qed.

Lemma yields_forget {A} (I : S -> Prop) (R : A -> Prop) (c : M S A) :
  yields I R c -> yields I (fun _ => True) c.
Proof. intros Hc. eapply yields_weaken; [exact Hc | auto]. Qed.

Lemma yields_when (I : S -> Prop) b (c : M S unit) :
  yields I (fun _ => True) c -> yields I (fun _ => True) (when b c).
Proof. intros Hc. destruct b; [exact Hc | now apply yields_ret]. Qed.

Lemma yields_preserves {A} (I : S -> Prop) (R : A -> Prop) (c : M S A) :
  yields I R c -> preserves I c.
Proof. intros Hc s r s' H Hi. now destruct (Hc _ _ _ H Hi). Qed.

End yields_rules.

(** ** The answers still to come are only consumed by [upload] *)

Section answers_facts.
Import Adapter.

Lemma answers_io : preserves answers_ok io.
Proof. intros w r w' H Hl. apply io_inv in H as (f & -> & _). exact Hl. Qed.

Lemma answers_call {A} (k : gmap string node -> M World A) :
  (forall ns, preserves answers_ok (k ns)) ->
  preserves answers_ok (io ;;; ns <- peek ;; k ns).
Proof.
  intros Hk. apply preserves_bind; [apply answers_io | intros _].
  apply preserves_bind; [| exact Hk].
  intros w r w' [= _ <-]. auto.
Qed.

Lemma answers_modify_nodes f : preserves answers_ok (modify (with_nodes f)).
Proof. intros w r w' [= _ <-] Hl. exact Hl. Qed.

Lemma answers_exists p : preserves answers_ok (exists_ p).
Proof. apply answers_call. intros ns. apply preserves_ret. Qed.

Lemma answers_read p : preserves answers_ok (read p).
Proof.
  apply answers_call. intros ns.
  destruct (ns !! p) as [[c|]|]; auto using preserves_ret, preserves_throw.
Qed.

Lemma answers_write p c : preserves answers_ok (write p c).
Proof.
  apply answers_call. intros ns.
  destruct (ns !! p) as [[c'|]|]; auto using answers_modify_nodes, preserves_throw.
Qed.

Lemma answers_mkdir p : preserves answers_ok (mkdir p).
Proof.
  apply answers_call. intros ns.
  destruct (ns !! p) as [[c'|]|];
    auto using answers_modify_nodes, preserves_throw, preserves_ret.
Qed.

Lemma answers_remove p : preserves answers_ok (remove p).
Proof.
  apply answers_call. intros ns.
  destruct (ns !! p) as [[c'|]|]; auto using answers_modify_nodes, preserves_throw.
Qed.

Lemma answers_rmdir p : preserves answers_ok (rmdir p).
Proof.
  apply answers_call. intros ns.
  destruct (ns !! p) as [[c'|]|]; auto using answers_modify_nodes, preserves_throw.
Qed.

Lemma answers_list_files p : preserves answers_ok (list_files p).
Proof.
  apply answers_call. intros ns.
  destruct (ns !! p) as [[c'|]|]; auto using preserves_ret, preserves_throw.
Qed.

Lemma answers_stat p : preserves answers_ok (stat p).
Proof.
  apply answers_call. intros ns.
  destruct (ns !! p) as [[c'|]|]; auto using preserves_ret.
Qed.

Lemma answers_Date_now : preserves answers_ok Date_now.
Proof.
  intros w r w'. unfold Date_now. destruct (clock w); intros [= _ <-]; auto.
Qed.

Lemma answers_fetch u : preserves answers_ok (fetch u).
Proof.
  intros w r w'. unfold fetch.
  destruct (responses w) as [|[body|] rest]; intros [= _ <-]; auto.
Qed.

Lemma answers_resolveFolder cfg p : preserves answers_ok (resolveFolder cfg p).
Proof.
  intros w r w'.
  unfold resolveFolder, getContext, bind, peek, next_stamp, ret.
  destruct (stamps w); intros [= _ <-]; auto.
Qed.

Lemma answers_createImageInfo p u b : preserves answers_ok (createImageInfo p u b).
Proof.
  unfold createImageInfo.
  repeat (apply preserves_bind; [apply answers_Date_now | intros ?]).
  apply preserves_ret.
Qed.

(** What [upload] answers was the next answer to come. *)
Lemma answers_upload p : yields answers_ok (fun result => first_url result <> "") (upload p).
Proof.
  intros w r w'. unfold upload, answers_ok.
  destruct (replies w) as [|[text|] rest]; intros [= <- <-] Hq; simpl.
  - split; [constructor | discriminate].
  - inversion Hq; subst. split; [assumption |]. now intros a [= <-].
  - inversion Hq; subst. split; [assumption | discriminate].
Qed.

End answers_facts.

(** ** Records under the operations of [Map] *)

Section records_facts.
Variable P : IImageInfo -> Prop.

Local Abbreviation all := (Forall (fun e : string * IImageInfo => P (snd e))).

Lemma all_alter f k imgs :
  (forall v, P v -> P (f v)) -> all imgs -> all (JsMap.alter f k imgs).
Proof.
  intros Hf. induction imgs as [|[k0 v0] imgs IH]; simpl; intros H; [constructor |].
  inversion H; subst.
  destruct (String.eqb k0 k); constructor; simpl in *; auto.
Qed.

Lemma all_alter_at f i imgs :
  (forall v, P v -> P (f v)) -> all imgs -> all (JsMap.alter_at f i imgs).
Proof.
  intros Hf. revert i.
  induction imgs as [|[k0 v0] imgs IH]; intros i H; [destruct i; constructor |].
  inversion H; subst. destruct i; simpl; constructor; simpl in *; auto.
Qed.

Lemma all_delete k imgs : all imgs -> all (JsMap.delete k imgs).
Proof.
  unfold JsMap.delete. intros H. rewrite Forall_forall in *.
  intros e He. apply list_elem_of_In, filter_In in He as [He _].
  apply H. now apply list_elem_of_In.
Qed.

Lemma all_set k v imgs : P v -> all imgs -> all (JsMap.set k v imgs).
Proof.
  intros Hv H. unfold JsMap.set. destruct (JsMap.has k imgs).
  - apply all_alter; auto.
  - apply Forall_app. split; [exact H |]. repeat constructor. exact Hv.
Qed.

Lemma all_nth_error imgs i k v : all imgs -> nth_error imgs i = Some (k, v) -> P v.
Proof.
  intros H Hi. rewrite Forall_forall in H.
  apply nth_error_In, list_elem_of_In in Hi. exact (H _ Hi).
Qed.

Lemma all_get imgs k v : all imgs -> JsMap.get k imgs = Some v -> P v.
Proof.
  intros H Hk. rewrite Forall_forall in H.
  apply get_Some_elem in Hk. exact (H _ Hk).
Qed.

Lemma all_rekey (keep : forall p v, P v -> P (set_localPath p v)) fuel :
  forall i file targetPath imgs imgs',
    all imgs -> rekey fuel i file targetPath imgs = Some imgs' -> all imgs'.
Proof.
  induction fuel as [|fuel IH]; intros i file targetPath imgs imgs' H; simpl;
    [discriminate |].
  destruct (nth_error imgs i) as [[oldPath info]|] eqn:Hi.
  - destruct (String.eqb oldPath file).
    + apply IH. apply all_set; [| now apply all_delete].
      apply keep. eapply all_nth_error; eauto.
    + now apply IH.
  - now intros [= <-].
Qed.

End records_facts.

Lemma well_set_localPath p v : well_uploaded v -> well_uploaded (set_localPath p v).
Proof. exact (fun H => H). Qed.

Lemma well_set_originalName n v : well_uploaded v -> well_uploaded (set_originalName n v).
Proof. exact (fun H => H). Qed.

Lemma well_set_size n v : well_uploaded v -> well_uploaded (set_size n v).
Proof. exact (fun H => H). Qed.

Lemma well_set_modifyTime n v : well_uploaded v -> well_uploaded (set_modifyTime n v).
Proof. exact (fun H => H). Qed.

Lemma well_set_uploaded url v : url <> "" -> well_uploaded (set_uploaded url v).
Proof. intros H _. exact H. Qed.

(** ** The invariant through the steps of a method *)

Section sound_steps.

Lemma sound_host {A} (c : M World A) :
  preserves answers_ok c -> yields sound (fun _ => True) (host c).
Proof.
  intros Hc s r s' H [Hr Ha]. apply host_inv in H as (w' & H & ->).
  split; [| auto]. split; [exact Hr | exact (Hc _ _ _ H Ha)].
Qed.

Lemma sound_self : yields sound records_ok self.
Proof.
  intros s r s' [= <- <-] Hi. split; [exact Hi |]. intros a [= <-]. apply Hi.
Qed.

Lemma sound_self_any : yields sound (fun _ => True) self.
Proof. exact (yields_forget _ _ _ sound_self). Qed.

Lemma sound_update_images f :
  (forall imgs,
      Forall (fun e => well_uploaded (snd e)) imgs ->
      Forall (fun e => well_uploaded (snd e)) (f imgs)) ->
  yields sound (fun _ => True) (update_images f).
Proof.
  intros Hf s r s' [= <- <-] [Hr Ha]. split; [| auto].
  split; [apply Hf, Hr | exact Ha].
Qed.

Lemma sound_set_mdPath p : yields sound (fun _ => True) (update_this (set_mdPath p)).
Proof. intros s r s' [= <- <-] Hi. split; [exact Hi | auto]. Qed.

Lemma sound_set_imageFolderPath p :
  yields sound (fun _ => True) (update_this (set_imageFolderPath p)).
Proof. intros s r s' [= <- <-] Hi. split; [exact Hi | auto]. Qed.

Lemma sound_getJsonPath p : yields sound (fun _ => True) (getJsonPath p).
Proof.
  intros s r s' H Hi. apply getJsonPath_inv in H as [_ ->]. split; [exact Hi | auto].
Qed.

Lemma sound_getImageFolderPath : yields sound (fun _ => True) getImageFolderPath.
Proof.
  unfold getImageFolderPath.
  apply (yields_bind sound (fun _ => True)); [apply sound_self_any | intros m _].
  apply sound_host, answers_resolveFolder.
Qed.

Lemma sound_upload p :
  yields sound (fun result => first_url result <> "") (host (upload p)).
Proof.
  intros s r s' H [Hr Ha]. apply host_inv in H as (w' & H & ->).
  destruct (answers_upload p _ _ _ H Ha) as [Ha' Hres].
  split; [split; assumption | exact Hres].
Qed.

(** A record as [createImageInfo] makes it is not uploaded. *)
Lemma createImageInfo_fresh p w r w' :
  createImageInfo p "" false w = (r, w') ->
  exists info, r = Return info /\ isUploaded info = false.
Proof.
  unfold createImageInfo, bind.
  destruct (Date_now w) as [[t1| |] w1] eqn:H1;
    [| unfold Date_now in H1; destruct (clock w); discriminate ..].
  destruct (Date_now w1) as [[t2| |] w2] eqn:H2;
    [| unfold Date_now in H2; destruct (clock w1); discriminate ..].
  intros [= <- _]. eauto.
Qed.

Lemma sound_createImageInfo p :
  yields sound well_uploaded (host (createImageInfo p "" false)).
Proof.
  intros s r s' H Hi. split.
  - exact (proj1 (sound_host _ (answers_createImageInfo p "" false) _ _ _ H Hi)).
  - intros a ->. apply host_inv in H as (w' & H & _).
    apply createImageInfo_fresh in H as (info & [= <-] & Hup).
    intros Hup'. congruence.
Qed.

End sound_steps.

(** Steps that keep the invariant and whose value is not looked at. *)
Ltac sound_host_step :=
  apply sound_host;
  first [ apply answers_exists | apply answers_read | apply answers_write
        | apply answers_mkdir | apply answers_remove | apply answers_rmdir
        | apply answers_list_files | apply answers_stat | apply answers_Date_now
        | apply answers_fetch | apply answers_resolveFolder ].

Ltac sound_known := fail.

Ltac sound_step :=
  first
    [ sound_known
    | apply yields_ret; exact I
    | apply yields_throw
    | apply yields_hang
    | apply sound_self_any
    | apply sound_getJsonPath
    | apply sound_getImageFolderPath
    | apply sound_set_mdPath
    | apply sound_set_imageFolderPath
    | sound_host_step
    | apply yields_when
    | apply yields_try
    | match goal with
      | |- yields _ _ (if ?b then _ else _) => destruct b
      | |- yields _ _ (match ?x with _ => _ end) => destruct x
      | |- yields _ _ (bind _ _) =>
          apply (yields_bind sound (fun _ => True)); [| intros ? _]
      end ].

Lemma sound_saveToJson : yields sound (fun _ => True) saveToJson.
Proof. unfold saveToJson. repeat sound_step. Qed.

Ltac sound_known ::= apply sound_saveToJson.

Lemma sound_copyImageToFolder src : yields sound (fun _ => True) (copyImageToFolder src).
Proof. unfold copyImageToFolder. repeat sound_step. Qed.

Ltac sound_known ::=
  first [apply sound_saveToJson | apply sound_copyImageToFolder].

(** ** The invariant through the methods *)

Lemma sound_uploadImage p : yields sound (fun _ => True) (uploadImage p).
Proof.
  unfold uploadImage.
  apply (yields_bind sound (fun _ => True)); [apply sound_self_any | intros m _].
  destruct (negb (JsMap.has p (images m))); [now apply yields_ret |].
  destruct (JsMap.get p (images m)) as [imageInfo|]; [| now apply yields_ret].
  destruct (isUploaded imageInfo); [now apply yields_ret |].
  apply yields_try; [| now apply yields_ret].
  apply (yields_bind sound (fun result => first_url result <> ""));
    [apply sound_upload | intros result Hurl].
  destruct (0 <? length (JS.split "," result))%nat; [| now apply yields_ret].
  apply (yields_bind sound (fun _ => True)).
  { apply sound_update_images. intros imgs. apply all_alter.
    intros v _. now apply well_set_uploaded. }
  intros _ _.
  apply (yields_bind sound (fun _ => True)); [sound_host_step | intros now _].
  apply (yields_bind sound (fun _ => True)).
  { apply sound_update_images. intros imgs. apply all_alter.
    intros v. apply well_set_modifyTime. }
  intros _ _. repeat sound_step.
Qed.

Ltac sound_known ::=
  first [apply sound_saveToJson | apply sound_copyImageToFolder
        | apply sound_uploadImage].

Lemma sound_addImage src : yields sound (fun _ => True) (addImage src).
Proof.
  unfold addImage. apply yields_try; [| apply yields_throw].
  apply (yields_bind sound (fun _ => True));
    [apply sound_copyImageToFolder | intros targetPath _].
  apply (yields_bind sound well_uploaded);
    [apply sound_createImageInfo | intros imageInfo Hinfo].
  apply (yields_bind sound well_uploaded).
  { apply yields_try.
    - apply (yields_bind sound (fun _ => True)); [sound_host_step | intros st _].
      destruct st; apply yields_ret.
      + now apply well_set_size, well_set_originalName.
      + now apply well_set_originalName.
    - apply yields_ret. now apply well_set_originalName. }
  intros info Hwell.
  apply (yields_bind sound (fun _ => True)).
  { apply sound_update_images. intros imgs. now apply all_set. }
  intros _ _. repeat sound_step.
Qed.

Lemma sound_removeImage p : yields sound (fun _ => True) (removeImage p).
Proof.
  unfold removeImage. apply yields_try; [| now apply yields_ret].
  apply (yields_bind sound (fun _ => True)); [apply sound_self_any | intros m _].
  destruct (negb (JsMap.has p (images m))); [now apply yields_ret |].
  destruct (JsMap.get p (images m)) as [imageInfo|]; [| now apply yields_ret].
  apply (yields_bind sound (fun _ => True)); [sound_host_step | intros present _].
  apply (yields_bind sound (fun _ => True)); [repeat sound_step | intros _ _].
  apply (yields_bind sound (fun _ => True)).
  { apply sound_update_images. intros imgs. apply all_delete. }
  intros _ _. repeat sound_step.
Qed.

Lemma sound_uploadLoop n : forall i acc, yields sound (fun _ => True) (uploadLoop n i acc).
Proof.
  induction n as [|n IH]; intros i acc; simpl; [now apply yields_ret |].
  apply (yields_bind sound (fun _ => True)); [apply sound_self_any | intros m _].
  destruct (nth_error (images m) i) as [[path info]|]; [| now apply yields_ret].
  destruct (negb (isUploaded info)); [| apply IH].
  apply (yields_bind sound (fun _ => True)); [apply sound_uploadImage | intros ok _].
  apply IH.
Qed.

Lemma sound_uploadAllImages : yields sound (fun _ => True) uploadAllImages.
Proof.
  unfold uploadAllImages.
  apply (yields_bind sound (fun _ => True)); [apply sound_self_any | intros m _].
  apply sound_uploadLoop.
Qed.

Lemma sound_downloadImage url : yields sound (fun _ => True) (downloadImage url).
Proof. unfold downloadImage. repeat sound_step. Qed.

Lemma sound_downloadLoop n :
  forall i acc, yields sound (fun _ => True) (downloadLoop n i acc).
Proof.
  induction n as [|n IH]; intros i acc; simpl; [now apply yields_ret |].
  apply (yields_bind sound (fun _ => True)); [apply sound_self_any | intros m _].
  destruct (nth_error (images m) i) as [[path info]|]; [| now apply yields_ret].
  apply (yields_bind sound (fun _ => True)); [repeat sound_step | intros missing _].
  destruct missing; [| apply IH].
  apply (yields_bind sound (fun _ => True)); [| intros ok _; apply IH].
  apply yields_try; [| now apply yields_ret].
  apply (yields_bind sound (fun _ => True));
    [apply sound_downloadImage | intros localPath' _].
  apply (yields_bind sound (fun _ => True)).
  { apply sound_update_images. intros imgs. apply all_alter_at.
    intros v. apply well_set_localPath. }
  intros _ _.
  apply (yields_bind sound (fun _ => True)); [sound_host_step | intros now _].
  apply (yields_bind sound (fun _ => True)).
  { apply sound_update_images. intros imgs. apply all_alter_at.
    intros v. apply well_set_modifyTime. }
  intros _ _. now apply yields_ret.
Qed.

Lemma sound_downloadAllImages : yields sound (fun _ => True) downloadAllImages.
Proof.
  unfold downloadAllImages.
  apply (yields_bind sound (fun _ => True)); [apply sound_self_any | intros m _].
  apply (yields_bind sound (fun _ => True)); [apply sound_downloadLoop | intros ok _].
  repeat sound_step.
Qed.

Lemma sound_rekey_images file targetPath :
  yields sound (fun _ => True) (rekey_images file targetPath).
Proof.
  unfold rekey_images.
  apply (yields_bind sound records_ok); [apply sound_self | intros m Hm].
  destruct (rekey _ 0 file targetPath (images m)) as [imgs|] eqn:Hk;
    [| apply yields_hang].
  apply sound_update_images. intros _ _.
  eapply (all_rekey well_uploaded); [| exact Hm | exact Hk].
  intros p v. apply well_set_localPath.
Qed.

Lemma sound_moveFiles files oldImageFolder :
  yields sound (fun _ => True) (moveFiles files oldImageFolder).
Proof.
  induction files as [|file rest IH]; simpl; [now apply yields_ret |].
  apply (yields_bind sound (fun _ => True)); [sound_host_step | intros content _].
  apply (yields_bind sound (fun _ => True)); [apply sound_self_any | intros m _].
  apply (yields_bind sound (fun _ => True)); [sound_host_step | intros _ _].
  apply (yields_bind sound (fun _ => True)); [sound_host_step | intros _ _].
  apply (yields_bind sound (fun _ => True)); [apply sound_rekey_images | intros _ _].
  exact IH.
Qed.

Ltac sound_known ::=
  first [apply sound_saveToJson | apply sound_moveFiles].

Lemma sound_renameImageFolder newMdPath :
  yields sound (fun _ => True) (renameImageFolder newMdPath).
Proof. unfold renameImageFolder. repeat sound_step. Qed.


(** ** Sequences of operations *)

Lemma sound_after {A} (c : M St A) s :
  yields sound (fun _ => True) c -> sound s -> sound (snd (c s)).
Proof.
  intros Hc Hs. destruct (c s) as [r s'] eqn:H. exact (proj1 (Hc _ _ _ H Hs)).
Qed.

Lemma sound_perform o s : sound s -> sound (perform o s).
Proof.
  destruct o; simpl; apply sound_after.
  - apply sound_addImage.
  - apply sound_uploadAllImages.
  - apply sound_downloadAllImages.
  - apply sound_removeImage.
  - apply sound_renameImageFolder.
Qed.

Lemma sound_perform_all ops : forall s, sound s -> sound (perform_all ops s).
Proof.
  induction ops as [|o ops IH]; intros s Hs; [exact Hs |].
  apply IH, sound_perform, Hs.
Qed.

(* ===================================================================== *)
(** * What the command uploader answers                                  *)
(* ===================================================================== *)

Section custom_uploader_facts.
Import CustomUploader.
Variable parseInt : string -> Z.

Lemma match_line_url line index url :
  match_line line = Some (index, url) -> starts_h url.
Proof.
  unfold match_line.
  destruct (strip_prefix "[" line) as [r1|]; [| discriminate].
  destruct (span Obj.is_digit r1) as [digits r2].
  destruct (String.eqb digits ""); [discriminate |].
  destruct (strip_prefix "]" r2) as [r3|]; [| discriminate].
  destruct (strip_prefix "http" _) as [r4|]; [| discriminate].
  destruct (strip_prefix "s" r4) as [r|].
  - destruct (strip_prefix "://" r) as [r6|]; [| discriminate].
    destruct (url_body r6) as [body|]; [| discriminate].
    intros [= _ <-]. simpl. eexists. reflexivity.
  - destruct (strip_prefix "://" r4) as [r6|]; [| discriminate].
    destruct (url_body r6) as [body|]; [| discriminate].
    intros [= _ <-]. simpl. eexists. reflexivity.
Qed.

Lemma trim_starts_h u : starts_h u -> starts_h (trim u).
Proof.
  intros [rest ->]. unfold trim. cbn [span].
  change (is_space "h") with false. cbn [snd trim_end].
  change (is_space "h") with false. rewrite andb_false_r.
  eexists. reflexivity.
Qed.

Lemma set_index_all k v m :
  starts_h v -> Forall (fun e => starts_h (snd e)) m ->
  Forall (fun e => starts_h (snd e)) (set_index k v m).
Proof.
  intros Hv. induction m as [|[k' v'] m IH]; simpl; intros H.
  - repeat constructor. exact Hv.
  - inversion H; subst. destruct (Z.eqb k' k); constructor; auto.
Qed.

Lemma collect_all m line :
  Forall (fun e => starts_h (snd e)) m ->
  Forall (fun e => starts_h (snd e)) (collect parseInt m line).
Proof.
  intros H. unfold collect.
  destruct (match_line line) as [[index url]|] eqn:Hm; [| exact H].
  apply set_index_all; [| exact H].
  eapply trim_starts_h, match_line_url, Hm.
Qed.

Lemma collect_lines_all lines : forall m,
  Forall (fun e => starts_h (snd e)) m ->
  Forall (fun e => starts_h (snd e)) (fold_left (collect parseInt) lines m).
Proof.
  induction lines as [|line lines IH]; intros m H; simpl; [exact H |].
  apply IH, collect_all, H.
Qed.

Lemma insert_by_index_all e l :
  starts_h (snd e) -> Forall (fun e => starts_h (snd e)) l ->
  Forall (fun e => starts_h (snd e)) (insert_by_index e l).
Proof.
  intros He. induction l as [|e' l IH]; simpl; intros H.
  - repeat constructor. exact He.
  - inversion H; subst. destruct (Z.leb (fst e) (fst e')); repeat constructor; auto.
Qed.

Lemma sort_by_index_all l :
  Forall (fun e => starts_h (snd e)) l ->
  Forall (fun e => starts_h (snd e)) (sort_by_index l).
Proof.
  unfold sort_by_index. induction l as [|e l IH]; simpl; intros H; [constructor |].
  inversion H; subst. apply insert_by_index_all; auto.
Qed.

Lemma parseURL_urls result fileCount urls :
  parseURL parseInt result fileCount = Some urls ->
  urls <> [] /\ Forall starts_h urls.
Proof.
  unfold parseURL.
  destruct (after "Successfully uploaded:" result) as [rest|]; [| discriminate].
  set (urlMap := fold_left _ _ _).
  destruct (length (map snd (sort_by_index urlMap)) =? 0)%nat eqn:Hlen;
    [discriminate |].
  destruct (negb _); [discriminate |].
  intros [= <-]. split.
  - intros Hnil. rewrite Hnil in Hlen. discriminate.
  - apply Forall_map, sort_by_index_all, collect_lines_all. constructor.
Qed.

Lemma join_starts_h urls : urls <> [] -> Forall starts_h urls -> starts_h (join urls).
Proof.
  destruct urls as [|u rest]; [congruence |].
  intros _ H. inversion H as [|? ? [tail ->] _]; subst.
  destruct rest; simpl; eexists; reflexivity.
Qed.

Lemma first_url_starts_h result : starts_h result -> first_url result <> "".
Proof.
  intros [rest ->]. unfold first_url. cbn [JS.split].
  change (Ascii.eqb "h" ",") with false. cbv iota.
  destruct (JS.split "," rest); discriminate.
Qed.

(** Whatever the command wrote, the answer of the command uploader, when
    it gives one, starts with a URL. *)
Lemma upload_names_url command files ended :
  names_url (upload parseInt command files ended).
Proof.
  unfold upload. destruct (String.eqb command ""); [exact I |].
  destruct ended as [|stdout stderr]; [exact I |].
  destruct (negb _); [exact I |].
  destruct (parseURL _ _ _) as [urls|] eqn:Hp; [| exact I].
  apply parseURL_urls in Hp as [Hne Hall].
  apply first_url_starts_h, join_starts_h; assumption.
Qed.

(** With the command uploader behind the manager, the records stay well
    uploaded through any sequence of operations. *)
Lemma records_with_command_uploader (s : St) (ops : list operation)
    (runs : list (string * string * exec_result)) :
  images (this s) = [] ->
  replies (world s) =
    map (fun run => upload parseInt run.1.1 run.1.2 run.2) runs ->
  records_ok (this (perform_all ops s)).
Proof.
  intros Hempty Hruns. apply sound_perform_all. split.
  - unfold records_ok. rewrite Hempty. constructor.
  - unfold answers_ok. rewrite Hruns. apply Forall_map, Forall_forall.
    intros run _. apply upload_names_url.
Qed.

End custom_uploader_facts.

(** The test [urls.length > 0] of [uploadImage] holds whatever the
    uploader answered. *)
Lemma split_length_positive c s : (0 <? length (JS.split c s))%nat = true.
Proof.
  apply Nat.ltb_lt. pose proof (split_nonempty c s).
  destruct (JS.split c s); [contradiction | simpl; lia].
Qed.

(** C1.  Start from a manager without records, on a host whose uploader
    answers each request it does not reject with a comma-separated list
    that starts with a URL, and run any sequence of [addImage],
    [uploadAllImages], [downloadAllImages], [removeImage] and
    [renameImageFolder], whether the calls return or throw.  Every record
    of the manager that has [isUploaded] true then has a [remotePath]
    other than the empty text. *)
Theorem C1_uploaded_records_have_a_remote_path (s : St) (ops : list operation) :
  images (this s) = [] ->
  Forall names_url (replies (world s)) ->
  forall k info,
    (k, info) ∈ images (this (perform_all ops s)) ->
    isUploaded info = true -> remotePath info <> "".
Proof.
  intros Hempty Hanswers k info Hin.
  assert (Hs : sound s).
  { split; [| exact Hanswers]. unfold records_ok. rewrite Hempty. constructor. }
  destruct (sound_perform_all ops s Hs) as [Hrecords _].
  unfold records_ok in Hrecords. rewrite Forall_forall in Hrecords.
  exact (Hrecords _ Hin).
Qed.

Lemma C1_uploaded_records_have_a_remote_path_witness :
  let w := with_replies [None; Some "https://x/1.png";
                         Some "https://x/2.png,https://x/3.png"] sample_world in
  let s := fresh_state DEFAULT_SETTINGS "notes/a.md" w in
  let ops := [AddImage "temp/img.png"; AddImage "temp/img.png"; UploadAllImages;
              RenameImageFolder "notes/b.md"; DownloadAllImages;
              RemoveImage "notes/_assets.a/img.png"] in
  map (fun e => (isUploaded (snd e), remotePath (snd e)))
    (images (this (perform_all ops s)))
  = [(true, "https://x/1.png"); (true, "https://x/2.png")] /\
  forall k info,
    (k, info) ∈ images (this (perform_all ops s)) ->
    isUploaded info = true -> remotePath info <> "".
Proof.
  intros w s ops. split; [vm_compute; reflexivity |].
  apply (C1_uploaded_records_have_a_remote_path s ops).
  - vm_compute. reflexivity.
  - vm_compute. repeat constructor; discriminate.
Defined.

(** The premise on the uploader is needed: the test [urls.length > 0] of
    [uploadImage] holds for every answer, the empty text included.  An
    uploader that answered with the empty text would leave a record with
    [isUploaded] true and an empty [remotePath]. *)
Example empty_answer_marks_uploaded :
  let w := with_replies [Some ""] sample_world in
  let s0 := fresh_state DEFAULT_SETTINGS "notes/a.md" w in
  let run := addImage "temp/img.png" s0 in
  ~ names_url (Some "") /\
  fst run = Return "" /\
  exists info,
    JsMap.get "notes/_assets.a/img.png" (images (this (snd run))) = Some info /\
    isUploaded info = true /\ remotePath info = "".
Proof.
  intros w s0 run. split; [intros H; now apply H |].
  split; [vm_compute; reflexivity |].
  eexists. split; [vm_compute; reflexivity |]. split; reflexivity.
Qed.

(* ===================================================================== *)
(** * loadFromJson                                                   *)
(* ===================================================================== *)

(** What the lookup of the sidecar, inside the [try] of [loadFromJson],
    leaves behind. *)
Lemma loadFromJson_looks jsonPath s rb sb :
  (present <- host (Adapter.exists_ jsonPath) ;;
   if present then
     content <- host (Adapter.read jsonPath) ;;
     data <- Sidecar.parse content ;;
     update_images (fun _ => []) ;;;
     imgs <- Sidecar.images_of data ;;
     when (Obj.truthy imgs)
       (match imgs with
        | Some v => update_images (load_entries (Obj.entries v))
        | None => ret tt
        end) ;;;
     ret true
   else ret false) s = (rb, sb) ->
  set_images (images (this s)) (this sb) = this s /\
  ((rb = Throw /\ (images (this sb) = images (this s) \/ images (this sb) = [])) \/
   (rb = Return false /\ this sb = this s /\ present (world s) jsonPath = false) \/
   (rb = Return true /\ present (world s) jsonPath = true)).
Proof.
  intros H.
  apply bind_inv in H as [(found & s1 & He & H) | [[He ->] | [He ->]]];
    apply host_exists_inv in He as (f1 & -> & [Hr | Hr]); try discriminate.
  2: { split; [apply set_images_same | left; auto]. }
  inversion Hr; subst found; clear Hr.
  destruct (present (world s) jsonPath) eqn:Hp.
  2: { apply ret_inv in H as [-> ->]. split; [apply set_images_same | auto]. }
  apply bind_inv in H as [(content & s2 & Hread & H) | [[Hread ->] | [Hread ->]]];
    apply host_inv in Hread as (w2 & Hread & ->);
    try (apply halts_read in Hread; contradiction);
    cbn [this at_world] in *.
  2: { split; [apply set_images_same | left; auto]. }
  destruct content as [bytes | data]; cbn [Sidecar.parse] in H.
  { apply bind_inv in H as [(x & s3 & Hc & _) | [[Hc ->] | [Hc ->]]]; try discriminate.
    inversion Hc; subst. split; [apply set_images_same | left; auto]. }
  apply bind_inv in H as [(x & s3 & Hc & H) | [[Hc ->] | [Hc ->]]]; try discriminate.
  apply ret_inv in Hc as [Hx ->]. inversion Hx; subst x; clear Hx.
  apply bind_inv in H as [(u & s4 & Hc & H) | [[Hc ->] | [Hc ->]]]; try discriminate.
  apply update_this_inv in Hc as [_ ->].
  apply bind_inv in H as [(imgs & s5 & Hc & H) | [[Hc ->] | [Hc ->]]].
  - assert (s5 = {| this := set_images [] (this s); world := w2 |}) as ->.
    { destruct data; cbn [Sidecar.images_of] in Hc;
        first [now apply ret_inv in Hc as [_ ->] | discriminate]. }
    apply bind_inv in H as [(u2 & s6 & Hc2 & H) | [[Hc2 ->] | [Hc2 ->]]].
    + apply ret_inv in H as [-> ->]. split; [| right; right; auto].
      apply when_inv in Hc2 as [[_ Hc2] | (_ & _ & ->)]; [| now destruct (this s)].
      destruct imgs as [v|].
      * apply update_this_inv in Hc2 as [_ ->]. now destruct (this s).
      * apply ret_inv in Hc2 as [_ ->]. now destruct (this s).
    + exfalso. apply when_inv in Hc2 as [[_ Hc2] | (_ & ? & _)]; [| discriminate].
      destruct imgs; discriminate.
    + exfalso. apply when_inv in Hc2 as [[_ Hc2] | (_ & ? & _)]; [| discriminate].
      destruct imgs; discriminate.
  - assert (sb = {| this := set_images [] (this s); world := w2 |}) as ->.
    { destruct data; cbn [Sidecar.images_of] in Hc; inversion Hc; reflexivity. }
    split; [now destruct (this s) | left; split; [reflexivity | right; reflexivity]].
  - exfalso. destruct data; discriminate.
Qed.

(** How [loadFromJson] ends. *)
Lemma loadFromJson_outcome (s s' : St) (r : outcome bool) :
  loadFromJson s = (r, s') ->
  exists found,
    r = Return found /\
    set_images (images (this s)) (this s') = this s /\
    (found = true -> present (world s) (sidecar (this s)) = true) /\
    (found = false -> images (this s') = images (this s) \/ images (this s') = []).
Proof.
  intros H. unfold loadFromJson in H.
  apply bind_inv in H as [(m & s0 & Hc & H) | [[Hc _] | [Hc _]]];
    apply self_inv in Hc as [Hr ->]; try discriminate.
  inversion Hr; subst m; clear Hr.
  apply bind_inv in H as [(jsonPath & s0 & Hc & H) | [[Hc _] | [Hc _]]];
    apply getJsonPath_inv in Hc as [Hr ->]; try discriminate.
  inversion Hr; subst jsonPath; clear Hr.
  apply bind_inv in H as [(found & s1 & Ht & H) | [[Ht ->] | [Ht ->]]].
  - apply ret_inv in H as [-> ->]. exists found.
    apply try_catch_inv in Ht as [(s2 & Hb & Hh) | [Hb _]].
    + apply ret_inv in Hh as [Hf ->]. inversion Hf; subst found.
      apply loadFromJson_looks in Hb as (Hkeep & [(_ & Himgs) | [(? & _) | (? & _)]]);
        try discriminate.
      split; [reflexivity |]. split; [assumption |].
      split; [discriminate | auto].
    + apply loadFromJson_looks in Hb as (Hkeep & [(? & _) | [(Hf & Hthis & _) | (Hf & Hp)]]);
        try discriminate; inversion Hf; subst found.
      * split; [reflexivity |]. split; [assumption |].
        split; [discriminate | rewrite Hthis; auto].
      * split; [reflexivity |]. split; [assumption |].
        split; [intros _; exact Hp | discriminate].
  - exfalso. apply try_catch_inv in Ht as [(s2 & Hb & Hh) | [Hb Hne]];
      [apply ret_inv in Hh as [? _]; discriminate | congruence].
  - exfalso. apply try_catch_inv in Ht as [(s2 & Hb & Hh) | [Hb _]];
      [apply ret_inv in Hh as [? _]; discriminate |].
    apply loadFromJson_looks in Hb as (_ & [(? & _) | [(? & _) | (? & _)]]); discriminate.
Qed.

(** X1.  [loadFromJson] never throws: whatever the host does, it returns
    a boolean and changes nothing of the manager but its map.  It returns
    true only when the sidecar was there.  When it returns false the map
    is as it was, or empty: the map is cleared before the parsed document
    is looked into. *)
Theorem X1_loadFromJson_reports (s : St) :
  exists found,
    fst (loadFromJson s) = Return found /\
    set_images (images (this s)) (this (snd (loadFromJson s))) = this s /\
    (found = true -> present (world s) (sidecar (this s)) = true) /\
    (found = false ->
     images (this (snd (loadFromJson s))) = images (this s) \/
     images (this (snd (loadFromJson s))) = []).
Proof.
  destruct (loadFromJson s) as [r s'] eqn:H. cbn [fst snd].
  destruct (loadFromJson_outcome _ _ _ H) as (found & -> & Hrest).
  exists found. split; [reflexivity | exact Hrest].
Qed.

(* ===================================================================== *)
(** * uploadAllImages keeps the uploaded records                     *)
(* ===================================================================== *)

(** [uploadImage] does nothing to a record that is missing or already
    uploaded. *)
Lemma uploadImage_skips p s :
  to_upload p (images (this s)) = false -> snd (uploadImage p s) = s.
Proof.
  unfold to_upload, uploadImage, JsMap.has, bind, self.
  destruct (JsMap.get p (images (this s))) as [info|]; simpl; [| reflexivity].
  destruct (isUploaded info); [reflexivity | discriminate].
Qed.

(** An entry other than the one [alter] finds stays in the map. *)
Lemma elem_alter_other {V} (f : V -> V) p (m : JsMap.t V) e v0 :
  e ∈ m -> JsMap.get p m = Some v0 -> e <> (p, v0) -> e ∈ JsMap.alter f p m.
Proof.
  induction m as [|[k v] m IH]; simpl; intros He Hget Hne; [inversion He |].
  destruct (String.eqb_spec k p) as [-> | Hk].
  - inversion Hget; subst v0. apply elem_of_cons in He as [-> | He]; [congruence |].
    now apply elem_of_cons; right.
  - apply elem_of_cons in He as [-> | He]; apply elem_of_cons; [now left | right].
    now apply IH.
Qed.


Lemma uploadImage_keeps_uploaded imgs p :
  preserves (fun s => keeps_uploaded imgs (this s)) (uploadImage p).
Proof.
  intros s r s' H [Hkeys Hup].
  destruct (to_upload p (images (this s))) eqn:Hto.
  - destruct (uploadImage_images _ _ _ _ H) as [f Hthis].
    unfold to_upload in Hto.
    destruct (JsMap.get p (images (this s))) as [info0|] eqn:Hget; [| discriminate].
    rewrite Hthis. split; cbn [images set_images].
    + now rewrite keys_alter.
    + intros e He Hu. eapply elem_alter_other; [now apply Hup | exact Hget |].
      intros ->. cbn [snd] in Hu. rewrite Hu in Hto. discriminate.
  - pose proof (uploadImage_skips p s Hto) as Hs. rewrite H in Hs. cbn [snd] in Hs.
    subst s'. now split.
Qed.

Lemma uploadLoop_keeps_uploaded imgs n : forall i acc,
  preserves (fun s => keeps_uploaded imgs (this s)) (uploadLoop n i acc).
Proof.
  induction n as [|n IH]; intros i acc; simpl; [apply preserves_ret |].
  apply preserves_bind; [apply preserves_keeps, keeps_self | intros m].
  destruct (nth_error (images m) i) as [[path info]|]; [| apply preserves_ret].
  destruct (negb (isUploaded info)); [| apply IH].
  apply preserves_bind; [apply uploadImage_keeps_uploaded | intros ok; apply IH].
Qed.

Lemma returns_uploadLoop n : forall i acc, returns (uploadLoop n i acc).
Proof.
  induction n as [|n IH]; intros i acc; simpl; [apply returns_ret |].
  apply returns_bind; [apply returns_self | intros m].
  destruct (nth_error (images m) i) as [[path info]|]; [| apply returns_ret].
  destruct (negb (isUploaded info)); [| apply IH].
  apply returns_bind; [apply returns_uploadImage | intros ok; apply IH].
Qed.

(** X2.  [uploadAllImages] never throws: whatever the uploader and the
    host do, it returns a boolean.  It adds no record and removes none
    (the keys stay, in their order), and a record that was already
    uploaded is left exactly as it was. *)
Theorem X2_uploadAllImages_keeps_the_rest (s : St) :
  exists ok,
    fst (uploadAllImages s) = Return ok /\
    JsMap.keys (images (this (snd (uploadAllImages s)))) = JsMap.keys (images (this s)) /\
    forall e, e ∈ images (this s) -> isUploaded (snd e) = true ->
              e ∈ images (this (snd (uploadAllImages s))).
Proof.
  destruct (uploadAllImages s) as [r s'] eqn:H. cbn [fst snd].
  unfold uploadAllImages in H. unfold bind at 1 in H. unfold self at 1 in H.
  destruct (returns_uploadLoop _ _ _ _ _ _ H) as [ok ->]. exists ok.
  split; [reflexivity |].
  apply (uploadLoop_keeps_uploaded (images (this s)) _ _ _ _ _ _ H).
  now split.
Qed.

(* ===================================================================== *)
(** * downloadAllImages keeps keys and fields                        *)
(* ===================================================================== *)

Lemma relocated_refl a : relocated a a.
Proof. unfold relocated. tauto. Qed.

Lemma relocated_map_refl imgs m : images m = imgs -> relocated_map imgs m.
Proof.
  intros <-. unfold relocated_map. apply Forall2_same_length_lookup_2; [reflexivity |].
  intros i x y Hx Hy. rewrite Hx in Hy. inversion Hy; subst.
  split; [reflexivity | apply relocated_refl].
Qed.

Lemma keeps_downloadImage url : keeps_this (downloadImage url).
Proof.
  unfold downloadImage, getImageFolderPath. apply keeps_try; [| apply keeps_throw].
  repeat first
    [ apply keeps_ret | apply keeps_self | apply keeps_host | apply keeps_when
    | apply keeps_bind; [| intros ?] ].
Qed.

Lemma nth_error_alter_at {V} (f : V -> V) i (l : JsMap.t V) k v :
  nth_error l i = Some (k, v) -> nth_error (JsMap.alter_at f i l) i = Some (k, f v).
Proof.
  revert i. induction l as [|[k0 v0] l IH]; intros [|i] Hi; try discriminate; simpl in *.
  - now inversion Hi.
  - now apply IH.
Qed.

Lemma relocating_alter_at imgs i f :
  touches_local f ->
  preserves (fun s => relocating imgs i (this s)) (update_images (JsMap.alter_at f i)).
Proof.
  intros Hf. apply preserves_update_images.
  intros m [(k & info & Hi & Hup) Hrel]. split; cbn [images set_images].
  - exists k, (f info). split; [now apply nth_error_alter_at |].
    destruct (Hf info) as (_ & -> & _). exact Hup.
  - unfold relocated_map in *. cbn [images set_images].
    revert Hi Hrel. generalize (images m). clear m. intros l. revert i l.
    induction imgs as [|e0 imgs IH]; intros i l Hi H; inversion H; subst.
    + destruct i; discriminate.
    + destruct y as [k' v']. destruct i as [|i]; simpl.
      * inversion Hi; subst k' v'. constructor; [| assumption].
        destruct H2 as [Hk Hr]. split; [exact Hk |]. cbn [snd] in *.
        destruct (Hf info) as (H1 & H2' & H3' & H4' & H5 & H6 & H7 & H8).
        destruct Hr as (R1 & R2 & R3 & R4 & R5 & R6 & R7 & R8 & R9).
        unfold relocated. repeat split; congruence.
      * constructor; [assumption |]. now apply IH.
Qed.

Lemma touches_set_localPath p : touches_local (set_localPath p).
Proof. intros v. repeat split. Qed.

Lemma touches_set_modifyTime t : touches_local (set_modifyTime t).
Proof. intros v. repeat split. Qed.

Lemma downloadLoop_relocated imgs n : forall i acc,
  preserves (fun s => relocated_map imgs (this s)) (downloadLoop n i acc).
Proof.
  induction n as [|n IH]; intros i acc; [apply preserves_ret |].
  intros s r s' H HR. cbn [downloadLoop] in H.
  unfold bind at 1 in H. unfold self at 1 in H.
  destruct (nth_error (images (this s)) i) as [[path info]|] eqn:Hi.
  2: { apply ret_inv in H as [_ ->]. exact HR. }
  apply bind_inv in H as [(missing & s1 & Hm & H) | [[Hm _] | [Hm _]]].
  2, 3: assert (Hk : this s' = this s);
        [ | now rewrite Hk ].
  2, 3: destruct (isUploaded info); [destruct (String.eqb (localPath info) "") |];
        try (apply ret_inv in Hm as [_ ->]; reflexivity);
        apply bind_inv in Hm as [(p & s2 & Hm & Hm2) | [[Hm _] | [Hm _]]];
        try (apply ret_inv in Hm2 as [_ ->]);
        now apply keeps_host in Hm.
  assert (Hk : this s1 = this s /\ (missing = true -> isUploaded info = true)).
  { destruct (isUploaded info); [destruct (String.eqb (localPath info) "") |].
    - apply ret_inv in Hm as [_ ->]. auto.
    - apply bind_inv in Hm as [(p & s2 & Hm & Hm2) | [[Hm ?] | [Hm ?]]]; try discriminate.
      apply ret_inv in Hm2 as [_ ->]. apply keeps_host in Hm. auto.
    - apply ret_inv in Hm as [Hr ->]. inversion Hr. split; [reflexivity | discriminate]. }
  destruct Hk as [Hk Hup].
  destruct missing.
  2: { eapply IH; [exact H |]. now rewrite Hk. }
  specialize (Hup eq_refl).
  apply bind_inv in H as [(ok & s2 & Hb & H) | [[Hb _] | [Hb _]]].
  all: match type of Hb with
       | ?c _ = _ => assert (Hp : preserves (fun s => relocating imgs i (this s)) c)
       end.
  all: try (apply preserves_try; [| apply preserves_ret];
            apply preserves_bind;
              [apply preserves_keeps, keeps_downloadImage | intros p];
            apply preserves_bind;
              [apply relocating_alter_at, touches_set_localPath | intros _];
            apply preserves_bind;
              [apply preserves_keeps, keeps_host | intros now];
            apply preserves_bind;
              [apply relocating_alter_at, touches_set_modifyTime | intros _];
            apply preserves_ret).
  all: assert (Hr2 : relocating imgs i (this s1))
         by (rewrite Hk; split; [eauto | exact HR]).
  all: pose proof (Hp _ _ _ Hb Hr2) as [_ HR2].
  - eapply IH; eauto.
  - exact HR2.
  - exact HR2.
Qed.

(** X3.  [downloadAllImages] adds no record and removes none, and it
    leaves every key as it was: however the call ends, the map holds the
    same keys in the same order, every record has the remote path, the
    upload mark and the other fields it had, save [localPath] and
    [modifyTime], and a record that is not uploaded is exactly as before.
    So a record that was downloaded keeps its old key under a new
    [localPath]. *)
Theorem X3_downloadAllImages_keeps_keys (s : St) :
  Forall2 (fun e e' => fst e' = fst e /\ relocated (snd e) (snd e'))
    (images (this s)) (images (this (snd (downloadAllImages s)))).
Proof.
  destruct (downloadAllImages s) as [r s'] eqn:H. cbn [snd].
  assert (Hp : preserves (fun s0 => relocated_map (images (this s)) (this s0))
                 downloadAllImages).
  { unfold downloadAllImages.
    apply preserves_bind; [apply preserves_keeps, keeps_self | intros m].
    apply preserves_bind; [apply downloadLoop_relocated | intros ok].
    apply preserves_bind; [apply preserves_keeps, keeps_saveToJson | intros _].
    apply preserves_ret. }
  apply (Hp _ _ _ H). now apply relocated_map_refl.
Qed.

(* ===================================================================== *)
(** * copyImageToFolder                                              *)
(* ===================================================================== *)

(** [mkdir] makes no file, and touches none. *)
Lemma mkdir_file p q c w r w' :
  Adapter.mkdir p w = (r, w') ->
  (nodes w' !! q = Some (File c) <-> nodes w !! q = Some (File c)).
Proof.
  intros H. apply call_inv in H as (f & [[-> ->] | H]); [reflexivity |].
  destruct (nodes w !! p) as [[c'|]|] eqn:Hp; inversion H; subst; try reflexivity.
  simpl. destruct (decide (p = q)) as [-> | Hne].
  - rewrite lookup_insert_eq, Hp. split; discriminate.
  - now rewrite lookup_insert_ne.
Qed.

(** What a copy that returned has done. *)
Lemma copyImageToFolder_copies (src key : string) (s s' : St) :
  copyImageToFolder src s = (Return key, s') ->
  exists c,
    nodes (world s) !! src = Some (File c) /\
    nodes (world s') !! key = Some (File c) /\
    nodes (world s') !! src = Some (File c) /\
    this s' = this s.
Proof.
  intros H. unfold copyImageToFolder in H.
  apply try_catch_inv in H as [(s2 & _ & Hh) | [H _]]; [discriminate |].
  inv_bind H. inv_self Hc.
  inv_bind H. apply host_exists_inv in Hc as (f1 & -> & [Hr | Hr]); [discriminate |].
  inversion Hr; subst; clear Hr.
  inv_bind H.
  assert (Hs0 : this s0 = this s /\
                forall q c, nodes (world s0) !! q = Some (File c) <->
                            nodes (world s) !! q = Some (File c)).
  { apply when_inv in Hc as [[_ Hc] | (_ & _ & ->)]; [| now split].
    apply host_inv in Hc as (w' & Hc & ->). split; [reflexivity |].
    intros q c. cbn [world]. now rewrite (mkdir_file _ q c _ _ _ Hc). }
  destruct Hs0 as [Hthis0 Hfiles].
  inv_bind H. apply host_exists_inv in Hc0 as (f2 & -> & [Hr | Hr]); [discriminate |].
  inversion Hr; subst; clear Hr.
  destruct (present (world s0) _).
  - inv_bind H. apply host_inv in Hc0 as (w1 & Hnow & ->).
    apply Date_now_inv in Hnow as ((t & Ht) & Hnodes1).
    injection Ht as Ht. subst t.
    inv_bind H. apply host_inv in Hc0 as (w2 & Hread & ->).
    apply read_inv in Hread as (f3 & -> & [Hr | (c & Hr & Hsrc)]); [discriminate |].
    injection Hr as Hr. subst c.
    inv_bind H. apply ret_inv in H as [Hk <-]. injection Hk as Hk. subst key.
    apply host_write_inv in Hc0 as (f4 & [[Hr _] | [_ ->]]); [discriminate |].
    cbn [world this at_world] in *. rewrite Hnodes1 in Hsrc. cbn [nodes set_faults] in Hsrc.
    eexists. split; [apply Hfiles; exact Hsrc |]. split; [apply lookup_insert_eq |].
    split; [| exact Hthis0].
    cbn [nodes with_nodes set_faults].
    match goal with
    | |- <[?k := _]> _ !! _ = _ => destruct (decide (k = src)) as [-> | Hne]
    end; [apply lookup_insert_eq |].
    rewrite lookup_insert_ne by exact Hne. rewrite Hnodes1. exact Hsrc.
  - inv_bind H. apply host_inv in Hc0 as (w2 & Hread & ->).
    apply read_inv in Hread as (f3 & -> & [Hr | (c & Hr & Hsrc)]); [discriminate |].
    injection Hr as Hr. subst c.
    inv_bind H. apply ret_inv in H as [Hk <-]. injection Hk as Hk. subst key.
    apply host_write_inv in Hc0 as (f4 & [[Hr _] | [_ ->]]); [discriminate |].
    cbn [world this at_world] in *. cbn [nodes set_faults] in Hsrc.
    eexists. split; [apply Hfiles; exact Hsrc |]. split; [apply lookup_insert_eq |].
    split; [| exact Hthis0].
    cbn [nodes with_nodes set_faults].
    match goal with
    | |- <[?k := _]> _ !! _ = _ => destruct (decide (k = src)) as [-> | Hne]
    end; [apply lookup_insert_eq |].
    now rewrite lookup_insert_ne by exact Hne.
Qed.

(** X4.  When [copyImageToFolder] returns, the path it returns holds the
    bytes of the source, the source is still there with the same bytes,
    and the manager is untouched: the copy is never a move, and never a
    partial write. *)
Theorem X4_copy_holds_the_source (src key : string) (s s' : St) :
  copyImageToFolder src s = (Return key, s') ->
  this s' = this s /\
  exists c,
    nodes (world s) !! src = Some (File c) /\
    nodes (world s') !! key = Some (File c) /\
    nodes (world s') !! src = Some (File c).
Proof.
  intros H. destruct (copyImageToFolder_copies _ _ _ _ H) as (c & Hsrc & Hkey & Hkept & Hthis).
  split; [exact Hthis |]. exists c. auto.
Qed.

Lemma X4_copy_holds_the_source_witness :
  nodes (world (snd (copyImageToFolder "temp/img.png"
                       (fresh_state local_settings "notes/a.md" sample_world))))
    !! "notes/_assets.a/img.png" = Some (File (Raw "PNG")).
Proof.
  destruct (X4_copy_holds_the_source "temp/img.png" "notes/_assets.a/img.png"
              (fresh_state local_settings "notes/a.md" sample_world)
              (snd (copyImageToFolder "temp/img.png"
                      (fresh_state local_settings "notes/a.md" sample_world))))
    as (_ & c & Hsrc & Hkey & _).
  - vm_compute. reflexivity.
  - rewrite Hkey. vm_compute in Hsrc. congruence.
Defined.

(* ===================================================================== *)
(** * addImage without its source; removeImage and the reference     *)
(* ===================================================================== *)

Lemma halts_copyImageToFolder src : halts (copyImageToFolder src).
Proof.
  unfold copyImageToFolder. apply halts_try; [| apply halts_throw].
  repeat first
    [ apply halts_ret
    | apply returns_halts, returns_self
    | apply halts_when
    | apply halts_host;
      first [ apply halts_exists | apply halts_mkdir | apply halts_read
            | apply halts_write | apply halts_Date_now ]
    | apply halts_bind; [| intros ?]
    | match goal with |- halts (if ?b then _ else _) => destruct b end ].
Qed.

(** X5.  Without a file at the source path, [addImage] throws, whatever
    else the host does, and the manager is left as it was: no record is
    made for a copy that was not. *)
Theorem X5_addImage_needs_the_source (src : string) (s : St) :
  (forall c, nodes (world s) !! src <> Some (File c)) ->
  fst (addImage src s) = Throw /\ this (snd (addImage src s)) = this s.
Proof.
  intros Hsrc. destruct (addImage src s) as [r s'] eqn:H. cbn [fst snd].
  assert (Hno : forall key sc, copyImageToFolder src s <> (Return key, sc)).
  { intros key sc Hcopy.
    destruct (copyImageToFolder_copies _ _ _ _ Hcopy) as (c & Hc & _).
    exact (Hsrc c Hc). }
  unfold addImage in H.
  apply try_catch_inv in H as [(s1 & Hb & Hh) | [Hb Hne]].
  - inversion Hh; subst. split; [reflexivity |].
    apply bind_inv in Hb as [(key & sc & Hcopy & _) | [[Hcopy _] | [Hcopy ?]]];
      [now apply Hno in Hcopy | | discriminate].
    exact (keeps_copyImageToFolder _ _ _ _ Hcopy).
  - exfalso.
    apply bind_inv in Hb as [(key & sc & Hcopy & _) | [[Hcopy ?] | [Hcopy _]]];
      [now apply Hno in Hcopy | contradiction |].
    exact (halts_copyImageToFolder _ _ _ _ Hcopy eq_refl).
Qed.

Lemma X5_addImage_needs_the_source_witness :
  fst (addImage "temp/none.png" (fresh_state local_settings "notes/a.md" sample_world))
  = Throw.
Proof.
  apply (X5_addImage_needs_the_source "temp/none.png"
           (fresh_state local_settings "notes/a.md" sample_world)).
  intros c. vm_compute. discriminate.
Defined.

(** A [removeImage] that returned true has deleted the entry. *)
Lemma removeImage_true p s s' :
  removeImage p s = (Return true, s') ->
  this s' = set_images (JsMap.delete p (images (this s))) (this s).
Proof.
  intros H. unfold removeImage in H.
  apply try_catch_inv in H as [(s1 & _ & Hh) | [H _]].
  { apply ret_inv in Hh as [Hh _]. discriminate. }
  inv_bind H. inv_self Hc.
  destruct (negb (JsMap.has p (images (this s)))).
  { apply ret_inv in H as [H _]. discriminate. }
  destruct (JsMap.get p (images (this s))) as [info|].
  2: { apply ret_inv in H as [H _]. discriminate. }
  inv_bind H. pose proof (keeps_host _ _ _ _ Hc) as Hk0.
  inv_bind H.
  assert (Hk1 : this s1 = this s0).
  { apply when_inv in Hc0 as [[_ Hc0] | (_ & _ & ->)]; [| reflexivity].
    exact (keeps_host _ _ _ _ Hc0). }
  inv_bind H. apply update_this_inv in Hc1 as [_ ->].
  inv_bind H. apply ret_inv in H as [_ <-].
  rewrite (keeps_saveToJson _ _ _ Hc1). cbn [this]. now rewrite Hk1, Hk0.
Qed.

Lemma has_delete {V} p (m : JsMap.t V) : JsMap.has p (JsMap.delete p m) = false.
Proof.
  unfold JsMap.has, JsMap.delete.
  induction m as [|[k v] m IH]; simpl; [reflexivity |].
  destruct (String.eqb k p) eqn:Hk; simpl; [exact IH |]. now rewrite Hk.
Qed.

(** X6.  After a [removeImage] that returned true the path no longer
    names a record: [getMarkdownReference] gives the empty text for
    it. *)
Theorem X6_removed_image_has_no_reference (p : string) (s s' : St) :
  removeImage p s = (Return true, s') -> getMarkdownReference (this s') p = "".
Proof.
  intros H. apply getMarkdownReference_unknown.
  rewrite (removeImage_true _ _ _ H). cbn [images set_images]. apply has_delete.
Qed.

Lemma X6_removed_image_has_no_reference_witness :
  let s := {| this := one_image; world := one_image_world [] |} in
  getMarkdownReference one_image "notes/_assets.a/img.png" = "![img](_assets.a/img.png)" /\
  getMarkdownReference (this (snd (removeImage "notes/_assets.a/img.png" s)))
    "notes/_assets.a/img.png" = "".
Proof.
  intros s. split; [vm_compute; reflexivity |].
  apply (X6_removed_image_has_no_reference "notes/_assets.a/img.png" s).
  vm_compute. reflexivity.
Defined.

(** X7.  [getMarkdownReference] gives the empty text exactly for the
    paths that are no key of the map: the reference of a record is never
    empty. *)
Theorem X7_reference_empty_iff_unknown (m : DocumentImageManager) (p : string) :
  getMarkdownReference m p = "" <-> JsMap.has p (images m) = false.
Proof.
  split; [| apply getMarkdownReference_unknown].
  intros H. destruct (JsMap.has p (images m)) eqn:Hhas; [| reflexivity].
  destruct (has_true_get _ _ Hhas) as [info Hget].
  rewrite (getMarkdownReference_known _ _ _ Hget) in H. discriminate.
Qed.

(* ===================================================================== *)
(** * addImage without upload                                        *)
(* ===================================================================== *)





(* ===================================================================== *)
(** * getManager and removeManager                                   *)
(* ===================================================================== *)

(** [getManager] on a path that is not cached: a new object is made,
    loaded and cached. *)
Lemma getManager_miss p fs :
  managers (factory fs) !! p = None ->
  exists fs' m,
    getManager p fs = (Return (fresh_ref (store (factory fs))), fs') /\
    managers (factory fs') = <[p := fresh_ref (store (factory fs))]> (managers (factory fs)) /\
    store (factory fs') = <[fresh_ref (store (factory fs)) := m]> (store (factory fs)) /\
    plugin_settings (factory fs') = plugin_settings (factory fs) /\
    mdPath m = p /\ settings m = plugin_settings (factory fs).
Proof.
  intros Hmiss. unfold getManager. unfold bind at 1. unfold the_factory at 1.
  rewrite Hmiss. set (ref := fresh_ref (store (factory fs))).
  unfold bind at 1.
  destruct (new_manager (plugin_settings (factory fs)) p (fworld fs)) as [r w1] eqn:Hnew.
  destruct (new_manager_inv _ _ _ _ _ Hnew) as ((folder & ->) & _).
  unfold bind at 1. unfold invoke. cbn [factory store fworld].
  rewrite lookup_insert_eq.
  destruct (loadFromJson _) as [rl sl] eqn:Hload.
  destruct (loadFromJson_outcome _ _ _ Hload) as (found & -> & Hkeep & _).
  cbn [this] in Hkeep.
  unfold bind, update_managers, ret. cbn [factory managers store plugin_settings fworld].
  eexists _, (this sl). split; [reflexivity |]. cbn [factory managers store plugin_settings].
  split; [reflexivity |]. split; [now rewrite insert_insert_eq |].
  split; [reflexivity |].
  destruct (this sl); cbn in *. inversion Hkeep; subst. auto.
Qed.

(** X9.  [getManager] caches: once it has returned a manager for a
    path, asking again for the same path gives the same object and
    changes nothing, neither in the factory nor in the vault. *)
Theorem X9_getManager_caches (p : string) (fs fs1 : FSt) (ref : nat) :
  getManager p fs = (Return ref, fs1) -> getManager p fs1 = (Return ref, fs1).
Proof.
  intros H.
  assert (Hin : managers (factory fs1) !! p = Some ref).
  { destruct (managers (factory fs) !! p) as [r0|] eqn:Hp.
    - unfold getManager, bind, the_factory in H. rewrite Hp in H.
      inversion H; subst. exact Hp.
    - destruct (getManager_miss _ _ Hp) as (fs' & m & Hg & Hm & _).
      rewrite Hg in H. inversion H; subst. rewrite Hm. apply lookup_insert_eq. }
  unfold getManager, bind, the_factory. now rewrite Hin.
Qed.

Lemma X9_getManager_caches_witness :
  let fs := {| factory := {| plugin_settings := local_settings; managers := ∅; store := ∅ |};
               fworld := sample_world |} in
  getManager "notes/a.md" (snd (getManager "notes/a.md" fs))
  = (Return 0%nat, snd (getManager "notes/a.md" fs)).
Proof.
  intros fs. apply (X9_getManager_caches "notes/a.md" fs).
  vm_compute. reflexivity.
Defined.

(** X10.  [getManager] on a path that is not cached never throws: it
    makes a new manager object for that path with the plugin's settings,
    under a reference no object had, caches it under the path, and leaves
    every other cache entry and every other object as they were. *)
Theorem X10_getManager_makes_a_manager (p : string) (fs : FSt) :
  managers (factory fs) !! p = None ->
  exists ref fs' m,
    getManager p fs = (Return ref, fs') /\
    store (factory fs) !! ref = None /\
    store (factory fs') !! ref = Some m /\ mdPath m = p /\
    settings m = plugin_settings (factory fs) /\
    managers (factory fs') !! p = Some ref /\
    (forall q, q <> p -> managers (factory fs') !! q = managers (factory fs) !! q) /\
    (forall r, r <> ref -> store (factory fs') !! r = store (factory fs) !! r).
Proof.
  intros Hmiss.
  destruct (getManager_miss _ _ Hmiss) as (fs' & m & Hg & Hm & Hs & _ & Hp & Hset).
  exists (fresh_ref (store (factory fs))), fs', m.
  split; [exact Hg |].
  split.
  { apply not_elem_of_dom. unfold fresh_ref. apply is_fresh. }
  rewrite Hm, Hs.
  split; [apply lookup_insert_eq |]. split; [exact Hp |]. split; [exact Hset |].
  split; [apply lookup_insert_eq |].
  split; intros x Hx; now apply lookup_insert_ne.
Qed.

Lemma X10_getManager_makes_a_manager_witness :
  let fs := {| factory := {| plugin_settings := local_settings; managers := ∅; store := ∅ |};
               fworld := sample_world |} in
  exists ref fs' m,
    getManager "notes/a.md" fs = (Return ref, fs') /\
    store (factory fs') !! ref = Some m /\ mdPath m = "notes/a.md".
Proof.
  intros fs.
  destruct (X10_getManager_makes_a_manager "notes/a.md" fs)
    as (ref & fs' & m & Hg & _ & Hm & Hp & _).
  - reflexivity.
  - exists ref, fs', m. auto.
Defined.

(** X11.  [removeManager] makes the factory forget the object: the next
    [getManager] for the path does not give the old object back but a
    new one, built from what the vault holds; what the old object had in
    memory only is not seen again. *)
Theorem X11_removeManager_forgets (p : string) (fs : FSt) :
  exists ref fs' m,
    getManager p (snd (removeManager p fs)) = (Return ref, fs') /\
    store (factory fs) !! ref = None /\
    store (factory fs') !! ref = Some m /\ mdPath m = p /\
    forall q, q <> p -> managers (factory fs') !! q = managers (factory fs) !! q.
Proof.
  set (fs1 := snd (removeManager p fs)).
  assert (Hmiss : managers (factory fs1) !! p = None) by apply lookup_delete_eq.
  destruct (getManager_miss _ _ Hmiss) as (fs' & m & Hg & Hm & Hs & _ & Hp & _).
  exists (fresh_ref (store (factory fs1))), fs', m.
  split; [exact Hg |].
  split.
  { apply not_elem_of_dom. unfold fresh_ref. apply is_fresh. }
  rewrite Hm, Hs.
  split; [apply lookup_insert_eq |]. split; [exact Hp |].
  intros q Hq. rewrite lookup_insert_ne by congruence.
  cbn. now apply lookup_delete_ne.
Qed.

(* ===================================================================== *)
(** * renameImageFolder without the old folder                       *)
(* ===================================================================== *)

(** X12.  When the old asset folder is not in the vault,
    [renameImageFolder] on a manager with records moves nothing and
    changes nothing in the vault, and still switches the manager to the
    new document path and to the folder that path resolves to.  It
    returns true, unless the lookup of the old folder itself fails: then
    it throws, and the manager keeps the new paths all the same, since
    the paths are set before the [try] that would restore them. *)
Theorem X12_rename_without_old_folder (newMdPath : string) (s : St) :
  images (this s) <> [] ->
  present (world s) (imageFolderPath (this s)) = false ->
  let run := renameImageFolder newMdPath s in
  (fst run = Return true \/ fst run = Throw) /\
  mdPath (this (snd run)) = newMdPath /\
  fst (resolveFolder (settings (this s)) newMdPath (world s))
  = Return (imageFolderPath (this (snd run))) /\
  images (this (snd run)) = images (this s) /\
  settings (this (snd run)) = settings (this s) /\
  nodes (world (snd run)) = nodes (world s).
Proof.
  intros Hne Hmissing run. subst run.
  destruct (renameImageFolder newMdPath s) as [r s'] eqn:H. cbn [fst snd].
  unfold renameImageFolder in H. unfold bind at 1 in H. unfold self at 1 in H.
  destruct (images (this s)) as [|e rest] eqn:Himgs; [contradiction |].
  cbn [JsMap.size length Nat.eqb] in H.
  apply bind_inv in H as [(oldJson & s0 & Hc & H) | [[Hc _] | [Hc _]]];
    apply getJsonPath_inv in Hc as [Hr ->]; try discriminate. clear Hr.
  apply bind_inv in H as [(u & s0 & Hc & H) | [[Hc _] | [Hc _]]];
    apply update_this_inv in Hc as [Hr ->]; try discriminate. clear Hr.
  apply bind_inv in H as [(folder & s0 & Hc & H) | [[Hc _] | [Hc _]]].
  2, 3: exfalso; unfold getImageFolderPath, bind, self in Hc;
        apply host_inv in Hc as (w1 & Hc & _);
        apply resolveFolder_inv in Hc as ((x & ?) & _); discriminate.
  unfold getImageFolderPath in Hc. unfold bind at 1 in Hc. unfold self at 1 in Hc.
  apply host_inv in Hc as (w1 & Hres & ->). cbn [this world settings mdPath set_mdPath] in Hres.
  destruct (resolveFolder_inv _ _ _ _ _ Hres) as (_ & Hn1 & _).
  apply bind_inv in H as [(u2 & s0 & Hc & H) | [[Hc _] | [Hc _]]];
    apply update_this_inv in Hc as [Hr ->]; try discriminate. clear Hr.
  apply bind_inv in H as [(newJson & s0 & Hc & H) | [[Hc _] | [Hc _]]];
    apply getJsonPath_inv in Hc as [Hr ->]; try discriminate. clear Hr.
  cbn [this world] in H.
  assert (Hfolder : fst (resolveFolder (settings (this s)) newMdPath (world s))
                    = Return folder) by now rewrite Hres.
  apply bind_inv in H as [(hasOld & s0 & Hc & H) | [[Hc ->] | [Hc ->]]];
    apply host_exists_inv in Hc as (f1 & -> & [Hr | Hr]); try discriminate.
  - inversion Hr; subst hasOld; clear Hr. cbn [world] in H.
    assert (Hp : present w1 (imageFolderPath (this s)) = false).
    { unfold present in *. now rewrite Hn1. }
    rewrite Hp in H. cbn [negb] in H. apply ret_inv in H as [-> ->].
    cbn [this world at_world mdPath imageFolderPath images settings
         set_imageFolderPath set_mdPath nodes set_faults].
    rewrite Himgs. auto 10.
  - cbn [this world at_world mdPath imageFolderPath images settings
         set_imageFolderPath set_mdPath nodes set_faults].
    rewrite Himgs. auto 10.
Qed.

Lemma X12_rename_without_old_folder_witness :
  let s := {| this := one_image; world := sample_world |} in
  let run := renameImageFolder "notes/b.md" s in
  fst run = Return true /\
  mdPath (this (snd run)) = "notes/b.md" /\
  imageFolderPath (this (snd run)) = "notes/_assets.{{filename}}" /\
  images (this (snd run)) = images one_image.
Proof.
  intros s run.
  destruct (X12_rename_without_old_folder "notes/b.md" s)
    as (_ & Hmd & _ & Himgs & _).
  - discriminate.
  - vm_compute. reflexivity.
  - split; [vm_compute; reflexivity |]. split; [exact Hmd |].
    split; [vm_compute; reflexivity | exact Himgs].
Defined.

(* ===================================================================== *)
(** * One address per file                                           *)
(* ===================================================================== *)

Section command_uploader_urls.
Import CustomUploader.
Variable parseInt : string -> Z.
Variable P : string -> Prop.
Hypothesis P_matched :
  forall line index url, match_line line = Some (index, url) -> P (trim url).

Lemma set_index_Forall k v m :
  P v -> Forall (fun e => P (snd e)) m -> Forall (fun e => P (snd e)) (set_index k v m).
Proof.
  intros Hv. induction m as [|[k' v'] m IH]; simpl; intros H.
  - repeat constructor. exact Hv.
  - inversion H; subst. destruct (Z.eqb k' k); constructor; auto.
Qed.

Lemma collect_Forall lines : forall m,
  Forall (fun e => P (snd e)) m ->
  Forall (fun e => P (snd e)) (fold_left (collect parseInt) lines m).
Proof.
  induction lines as [|line lines IH]; intros m H; simpl; [exact H |].
  apply IH. unfold collect.
  destruct (match_line line) as [[index url]|] eqn:Hm; [| exact H].
  apply set_index_Forall; [| exact H]. eapply P_matched, Hm.
Qed.

Lemma sort_by_index_Forall l :
  Forall (fun e => P (snd e)) l -> Forall (fun e => P (snd e)) (sort_by_index l).
Proof.
  unfold sort_by_index. induction l as [|e l IH]; simpl; intros H; [constructor |].
  inversion H as [|? ? He Hl]; subst. specialize (IH Hl).
  clear -He IH. induction (fold_right insert_by_index [] l) as [|e' r IHr]; simpl.
  - repeat constructor. exact He.
  - inversion IH; subst. destruct (Z.leb (fst e) (fst e')); repeat constructor; auto.
Qed.

Lemma parseURL_Forall result fileCount urls :
  parseURL parseInt result fileCount = Some urls ->
  length urls = fileCount /\ Forall P urls /\
  after "Successfully uploaded:" result <> None.
Proof.
  unfold parseURL.
  destruct (after "Successfully uploaded:" result) as [rest|]; [| discriminate].
  set (urlMap := fold_left _ _ _).
  destruct (length (map snd (sort_by_index urlMap)) =? 0)%nat; [discriminate |].
  destruct (length (map snd (sort_by_index urlMap)) =? fileCount)%nat eqn:Hn;
    [| discriminate].
  intros [= <-]. split; [now apply Nat.eqb_eq |]. split; [| discriminate].
  apply Forall_map, sort_by_index_Forall, collect_Forall. constructor.
Qed.

End command_uploader_urls.

Lemma match_line_http line index url :
  CustomUploader.match_line line = Some (index, url) -> is_http (CustomUploader.trim url).
Proof.
  unfold CustomUploader.match_line.
  destruct (CustomUploader.strip_prefix "[" line) as [r1|]; [| discriminate].
  destruct (CustomUploader.span Obj.is_digit r1) as [digits r2].
  destruct (String.eqb digits ""); [discriminate |].
  destruct (CustomUploader.strip_prefix "]" r2) as [r3|]; [| discriminate].
  destruct (CustomUploader.strip_prefix "http" _) as [r4|]; [| discriminate].
  destruct (CustomUploader.strip_prefix "s" r4) as [r|].
  - destruct (CustomUploader.strip_prefix "://" r) as [r6|]; [| discriminate].
    destruct (CustomUploader.url_body r6) as [body|]; [| discriminate].
    intros [= _ <-]. right. unfold CustomUploader.trim. simpl.
    change (CustomUploader.is_space "h") with false.
    change (CustomUploader.is_space "t") with false.
    change (CustomUploader.is_space "p") with false.
    change (CustomUploader.is_space "s") with false.
    change (CustomUploader.is_space ":") with false.
    change (CustomUploader.is_space "/") with false.
    cbn [snd CustomUploader.trim_end]. 
    change (CustomUploader.is_space "h") with false.
    change (CustomUploader.is_space "t") with false.
    change (CustomUploader.is_space "p") with false.
    change (CustomUploader.is_space "s") with false.
    change (CustomUploader.is_space ":") with false.
    change (CustomUploader.is_space "/") with false.
    rewrite !andb_false_r. reflexivity.
  - destruct (CustomUploader.strip_prefix "://" r4) as [r6|]; [| discriminate].
    destruct (CustomUploader.url_body r6) as [body|]; [| discriminate].
    intros [= _ <-]. left. unfold CustomUploader.trim. simpl.
    change (CustomUploader.is_space "h") with false.
    cbn [snd CustomUploader.trim_end]. 
    change (CustomUploader.is_space "h") with false.
    change (CustomUploader.is_space "t") with false.
    change (CustomUploader.is_space "p") with false.
    change (CustomUploader.is_space ":") with false.
    change (CustomUploader.is_space "/") with false.
    rewrite !andb_false_r. reflexivity.
Qed.

(** X13.  The command uploader answers only when the command is set, ran
    without error, wrote nothing to its error stream and printed the
    line [Successfully uploaded:]; and then its answer is the
    comma-joined list of exactly one address per file it was handed,
    each starting with [http://] or [https://].  In every other case it
    rejects. *)
Theorem X13_uploader_answers_one_url_per_file (parseInt : string -> Z)
    (command files result : string) (ended : CustomUploader.exec_result) :
  CustomUploader.upload parseInt command files ended = Some result ->
  command <> "" /\
  (exists stdout,
      ended = CustomUploader.Finished stdout "" /\
      CustomUploader.after "Successfully uploaded:" stdout <> None) /\
  exists urls,
    result = CustomUploader.join urls /\
    length urls = length (JS.split "," files) /\
    Forall is_http urls.
Proof.
  unfold CustomUploader.upload.
  destruct (String.eqb_spec command ""); [discriminate |].
  destruct ended as [|stdout stderr]; [discriminate |].
  destruct (String.eqb_spec stderr "") as [-> | Herr]; [| discriminate].
  cbn [negb].
  destruct (CustomUploader.parseURL _ _ _) as [urls|] eqn:Hp; [| discriminate].
  intros [= <-].
  destruct (parseURL_Forall parseInt is_http match_line_http _ _ _ Hp) as (Hlen & Hall & Hmark).
  split; [assumption |]. split; [eauto |]. eauto.
Qed.

Lemma X13_uploader_answers_one_url_per_file_witness :
  let parseInt := fun s => match Obj.digits_value 0 s with
                           | Some n => Z.of_N n
                           | None => 0
                           end in
  let stdout := "uploading" +:+ String "010" "Successfully uploaded:" +:+
                String "010" "[2] https://x/2.png" +:+
                String "010" "[1] http://x/1.png" in
  exists urls,
    "http://x/1.png,https://x/2.png" = CustomUploader.join urls /\
    length urls = 2%nat.
Proof.
  intros parseInt stdout.
  destruct (X13_uploader_answers_one_url_per_file parseInt "up -f" "a.png,b.png"
              "http://x/1.png,https://x/2.png" (CustomUploader.Finished stdout ""))
    as (_ & _ & urls & Hjoin & Hlen & _).
  - vm_compute. reflexivity.
  - exists urls. split; [exact Hjoin | exact Hlen].
Defined.

(* ===================================================================== *)
(** * The file helpers                                                   *)
(* ===================================================================== *)

Section file_helper_facts.
Import Adapter.

Lemma nodes_set_faults f w : nodes (set_faults f w) = nodes w.
Proof. reflexivity. Qed.

Lemma set_faults_twice f g w : set_faults f (set_faults g w) = set_faults f w.
Proof. reflexivity. Qed.

Lemma remove_file_inv p w r w' :
  remove p w = (r, w') ->
  exists f,
    (r = Throw /\ w' = set_faults f w) \/
    (r = Return tt /\ (exists c, nodes w !! p = Some (File c)) /\
     w' = with_nodes (delete p) (set_faults f w)).
Proof.
  intros H. apply call_inv in H as (f & [[-> ->] | H]); exists f; [auto |].
  destruct (nodes w !! p) as [[c|]|]; inversion H; subst; eauto.
Qed.

Lemma mkdir_folder_inv p w r w' :
  mkdir p w = (r, w') ->
  exists f,
    (r = Throw /\ w' = set_faults f w) \/
    (r = Return tt /\ nodes w !! p = Some Folder /\ w' = set_faults f w) \/
    (r = Return tt /\ nodes w !! p = None /\
     w' = with_nodes (insert p Folder) (set_faults f w)).
Proof.
  intros H. apply call_inv in H as (f & [[-> ->] | H]); exists f; [auto |].
  destruct (nodes w !! p) as [[c|]|] eqn:Hp; inversion H; subst; auto.
Qed.

Lemma write_file_inv p c w r w' :
  write p c w = (r, w') ->
  exists f,
    (r = Throw /\ w' = set_faults f w) \/
    (r = Return tt /\ nodes w !! p <> Some Folder /\
     w' = with_nodes (insert p (File c)) (set_faults f w)).
Proof.
  intros H. apply call_inv in H as (f & [[-> ->] | H]); exists f; [auto |].
  destruct (nodes w !! p) as [[c'|]|] eqn:Hp; inversion H; subst; auto;
    right; repeat split; congruence.
Qed.

Lemma stat_type_inv p w r w' :
  Files.stat_type p w = (r, w') ->
  exists f, w' = set_faults f w /\
    (r = Throw \/
     r = Return (match nodes w !! p with
                 | Some (File _) => Some "file"
                 | Some Folder => Some "folder"
                 | None => None
                 end)).
Proof.
  intros H. apply call_inv in H as (f & [[-> ->] | H]); exists f; [auto |].
  destruct (nodes w !! p) as [[c'|]|]; inversion H; subst; auto.
Qed.

Lemma present_true w p : present w p = true <-> is_Some (nodes w !! p).
Proof. unfold present. apply bool_decide_eq_true. Qed.

Lemma present_false w p : present w p = false <-> nodes w !! p = None.
Proof.
  unfold present. rewrite bool_decide_eq_false, <- eq_None_not_Some. reflexivity.
Qed.

(** What [deleteFile] does, case by case. *)
Lemma deleteFile_cases path w :
  let p := Path.normalizePath path in
  exists f,
    (Files.deleteFile path w = (Return false, set_faults f w)) \/
    (Files.deleteFile path w = (Return true, with_nodes (delete p) (set_faults f w)) /\
     exists c, nodes w !! p = Some (File c)).
Proof.
  intros p. destruct (Files.deleteFile path w) as [r w'] eqn:H.
  unfold Files.deleteFile in H. fold p in H.
  apply try_catch_inv in H as [(w1 & Hc & Hh) | [Hc Hne]].
  - apply ret_inv in Hh as [-> ->].
    apply bind_inv in Hc as [(found & w2 & He & Hc) | [[He _] | [_ [=]]]].
    + apply exists_inv in He as (f & -> & [[=] | [= ->]]).
      destruct (present w p); [| apply ret_inv in Hc as [[=] _]].
      apply bind_inv in Hc as [(u & w3 & Hr & Hc) | [[Hr _] | [_ [=]]]].
      * apply ret_inv in Hc as [[=] _].
      * apply remove_file_inv in Hr as (g & [[_ ->] | ([=] & _)]).
        exists g. left. reflexivity.
    + apply exists_inv in He as (f & -> & _). exists f. now left.
  - apply bind_inv in Hc as [(found & w2 & He & Hc) | [[He ->] | [He ->]]].
    + apply exists_inv in He as (f & -> & [[=] | [= ->]]).
      destruct (present w p) eqn:Hp.
      * apply bind_inv in Hc as [(u & w3 & Hr & Hc) | [[Hr ->] | [Hr ->]]].
        -- apply ret_inv in Hc as [-> ->].
           apply remove_file_inv in Hr as (g & [[[=] _] | (_ & Hfile & ->)]).
           exists g. right. split; [reflexivity | exact Hfile].
        -- congruence.
        -- apply remove_file_inv in Hr as (g & [[[=] _] | ([=] & _)]).
      * apply ret_inv in Hc as [-> ->]. exists f. now left.
    + congruence.
    + apply exists_inv in He as (f & _ & [[=] | [=]]).
Qed.

(** What [ensureDirectory] does, case by case. *)
Lemma ensureDirectory_cases path w :
  let p := Path.normalizePath path in
  exists f,
    Files.ensureDirectory path w = (Return false, set_faults f w) \/
    (Files.ensureDirectory path w = (Return true, set_faults f w) /\
     nodes w !! p = Some Folder) \/
    (Files.ensureDirectory path w =
       (Return true, with_nodes (insert p Folder) (set_faults f w)) /\
     nodes w !! p = None).
Proof.
  intros p. destruct (Files.ensureDirectory path w) as [r w'] eqn:H.
  unfold Files.ensureDirectory in H. fold p in H.
  apply try_catch_inv in H as [(w1 & Hc & Hh) | [Hc Hne]].
  - apply ret_inv in Hh as [-> ->].
    apply bind_inv in Hc as [(found & w2 & He & Hc) | [[He _] | [_ [=]]]].
    + apply exists_inv in He as (f & -> & [[=] | [= ->]]).
      destruct (present w p).
      * apply bind_inv in Hc as [(st & w3 & Hs & Hc) | [[Hs _] | [_ [=]]]].
        -- destruct st as [type|]; [destruct (String.eqb type "folder") |];
             apply ret_inv in Hc as [[=] _].
        -- apply stat_type_inv in Hs as (g & -> & _). exists g. now left.
      * apply bind_inv in Hc as [(u & w3 & Hm & Hc) | [[Hm _] | [_ [=]]]].
        -- apply ret_inv in Hc as [[=] _].
        -- apply mkdir_folder_inv in Hm
             as (g & [[_ ->] | [([=] & _) | ([=] & _)]]).
           exists g. now left.
    + apply exists_inv in He as (f & -> & _). exists f. now left.
  - apply bind_inv in Hc as [(found & w2 & He & Hc) | [[He ->] | [He ->]]].
    + apply exists_inv in He as (f & -> & [[=] | [= ->]]).
      destruct (present w p) eqn:Hp.
      * apply bind_inv in Hc as [(st & w3 & Hs & Hc) | [[Hs ->] | [Hs ->]]].
        -- apply stat_type_inv in Hs as (g & -> & [[=] | [= ->]]).
           exists g. try rewrite nodes_set_faults in Hc.
           destruct (nodes w !! p) as [[c|]|] eqn:Hn; simpl in Hc;
             apply ret_inv in Hc as [-> ->]; auto.
        -- congruence.
        -- apply stat_type_inv in Hs as (g & _ & [[=] | [=]]).
      * apply bind_inv in Hc as [(u & w3 & Hm & Hc) | [[Hm ->] | [Hm ->]]].
        -- apply ret_inv in Hc as [-> ->].
           apply mkdir_folder_inv in Hm
             as (g & [[[=] _] | [(_ & Hn & ->) | (_ & Hn & ->)]]);
             exists g; try rewrite nodes_set_faults in Hn; auto.
        -- congruence.
        -- apply mkdir_folder_inv in Hm
             as (g & [[[=] _] | [([=] & _) | ([=] & _)]]).
    + congruence.
    + apply exists_inv in He as (f & _ & [[=] | [=]]).
Qed.

(** With no failure scheduled an adapter call goes straight to its action
    on the nodes. *)
Lemma call_quiet {A} (k : gmap string node -> M World A) w :
  faults w = [] -> (io ;;; ns <- peek ;; k ns) w = k (nodes w) w.
Proof.
  intros Hf. unfold bind at 1. unfold io. rewrite Hf. reflexivity.
Qed.

Lemma faults_with_nodes g w : faults (with_nodes g w) = faults w.
Proof. reflexivity. Qed.

End file_helper_facts.

(** X14.  [deleteFile] never throws.  It answers [true] only when a file
    was at the normalized path, and then that entry is gone and nothing
    else changed; when it answers [false] the vault is as it was.  With
    no adapter failure it answers [true] exactly when a file is there: a
    missing path and a folder both give [false]. *)
Theorem X14_deleteFile_reports_what_it_removed (path : string) (w : World) :
  let p := Path.normalizePath path in
  let run := Files.deleteFile path w in
  (exists b, fst run = Return b /\
     (b = true -> (exists c, nodes w !! p = Some (File c)) /\
                  nodes (snd run) = delete p (nodes w)) /\
     (b = false -> nodes (snd run) = nodes w)) /\
  (faults w = [] ->
     fst run = Return (match nodes w !! p with Some (File _) => true | _ => false end)).
Proof.
  intros p run. split.
  - destruct (deleteFile_cases path w) as (f & [H | [H Hfile]]);
      fold p in H; subst run; rewrite H; simpl.
    + exists false. repeat split; congruence.
    + fold p in Hfile. exists true. repeat split; congruence.
  - intros Hf. subst run. unfold Files.deleteFile, try_catch. fold p.
    unfold Adapter.exists_, Adapter.remove.
    unfold bind at 1. rewrite (call_quiet _ w Hf). unfold ret at 1.
    destruct (nodes w !! p) as [[c|]|] eqn:Hn.
    + rewrite bool_decide_eq_true_2 by eauto.
      unfold bind at 1. rewrite (call_quiet _ w Hf), Hn. reflexivity.
    + rewrite bool_decide_eq_true_2 by eauto.
      unfold bind at 1. rewrite (call_quiet _ w Hf), Hn. reflexivity.
    + rewrite bool_decide_eq_false_2 by (intros [? ?]; discriminate).
      reflexivity.
Qed.

(** X15.  [ensureDirectory] never throws.  When it answers [true] a folder
    is at the normalized path and every other path is as before; when it
    answers [false] the vault is unchanged; a file standing at the path is
    never replaced.  With no adapter failure the answer is [false] exactly
    when a file stands at the path. *)
Theorem X15_ensureDirectory_makes_a_folder (path : string) (w : World) :
  let p := Path.normalizePath path in
  let run := Files.ensureDirectory path w in
  (exists b, fst run = Return b /\
     (b = true -> nodes (snd run) !! p = Some Folder /\
                  forall q, q <> p -> nodes (snd run) !! q = nodes w !! q) /\
     (b = false -> nodes (snd run) = nodes w) /\
     (forall c, nodes w !! p = Some (File c) ->
                b = false /\ nodes (snd run) !! p = Some (File c))) /\
  (faults w = [] ->
     fst run = Return (match nodes w !! p with Some (File _) => false | _ => true end)).
Proof.
  intros p run. split.
  - destruct (ensureDirectory_cases path w) as (f & [H | [[H Hn] | [H Hn]]]);
      fold p in H; try fold p in Hn; subst run; rewrite H; simpl.
    + exists false. repeat split; congruence.
    + exists true. repeat split; congruence.
    + exists true. split; [reflexivity |]. split; [| split; congruence].
      intros _. split; [apply lookup_insert_eq |].
      intros q Hq. now apply lookup_insert_ne.
  - intros Hf. subst run. unfold Files.ensureDirectory, try_catch. fold p.
    unfold Adapter.exists_, Adapter.mkdir, Files.stat_type.
    unfold bind at 1. rewrite (call_quiet _ w Hf). unfold ret at 1.
    destruct (nodes w !! p) as [[c|]|] eqn:Hn.
    + rewrite bool_decide_eq_true_2 by eauto.
      unfold bind at 1. rewrite (call_quiet _ w Hf), Hn. reflexivity.
    + rewrite bool_decide_eq_true_2 by eauto.
      unfold bind at 1. rewrite (call_quiet _ w Hf), Hn. reflexivity.
    + rewrite bool_decide_eq_false_2 by (intros [? ?]; discriminate).
      unfold bind at 1. rewrite (call_quiet _ w Hf), Hn. reflexivity.
Qed.

Section move_facts.
Import Adapter.

(** The directory step of [moveFile]: it never throws, and it either
    leaves the nodes alone or puts a folder where nothing was. *)
Lemma moveFile_directory_step targetDir w r w' :
  (if String.eqb targetDir "" then ret false
   else ok <- Files.ensureDirectory targetDir ;; ret (negb ok)) w = (r, w') ->
  exists stop, r = Return stop /\
    (nodes w' = nodes w \/
     stop = false /\
     nodes w !! Path.normalizePath targetDir = None /\
     nodes w' = <[Path.normalizePath targetDir := Folder]> (nodes w)).
Proof.
  destruct (String.eqb targetDir "").
  - intros H. apply ret_inv in H as [-> ->]. eauto.
  - intros H.
    destruct (ensureDirectory_cases targetDir w) as (f & [He | [[He Hn] | [He Hn]]]);
      unfold bind in H; rewrite He in H; apply ret_inv in H as [-> ->];
      eexists; (split; [reflexivity |]); simpl; auto.
Qed.

(** The body of [moveFile], before its [catch]. *)
Lemma moveFile_body sourcePath targetPath w r w' :
  let s := Path.normalizePath sourcePath in
  let t := Path.normalizePath targetPath in
  let d := Path.normalizePath (Files.targetDirOf t) in
  (found <- exists_ s ;;
   if negb found then ret false
   else
     stop <- (if String.eqb (Files.targetDirOf t) "" then ret false
              else ok <- Files.ensureDirectory (Files.targetDirOf t) ;; ret (negb ok)) ;;
     if stop then ret false
     else
       data <- readBinary s ;;
       writeBinary t data ;;;
       remove s ;;;
       ret true) w = (r, w') ->
  r <> Hang /\
  (r = Return true ->
     exists c, nodes w !! s = Some (File c) /\ nodes w' !! s = None /\
               (t <> s -> nodes w' !! t = Some (File c))) /\
  (r <> Return true -> nodes w' !! s = nodes w !! s) /\
  (forall q, q <> s -> q <> t -> q <> d -> nodes w' !! q = nodes w !! q).
Proof.
  intros s t d H.
  apply bind_inv in H as [(found & w1 & He & H) | [[He ->] | [He ->]]];
    apply exists_inv in He as (f & -> & [[=] | [=]]); subst;
    [| repeat split; simpl; congruence].
  destruct (present w s) eqn:Hs; simpl in H;
    [| apply ret_inv in H as [-> ->]; repeat split; simpl; congruence].
  apply present_true in Hs.
  apply bind_inv in H as [(stop & w2 & Hd & H) | [[Hd ->] | [Hd ->]]];
    apply moveFile_directory_step in Hd as (stop' & [=] & Hw2); subst.
  fold d in Hw2. simpl in Hw2.
  assert (Hsame : nodes w2 !! s = nodes w !! s).
  { destruct Hw2 as [-> | (_ & Hn & ->)]; [reflexivity |].
    apply lookup_insert_ne. intros <-. rewrite Hn in Hs. now destruct Hs. }
  assert (Hframe : forall q, q <> d -> nodes w2 !! q = nodes w !! q).
  { intros q Hq. destruct Hw2 as [-> | (_ & Hn & ->)]; [reflexivity |].
    now apply lookup_insert_ne. }
  destruct stop';
    [apply ret_inv in H as [-> ->]; repeat split; try congruence; auto |].
  apply bind_inv in H as [(c & w3 & Hr & H) | [[Hr ->] | [Hr ->]]];
    apply read_inv in Hr as (g & -> & [[=] | (c' & [=] & Hc)]); subst;
    [| repeat split; simpl; try congruence; auto].
  apply bind_inv in H as [(u & w4 & Hw & H) | [[Hw ->] | [Hw ->]]];
    apply write_file_inv in Hw as (h & [[[=] ->] | ([=] & Ht & ->)]);
    [| repeat split; simpl; try congruence; auto].
  apply bind_inv in H as [(u' & w5 & Hm & H) | [[Hm ->] | [Hm ->]]];
    apply remove_file_inv in Hm as (k & [[[=] ->] | ([=] & _ & ->)]).
  - apply ret_inv in H as [-> ->]. simpl.
    split; [discriminate |]. split; [| split; [congruence |]].
    + intros _. exists c'. split; [congruence |].
      split; [apply lookup_delete_eq |].
      intros Hts. rewrite lookup_delete_ne by congruence. apply lookup_insert_eq.
    + intros q Hq1 Hq2 Hq3.
      rewrite lookup_delete_ne, lookup_insert_ne by congruence. auto.
  - simpl. split; [discriminate |]. split; [discriminate |]. split.
    + intros _. destruct (decide (t = s)) as [->|Hne].
      * rewrite lookup_insert_eq. congruence.
      * rewrite lookup_insert_ne by exact Hne. exact Hsame.
    + intros q Hq1 Hq2 Hq3. rewrite lookup_insert_ne by congruence. auto.
Qed.

End move_facts.

(** X16.  [moveFile] never throws.  When it answers [true] the source held
    a file, nothing is at the source afterwards, and a target different
    from the source holds the file's content; in particular a file moved
    onto itself is lost.  When it answers [false] the source is exactly as
    it was.  Only the source, the target and the target's directory can
    change. *)
Theorem X16_moveFile_moves_or_keeps_the_source (sourcePath targetPath : string)
    (w : World) :
  let s := Path.normalizePath sourcePath in
  let t := Path.normalizePath targetPath in
  let d := Path.normalizePath (Files.targetDirOf t) in
  let run := Files.moveFile sourcePath targetPath w in
  exists b, fst run = Return b /\
    (b = true ->
       exists c, nodes w !! s = Some (File c) /\ nodes (snd run) !! s = None /\
                 (t <> s -> nodes (snd run) !! t = Some (File c))) /\
    (b = false -> nodes (snd run) !! s = nodes w !! s) /\
    (forall q, q <> s -> q <> t -> q <> d ->
               nodes (snd run) !! q = nodes w !! q).
Proof.
  intros s t d run. subst run.
  destruct (Files.moveFile sourcePath targetPath w) as [r w'] eqn:H.
  unfold Files.moveFile in H. fold s t in H.
  apply try_catch_inv in H as [(w1 & Hc & Hh) | [Hc Hne]].
  - apply ret_inv in Hh as [-> ->].
    apply moveFile_body in Hc as (_ & _ & Hkeep & Hframe).
    exists false. simpl. split; [reflexivity |].
    split; [discriminate |]. split; [| exact Hframe].
    intros _. apply Hkeep. discriminate.
  - apply moveFile_body in Hc as (Hh & Hmoved & Hkeep & Hframe).
    destruct r as [b | |]; [| congruence | congruence].
    exists b. simpl. split; [reflexivity |]. split; [| split; [| exact Hframe]].
    + intros ->. now apply Hmoved.
    + intros ->. apply Hkeep. discriminate.
Qed.

(** A file moved onto its own path is deleted, and the call reports
    success. *)
Example moveFile_onto_itself :
  let run := Files.moveFile "notes/_assets.a/img.png" "notes/_assets.a/img.png"
               (one_image_world []) in
  nodes (one_image_world []) !! "notes/_assets.a/img.png" = Some (File (Raw "PNG")) /\
  fst run = Return true /\
  nodes (snd run) !! "notes/_assets.a/img.png" = None.
Proof. vm_compute. auto. Qed.

(** X17.  When [saveTemporaryFile] returns, it returns the normalized join
    of [temp] and the file name, the data is stored there, something is at
    [temp] in the vault, and every other path is as before. *)
Theorem X17_saveTemporaryFile_stores_the_data (filename : string) (data : content)
    (w w' : World) (path : string) :
  Files.saveTemporaryFile filename data w = (Return path, w') ->
  path = Path.normalizePath (Path.join "temp" filename) /\
  nodes w' !! path = Some (File data) /\
  present w' "temp" = true /\
  forall q, q <> path -> q <> "temp" -> nodes w' !! q = nodes w !! q.
Proof.
  unfold Files.saveTemporaryFile. intros H.
  apply try_catch_inv in H as [(w1 & _ & [=]) | [H _]].
  apply bind_inv in H as [(found & w1 & He & H) | [[_ [=]] | [_ [=]]]].
  apply exists_inv in He as (f & -> & [[=] | [= ->]]).
  apply bind_inv in H as [(u & w2 & Hm & H) | [[_ [=]] | [_ [=]]]].
  apply bind_inv in H as [(u' & w3 & Hw & H) | [[_ [=]] | [_ [=]]]].
  apply ret_inv in H as [[= Hp] ->]. subst path.
  apply write_file_inv in Hw as (h & [[[=] _] | (_ & _ & ->)]).
  split; [reflexivity |].
  split; [apply lookup_insert_eq |].
  assert (Htemp : present w2 "temp" = true /\
                  forall q, q <> "temp" -> nodes w2 !! q = nodes w !! q).
  { apply when_inv in Hm as [[Hnf Hm] | (Hnf & _ & ->)].
    - apply mkdir_folder_inv in Hm
        as (g & [[[=] _] | [(_ & Hn & ->) | (_ & Hn & ->)]]).
      + split; [apply present_true; simpl in *; rewrite Hn; eauto | reflexivity].
      + split; [apply present_true; simpl; rewrite lookup_insert_eq; eauto |].
        intros q Hq. simpl. now apply lookup_insert_ne.
    - apply negb_false_iff in Hnf. split; [exact Hnf | reflexivity]. }
  destruct Htemp as [Htemp Hframe]. split.
  - rewrite present_insert, present_set_faults, Htemp. apply orb_true_r.
  - intros q Hq1 Hq2. simpl. rewrite lookup_insert_ne by congruence. auto.
Qed.

Lemma X17_saveTemporaryFile_stores_the_data_witness :
  nodes (snd (Files.saveTemporaryFile "dropped-image-100.png" (Raw "PNG") sample_world))
    !! "temp/dropped-image-100.png" = Some (File (Raw "PNG")).
Proof.
  destruct (Files.saveTemporaryFile "dropped-image-100.png" (Raw "PNG") sample_world)
    as [r w'] eqn:H.
  assert (Hr : r = Return "temp/dropped-image-100.png").
  { apply (f_equal fst) in H. vm_compute in H. now subst r. }
  subst r.
  destruct (X17_saveTemporaryFile_stores_the_data _ _ _ _ _ H) as (Hp & Hn & _).
  vm_compute in Hp. exact Hn.
Defined.

(* ===================================================================== *)
(** * Placeholders and the asset folder                              *)
(* ===================================================================== *)

(** X18.  [process] works placeholder by placeholder: the text around a
    placeholder is processed on its own, and the placeholder gives the
    context's value when the name is an own key with a value, the literal
    placeholder when the key holds [undefined] or the name is unknown, and
    the rendering of the inherited property when the name is one of
    [Object.prototype].  The value put in is not scanned again. *)
Theorem X18_process_replaces_in_place (ctx : Magic.context) (name pre post : string) :
  Magic.is_name name = true ->
  Magic.process (pre +:+ Magic.placeholder name +:+ post) ctx =
  Magic.process pre ctx +:+
  match ctx !! name with
  | Some (Some v) => v
  | Some None => Magic.placeholder name
  | None => if Magic.inherited name then Magic.inherited_text name
            else Magic.placeholder name
  end +:+
  Magic.process post ctx.
Proof.
  intros Hname. rewrite replace_all_placeholder by exact Hname.
  unfold Magic.replacer, Magic.js_in, Magic.js_get.
  destruct (ctx !! name) as [[v|]|]; [reflexivity | reflexivity |].
  destruct (Magic.inherited name); reflexivity.
Qed.

Lemma X18_process_replaces_in_place_witness :
  Magic.process "Image{{date}}_{{time}}"
    (<["date" := Some "{{time}}"]> (<["time" := Some "120000"]> ∅))
  = "Image{{time}}_120000".
Proof.
  rewrite (X18_process_replaces_in_place _ "date" "Image" "_{{time}}") by reflexivity.
  vm_compute. reflexivity.
Defined.

Lemma getContext_inv filePath w r w' :
  getContext filePath w = (r, w') ->
  nodes w' = nodes w /\
  exists ctx, r = Return ctx /\
    ctx !! "filename" =
    match nodes w !! filePath with
    | Some (File _) => Some (Some (Path.tfile_basename filePath))
    | _ => None
    end.
Proof.
  unfold getContext, bind, Adapter.peek, ret, next_stamp.
  destruct (stamps w) as [|st rest]; intros [= <- <-]; (split; [reflexivity |]);
    eexists; (split; [reflexivity |]);
    rewrite !lookup_insert_ne by discriminate;
    destruct (nodes w !! filePath) as [[c|]|];
    try rewrite !lookup_insert_ne by discriminate;
    try rewrite lookup_insert_eq; try reflexivity.
Qed.

(** X19.  The asset folder of a document: with a folder template that
    holds [{{filename}}] once, between texts without placeholders, the
    folder is that template, joined to the document's directory and
    normalized, with the placeholder replaced by the document's name
    without extension when the document is a file of the vault, and left
    as the literal [{{filename}}] when it is not.  Resolving never fails
    and does not touch the vault. *)
Theorem X19_resolveFolder_names_the_document (cfg : ISettings) (md pre post : string)
    (w : World) :
  tempFolderPath cfg = pre +:+ "{{filename}}" +:+ post ->
  Magic.has_placeholder pre = false ->
  Magic.has_placeholder post = false ->
  let name := match nodes w !! md with
              | Some (File _) => Path.tfile_basename md
              | _ => "{{filename}}"
              end in
  fst (resolveFolder cfg md w) =
    Return (Path.normalizePath (Path.join (Path.dirname md) (pre +:+ name +:+ post))) /\
  nodes (snd (resolveFolder cfg md w)) = nodes w.
Proof.
  intros Htpl Hpre Hpost name.
  unfold resolveFolder, bind.
  destruct (getContext md w) as [r w'] eqn:Hctx.
  apply getContext_inv in Hctx as (Hnodes & ctx & -> & Hfile).
  simpl. split; [| exact Hnodes].
  rewrite Htpl.
  change "{{filename}}" with (Magic.placeholder "filename").
  rewrite replace_all_placeholder by reflexivity.
  rewrite !process_no_placeholder by assumption.
  unfold Magic.replacer, Magic.js_in, Magic.js_get. rewrite Hfile.
  subst name. destruct (nodes w !! md) as [[c|]|]; reflexivity.
Qed.

Lemma X19_resolveFolder_names_the_document_witness :
  fst (resolveFolder DEFAULT_SETTINGS "notes/a.md" sample_world)
  = Return "notes/_assets.a" /\
  fst (resolveFolder DEFAULT_SETTINGS "notes/b.md" sample_world)
  = Return "notes/_assets.{{filename}}".
Proof.
  split.
  - apply (X19_resolveFolder_names_the_document DEFAULT_SETTINGS "notes/a.md"
             "_assets." "" sample_world); reflexivity.
  - apply (X19_resolveFolder_names_the_document DEFAULT_SETTINGS "notes/b.md"
             "_assets." "" sample_world); reflexivity.
Defined.

(* ===================================================================== *)
(** * Reading a reference back                                           *)
(* ===================================================================== *)

Section reference_facts.
Import ContextMenu.

Lemma lazy_path_target target rest :
  one_line target = true -> occurs ")" target = false ->
  lazy_path (target +:+ String ")" rest) = Some target.
Proof.
  induction target as [|c t IH]; intros Hl Ho.
  - reflexivity.
  - cbn [one_line occurs] in Hl, Ho. apply andb_prop in Hl as [Hc Hl].
    apply orb_false_elim in Ho as [Hhd Ho].
    cbn [JS.startsWith] in Hhd.
    cbn [String.append lazy_path CustomUploader.strip_prefix].
    destruct (Ascii.eqb ")" c) eqn:Hp; [discriminate |].
    apply negb_true_iff in Hc. rewrite Hc, (IH Hl Ho). reflexivity.
Qed.

Lemma strip_bracket_in_label c t tail :
  JS.startsWith "](" (String c t) = false ->
  CustomUploader.strip_prefix "](" (String c t +:+ String "]" (String "(" tail)) = None.
Proof.
  cbn [String.append CustomUploader.strip_prefix JS.startsWith].
  destruct (Ascii.eqb "]" c); [| reflexivity].
  destruct t as [|d t']; [reflexivity |].
  cbn [String.append CustomUploader.strip_prefix JS.startsWith].
  destruct (Ascii.eqb "(" d); [discriminate | reflexivity].
Qed.

Lemma lazy_alt_label label target rest :
  one_line label = true -> occurs "](" label = false ->
  one_line target = true -> occurs ")" target = false ->
  lazy_alt (label +:+ String "]" (String "(" (target +:+ String ")" rest)))
  = Some target.
Proof.
  intros Hl Ho Ht Hp. induction label as [|c t IH].
  - cbn [String.append lazy_alt CustomUploader.strip_prefix Ascii.eqb Bool.eqb].
    now rewrite lazy_path_target.
  - cbn [one_line occurs] in Hl, Ho. apply andb_prop in Hl as [Hc Hl].
    apply orb_false_elim in Ho as [Hhd Ho].
    set (tail := target +:+ String ")" rest) in *.
    change (lazy_alt (String c t +:+ String "]" (String "(" tail)))
      with (match
              match CustomUploader.strip_prefix "]("
                      (String c t +:+ String "]" (String "(" tail)) with
              | Some r => lazy_path r
              | None => None
              end
            with
            | Some path => Some path
            | None =>
                if CustomUploader.is_line_terminator c then None
                else lazy_alt (t +:+ String "]" (String "(" tail))
            end).
    rewrite strip_bracket_in_label by exact Hhd.
    apply negb_true_iff in Hc. rewrite Hc. now apply IH.
Qed.

Lemma extract_embed label target :
  one_line label = true -> occurs "](" label = false ->
  one_line target = true -> occurs ")" target = false ->
  extractImagePath (embed label target) = Some target.
Proof.
  intros Hl Ho Ht Hp. unfold extractImagePath, embed.
  change ("![" +:+ label +:+ "](" +:+ target +:+ ")")
    with (String "!" (String "[" (label +:+ String "]" (String "(" (target +:+ String ")" ""))))).
  cbn [match_image match_here CustomUploader.strip_prefix Ascii.eqb Bool.eqb].
  now rewrite lazy_alt_label.
Qed.

Lemma reference_is_embed m p info :
  JsMap.get p (images m) = Some info ->
  getMarkdownReference m p = embed (reference_label p) (reference_target m p info).
Proof.
  intros Hget. unfold getMarkdownReference, JsMap.has. rewrite Hget. simpl.
  unfold reference_target, embed, reference_label.
  destruct (isUploaded info && negb (String.eqb (remotePath info) "")); reflexivity.
Qed.

End reference_facts.

(** X20.  Reading back what [getMarkdownReference] wrote: for a known
    record, [extractImagePath] finds in the reference exactly the target
    the reference was built with (the remote address of an uploaded
    record, else the path relative to the document), provided label and
    target are free of line terminators, the label holds no [](] and the
    target no [)]. *)
Theorem X20_reference_reads_back (m : DocumentImageManager) (p : string)
    (info : IImageInfo) :
  JsMap.get p (images m) = Some info ->
  one_line (reference_label p) = true ->
  occurs "](" (reference_label p) = false ->
  one_line (reference_target m p info) = true ->
  occurs ")" (reference_target m p info) = false ->
  ContextMenu.extractImagePath (getMarkdownReference m p)
  = Some (reference_target m p info).
Proof.
  intros Hget Hl Ho Ht Hp.
  rewrite (reference_is_embed _ _ _ Hget). now apply extract_embed.
Qed.

Lemma X20_reference_reads_back_witness :
  ContextMenu.extractImagePath
    (getMarkdownReference one_image "notes/_assets.a/img.png")
  = Some "_assets.a/img.png".
Proof.
  apply (X20_reference_reads_back one_image "notes/_assets.a/img.png"
           {| localPath := "notes/_assets.a/img.png"; remotePath := "";
              isUploaded := false; width := None; height := None;
              align := None; originalName := Some "img.png";
              size := Some 3; createTime := Some 100;
              modifyTime := Some 100 |}); reflexivity.
Defined.

(** A closing parenthesis in the target cuts the path that is read back,
    and a path that is no key gives no reference to read. *)
Example reference_with_parenthesis :
  let m := set_images
             [("notes/_assets.a/y.png",
               uploaded_record "notes/_assets.a/y.png" "https://x/y_(1).png")]
             one_image in
  getMarkdownReference m "notes/_assets.a/y.png" = "![y](https://x/y_(1).png)" /\
  ContextMenu.extractImagePath (getMarkdownReference m "notes/_assets.a/y.png")
  = Some "https://x/y_(1" /\
  ContextMenu.extractImagePath (getMarkdownReference m "notes/_assets.a/z.png") = None.
Proof. vm_compute. auto. Qed.

(* ===================================================================== *)
(** * renameImageFolder within one folder                            *)
(* ===================================================================== *)

(** X21.  A rename that keeps the asset folder (the folder template does
    not depend on the document's name, or the document is renamed to its
    own path) and returns true moves only the sidecar: the manager has
    the new document path and its records as before, nothing is left at
    the old sidecar path, a sidecar path that changed holds what the old
    sidecar held, and every other path of the vault is untouched.  When
    the sidecar path does not change, the sidecar is written onto itself
    and then removed: it is lost. *)
Theorem X21_rename_within_one_folder (newMdPath : string) (s s' : St) :
  images (this s) <> [] ->
  present (world s) (imageFolderPath (this s)) = true ->
  fst (resolveFolder (settings (this s)) newMdPath (world s))
  = Return (imageFolderPath (this s)) ->
  renameImageFolder newMdPath s = (Return true, s') ->
  let oldJson := sidecar (this s) in
  let newJson := jsonPathOf newMdPath (imageFolderPath (this s)) in
  mdPath (this s') = newMdPath /\
  imageFolderPath (this s') = imageFolderPath (this s) /\
  images (this s') = images (this s) /\
  nodes (world s') !! oldJson = None /\
  (forall c, nodes (world s) !! oldJson = Some (File c) -> newJson <> oldJson ->
             nodes (world s') !! newJson = Some (File c)) /\
  (forall q, q <> oldJson -> q <> newJson ->
             nodes (world s') !! q = nodes (world s) !! q).
Proof.
  intros Hne Hold Hsame H oldJson newJson.
  unfold renameImageFolder in H. unfold bind at 1 in H. unfold self at 1 in H.
  destruct (images (this s)) as [|e rest] eqn:Himgs; [contradiction |].
  cbn [JsMap.size length Nat.eqb] in H.
  apply bind_inv in H as [(oldJson' & s0 & Hc & H) | [[Hc [=]] | [Hc [=]]]].
  apply getJsonPath_inv in Hc as [[= ->] ->]. fold (sidecar (this s)) in H.
  fold oldJson in H.
  apply bind_inv in H as [(u & s0 & Hc & H) | [[Hc [=]] | [Hc [=]]]].
  apply update_this_inv in Hc as [_ ->].
  apply bind_inv in H as [(folder & s0 & Hc & H) | [[Hc [=]] | [Hc [=]]]].
  unfold getImageFolderPath in Hc. unfold bind at 1 in Hc. unfold self at 1 in Hc.
  apply host_inv in Hc as (w1 & Hres & ->).
  cbn [this world settings mdPath set_mdPath] in Hres.
  destruct (resolveFolder_inv _ _ _ _ _ Hres) as (_ & Hn1 & _).
  rewrite Hres in Hsame. cbn [fst] in Hsame. injection Hsame as ->.
  apply bind_inv in H as [(u2 & s0 & Hc & H) | [[Hc [=]] | [Hc [=]]]].
  apply update_this_inv in Hc as [_ ->].
  apply bind_inv in H as [(newJson' & s0 & Hc & H) | [[Hc [=]] | [Hc [=]]]].
  apply getJsonPath_inv in Hc as [[= ->] ->].
  cbn [this world mdPath set_mdPath set_imageFolderPath] in H.
  fold newJson in H.
  assert (Hp : present w1 (imageFolderPath (this s)) = true).
  { unfold present in *. now rewrite Hn1. }
  apply bind_inv in H as [(hasOld & s0 & Hc & H) | [[Hc [=]] | [Hc [=]]]].
  apply host_exists_inv in Hc as (f1 & -> & [[=] | [= ->]]).
  cbn [world] in H. rewrite Hp in H. cbn [negb] in H.
  apply bind_inv in H as [(hasNew & s0 & Hc & H) | [[Hc [=]] | [Hc [=]]]].
  apply host_exists_inv in Hc as (f2 & -> & [[=] | [= ->]]).
  cbn [world at_world this imageFolderPath set_imageFolderPath] in H.
  rewrite present_set_faults, Hp in H. cbn [negb when] in H.
  apply bind_inv in H as [([] & s0 & Hc & H) | [[Hc [=]] | [Hc [=]]]].
  apply ret_inv in Hc as [_ ->].
  rewrite String.eqb_refl in H.
  apply bind_inv in H as [(hasJson & s0 & Hc & H) | [[Hc [=]] | [Hc [=]]]].
  apply host_exists_inv in Hc as (f3 & -> & [[=] | [= ->]]).
  apply bind_inv in H as [([] & s0 & Hc & H) | [[Hc [=]] | [Hc [=]]]].
  apply ret_inv in H as [_ ->].
  cbn [world at_world] in Hc. rewrite !present_set_faults in Hc.
  apply when_inv in Hc as [[Hjson Hc] | (Hjson & _ & ->)].
  - apply bind_inv in Hc as [(c & s1 & Hr & Hc) | [[_ [=]] | [_ [=]]]].
    apply host_inv in Hr as (w2 & Hr & ->).
    apply read_inv in Hr as (f4 & -> & [[=] | (c' & [= <-] & Hc')]).
    apply bind_inv in Hc as [([] & s1 & Hw & Hc) | [[_ [=]] | [_ [=]]]].
    apply host_write_inv in Hw as (f5 & [[[=] _] | [_ ->]]).
    apply host_inv in Hc as (w3 & Hc & ->).
    apply remove_file_inv in Hc as (f6 & [[[=] _] | (_ & _ & ->)]).
    cbn [this world at_world mdPath imageFolderPath images set_faults with_nodes
         set_mdPath set_imageFolderPath nodes] in *.
    rewrite Himgs. repeat split.
    + apply lookup_delete_eq.
    + intros c0 Hc0 Hdiff. rewrite lookup_delete_ne by congruence.
      rewrite lookup_insert_eq. rewrite Hn1 in Hc'. congruence.
    + intros q Hq1 Hq2.
      rewrite lookup_delete_ne, lookup_insert_ne by congruence. now rewrite Hn1.
  - cbn [this world at_world mdPath imageFolderPath images set_faults
         set_mdPath set_imageFolderPath nodes] in *.
    apply present_false in Hjson. rewrite Hn1 in Hjson.
    rewrite Himgs. repeat split.
    + rewrite Hn1. exact Hjson.
    + intros c0 Hc0. congruence.
    + intros q _ _. now rewrite Hn1.
Qed.

Lemma X21_rename_within_one_folder_witness :
  let s := {| this := one_image; world := one_image_world [] |} in
  let run := renameImageFolder "notes/a.md" s in
  nodes (world s) !! "notes/_assets.a/a.json"
  = Some (File (Doc (Sidecar.data "notes/a.md" (images one_image)))) /\
  fst run = Return true /\
  images (this (snd run)) = images one_image /\
  nodes (world (snd run)) !! "notes/_assets.a/a.json" = None.
Proof.
  intros s run.
  destruct (X21_rename_within_one_folder "notes/a.md" s (snd run))
    as (_ & _ & Himgs & Hgone & _).
  - discriminate.
  - vm_compute. reflexivity.
  - vm_compute. reflexivity.
  - vm_compute. reflexivity.
  - split; [vm_compute; reflexivity |]. split; [vm_compute; reflexivity |].
    split; [exact Himgs | exact Hgone].
Defined.

(* ===================================================================== *)
(** * uploadImage on a pending record                                *)
(* ===================================================================== *)

Lemma upload_answer p w text w' :
  upload p w = (Return text, w') ->
  (exists rest, replies w = Some text :: rest) /\ nodes w' = nodes w.
Proof.
  unfold upload. destruct (replies w) as [|[answer|] rest]; intros [= <- <-];
    simpl; eauto.
Qed.

(** The end of a successful upload: with deletion switched on, nothing
    is left at the local path. *)
Lemma delete_after_upload (b : bool) p s r s' :
  (if b then
     present <- host (Adapter.exists_ p) ;;
     when present (host (Adapter.remove p))
   else ret tt) s = (Return r, s') ->
  this s' = this s /\ (b = true -> nodes (world s') !! p = None).
Proof.
  destruct b; intros H.
  - apply bind_inv in H as [(found & s1 & He & H) | [[_ [=]] | [_ [=]]]].
    apply host_exists_inv in He as (f & -> & [[=] | [= ->]]).
    apply when_inv in H as [[Hp H] | (Hp & _ & ->)].
    + apply host_inv in H as (w1 & H & ->).
      apply remove_file_inv in H as (g & [[[=] _] | (_ & _ & ->)]).
      split; [reflexivity |]. intros _. apply lookup_delete_eq.
    + split; [reflexivity |]. intros _. now apply present_false in Hp.
  - apply ret_inv in H as [_ ->]. split; [reflexivity | discriminate].
Qed.

(** X22.  An [uploadImage] that returns true for a record that was not
    uploaded got an answer from the uploader, and the record then is
    marked uploaded with the text before the answer's first comma as its
    remote path; its local path and its key are kept, every other record
    is as before, and with deletion after upload switched on nothing is
    left at the local path. *)
Theorem X22_uploadImage_marks_the_record (p : string) (info : IImageInfo) (s s' : St) :
  JsMap.get p (images (this s)) = Some info ->
  isUploaded info = false ->
  uploadImage p s = (Return true, s') ->
  exists answer rest info',
    replies (world s) = Some answer :: rest /\
    JsMap.get p (images (this s')) = Some info' /\
    isUploaded info' = true /\
    remotePath info' = default "" (JS.first (JS.split "," answer)) /\
    localPath info' = localPath info /\
    (forall k, k <> p -> JsMap.get k (images (this s')) = JsMap.get k (images (this s))) /\
    (isDeleteTemp (settings (this s)) = true -> nodes (world s') !! p = None).
Proof.
  intros Hget Hpending H.
  unfold uploadImage in H. unfold bind at 1 in H. unfold self at 1 in H.
  unfold JsMap.has in H. rewrite Hget, Hpending in H. cbn [negb] in H.
  apply try_catch_inv in H as [(s1 & _ & [=]) | [H _]].
  apply bind_inv in H as [(answer & s1 & Hu & H) | [[_ [=]] | [_ [=]]]].
  apply host_inv in Hu as (w1 & Hu & ->).
  apply upload_answer in Hu as [[rest Hreplies] _].
  destruct (0 <? length (JS.split "," answer))%nat;
    [| apply ret_inv in H as [[=] _]].
  apply bind_inv in H as [([] & s1 & Hc & H) | [[_ [=]] | [_ [=]]]].
  apply update_this_inv in Hc as [_ ->].
  apply bind_inv in H as [(now & s1 & Hc & H) | [[_ [=]] | [_ [=]]]].
  apply host_inv in Hc as (w2 & _ & ->).
  apply bind_inv in H as [([] & s1 & Hc & H) | [[_ [=]] | [_ [=]]]].
  apply update_this_inv in Hc as [_ ->].
  apply bind_inv in H as [(saved & s1 & Hc & H) | [[_ [=]] | [_ [=]]]].
  apply keeps_saveToJson in Hc.
  apply bind_inv in H as [(cfg & s2 & Hs & H) | [[_ [=]] | [_ [=]]]].
  apply self_inv in Hs as [[= ->] ->].
  apply bind_inv in H as [([] & s2 & Hd & H) | [[_ [=]] | [_ [=]]]].
  apply ret_inv in H as [_ ->].
  apply delete_after_upload in Hd as [Hthis Hgone].
  rewrite Hc in Hthis, Hgone. cbn [this settings set_images] in Hthis, Hgone.
  exists answer, rest.
  exists (set_modifyTime now (set_uploaded (default "" (JS.first (JS.split "," answer))) info)).
  split; [exact Hreplies |]. rewrite Hthis. cbn [images set_images].
  split; [| split; [reflexivity | split; [reflexivity | split; [reflexivity | split]]]].
  - rewrite !get_alter, String.eqb_refl, Hget. reflexivity.
  - intros k Hk. rewrite !get_alter.
    destruct (String.eqb_spec p k); [congruence | reflexivity].
  - exact Hgone.
Qed.

Lemma X22_uploadImage_marks_the_record_witness :
  let m := {| settings := upload_and_delete_settings; mdPath := mdPath one_image;
              images := images one_image;
              imageFolderPath := imageFolderPath one_image |} in
  let s := {| this := m;
              world := with_replies [Some "https://x/1.png,https://x/2.png"]
                         (one_image_world []) |} in
  let run := uploadImage "notes/_assets.a/img.png" s in
  fst run = Return true /\
  nodes (world s) !! "notes/_assets.a/img.png" = Some (File (Raw "PNG")) /\
  nodes (world (snd run)) !! "notes/_assets.a/img.png" = None /\
  exists info',
    JsMap.get "notes/_assets.a/img.png" (images (this (snd run))) = Some info' /\
    remotePath info' = "https://x/1.png".
Proof.
  intros m s run.
  destruct (X22_uploadImage_marks_the_record "notes/_assets.a/img.png"
              {| localPath := "notes/_assets.a/img.png"; remotePath := "";
                 isUploaded := false; width := None; height := None;
                 align := None; originalName := Some "img.png";
                 size := Some 3; createTime := Some 100;
                 modifyTime := Some 100 |} s (snd run))
    as (answer & rest & info' & Hreplies & Hget & _ & Hremote & _ & _ & Hgone).
  - reflexivity.
  - reflexivity.
  - vm_compute. reflexivity.
  - injection Hreplies as <- _.
    split; [vm_compute; reflexivity |]. split; [vm_compute; reflexivity |].
    split; [apply Hgone; reflexivity |].
    exists info'. split; [exact Hget | exact Hremote].
Defined.

(** A deletion that fails after the upload makes [uploadImage] answer
    false although the record is marked uploaded and saved. *)
Example upload_done_but_reported_failed :
  let m := {| settings := upload_and_delete_settings; mdPath := mdPath one_image;
              images := images one_image;
              imageFolderPath := imageFolderPath one_image |} in
  let s := {| this := m;
              world := with_replies [Some "https://x/1.png"]
                         (one_image_world [false; false; false; true]) |} in
  let run := uploadImage "notes/_assets.a/img.png" s in
  fst run = Return false /\
  map (fun e => (isUploaded (snd e), remotePath (snd e))) (images (this (snd run)))
  = [(true, "https://x/1.png")].
Proof. vm_compute. auto. Qed.

(* ===================================================================== *)
(** * renameImageFolder into another folder                          *)
(* ===================================================================== *)

(** The paths and the settings of the manager are not touched by the
    loop that moves the files: it only re-keys records. *)
Lemma moveFiles_keeps_paths (P : DocumentImageManager -> Prop) files oldImageFolder :
  (forall m imgs, P m -> P (set_images imgs m)) ->
  preserves (fun s => P (this s)) (moveFiles files oldImageFolder).
Proof.
  intros Hset. induction files as [|file rest IH]; simpl; [apply preserves_ret |].
  apply preserves_bind; [apply preserves_keeps, keeps_host | intros content].
  apply preserves_bind; [apply preserves_keeps, keeps_self | intros m].
  apply preserves_bind; [apply preserves_keeps, keeps_host | intros _].
  apply preserves_bind; [apply preserves_keeps, keeps_host | intros _].
  apply preserves_bind; [| intros _; exact IH].
  unfold rekey_images.
  apply preserves_bind; [apply preserves_keeps, keeps_self | intros m0].
  destruct (rekey _ 0 file _ (images m0)); [| apply preserves_hang].
  apply preserves_update_images. intros m1 Hm1. now apply Hset.
Qed.

(** X23.  A rename that returns true and changed the asset folder leaves
    nothing at the old folder's path nor anywhere below it: the folder
    goes with all it holds, whatever was moved out of it before.  The
    manager then has the new document path, the folder that path
    resolves to, and its settings as before. *)
Theorem X23_rename_empties_the_old_folder (newMdPath : string) (s s' : St) :
  images (this s) <> [] ->
  present (world s) (imageFolderPath (this s)) = true ->
  renameImageFolder newMdPath s = (Return true, s') ->
  imageFolderPath (this s') <> imageFolderPath (this s) ->
  mdPath (this s') = newMdPath /\
  fst (resolveFolder (settings (this s)) newMdPath (world s))
  = Return (imageFolderPath (this s')) /\
  settings (this s') = settings (this s) /\
  forall q, q = imageFolderPath (this s) \/
            Adapter.is_under (imageFolderPath (this s)) q = true ->
            nodes (world s') !! q = None.
Proof.
  intros Hne Hold H Hchanged.
  unfold renameImageFolder in H. unfold bind at 1 in H. unfold self at 1 in H.
  destruct (images (this s)) as [|e rest] eqn:Himgs; [contradiction |].
  cbn [JsMap.size length Nat.eqb] in H.
  apply bind_inv in H as [(oldJson & s0 & Hc & H) | [[Hc [=]] | [Hc [=]]]].
  apply getJsonPath_inv in Hc as [_ ->].
  apply bind_inv in H as [(u & s0 & Hc & H) | [[Hc [=]] | [Hc [=]]]].
  apply update_this_inv in Hc as [_ ->].
  apply bind_inv in H as [(folder & s0 & Hc & H) | [[Hc [=]] | [Hc [=]]]].
  unfold getImageFolderPath in Hc. unfold bind at 1 in Hc. unfold self at 1 in Hc.
  apply host_inv in Hc as (w1 & Hres & ->).
  cbn [this world settings mdPath set_mdPath] in Hres.
  destruct (resolveFolder_inv _ _ _ _ _ Hres) as (_ & Hn1 & _).
  assert (Hfolder : fst (resolveFolder (settings (this s)) newMdPath (world s))
                    = Return folder) by now rewrite Hres.
  apply bind_inv in H as [(u2 & s0 & Hc & H) | [[Hc [=]] | [Hc [=]]]].
  apply update_this_inv in Hc as [_ ->].
  apply bind_inv in H as [(newJson & s0 & Hc & H) | [[Hc [=]] | [Hc [=]]]].
  apply getJsonPath_inv in Hc as [_ ->].
  cbn [this world mdPath set_mdPath set_imageFolderPath] in H.
  assert (Hp : present w1 (imageFolderPath (this s)) = true).
  { unfold present in *. now rewrite Hn1. }
  apply bind_inv in H as [(hasOld & s0 & Hc & H) | [[Hc [=]] | [Hc [=]]]].
  apply host_exists_inv in Hc as (f1 & -> & [[=] | [= ->]]).
  cbn [world] in H. rewrite Hp in H. cbn [negb] in H.
  apply bind_inv in H as [(hasNew & s0 & Hc & H) | [[Hc [=]] | [Hc [=]]]].
  apply host_exists_inv in Hc as (f2 & -> & _).
  apply bind_inv in H as [([] & s1 & Hmk & H) | [[Hc [=]] | [Hc [=]]]].
  assert (Hthis1 : this s1 =
                   set_imageFolderPath folder (set_mdPath newMdPath (this s))).
  { apply when_inv in Hmk as [[_ Hmk] | (_ & _ & ->)]; [| reflexivity].
    now apply host_mkdir_inv in Hmk as [-> _]. }
  cbn [this at_world imageFolderPath set_imageFolderPath] in H.
  destruct (String.eqb_spec (imageFolderPath (this s)) folder) as [Heq | Hdiff].
  { exfalso. apply Hchanged.
    assert (Hkeep : keeps_this
              (hasJson <- host (Adapter.exists_ oldJson) ;;
               when hasJson
                 (content <- host (Adapter.read oldJson) ;;
                  host (Adapter.write newJson content) ;;;
                  host (Adapter.remove oldJson)) ;;;
               ret true)).
    { apply keeps_bind; [apply keeps_host | intros hasJson].
      apply keeps_bind; [| intros _; apply keeps_ret].
      apply keeps_when.
      apply keeps_bind; [apply keeps_host | intros c].
      apply keeps_bind; [apply keeps_host | intros _; apply keeps_host]. }
    rewrite (Hkeep _ _ _ H), Hthis1.
    cbn [imageFolderPath set_imageFolderPath]. congruence. }
  apply try_catch_inv in H as [(s2 & _ & Hh) | [H _]].
  { unfold bind, update_this, ret in Hh. discriminate. }
  apply bind_inv in H as [(files & s2 & Hl & H) | [[Hc [=]] | [Hc [=]]]].
  apply bind_inv in H as [([] & s3 & Hmv & H) | [[Hc [=]] | [Hc [=]]]].
  apply bind_inv in H as [(saved & s4 & Hsv & H) | [[Hc [=]] | [Hc [=]]]].
  apply bind_inv in H as [([] & s5 & Hrm & H) | [[Hc [=]] | [Hc [=]]]].
  apply ret_inv in H as [_ ->].
  set (P := fun m => mdPath m = newMdPath /\ imageFolderPath m = folder /\
                     settings m = settings (this s)).
  assert (H1 : P (this s1)) by (rewrite Hthis1; repeat split).
  assert (H2 : P (this s2)).
  { apply host_inv in Hl as (w2 & _ & ->). exact H1. }
  assert (H3 : P (this s3)).
  { eapply (moveFiles_keeps_paths P); [| exact Hmv | exact H2].
    intros m imgs Hpm. exact Hpm. }
  assert (H4 : P (this s4)) by now rewrite (keeps_saveToJson _ _ _ Hsv).
  apply host_rmdir_inv in Hrm as (f4 & [[[=] _] | [_ ->]]).
  cbn [this world at_world nodes with_nodes].
  destruct H4 as (Hmd & Hfd & Hst).
  split; [exact Hmd |]. split; [now rewrite Hfd |]. split; [exact Hst |].
  intros q Hq. apply map_lookup_filter_None. right. intros x _.
  unfold Adapter.outside. cbn [fst]. intros Hout.
  apply orb_false_elim in Hout as [Hq1 Hq2].
  destruct Hq as [-> | Hq]; [rewrite String.eqb_refl in Hq1 |]; congruence.
Qed.

Lemma X23_rename_empties_the_old_folder_witness :
  let w := with_nodes (insert "notes/b.md" (File (Raw "# b"))) (one_image_world []) in
  let s := {| this := one_image; world := w |} in
  let run := renameImageFolder "notes/b.md" s in
  fst run = Return true /\
  imageFolderPath (this (snd run)) = "notes/_assets.b" /\
  nodes (world (snd run)) !! "notes/_assets.a" = None /\
  nodes (world (snd run)) !! "notes/_assets.a/img.png" = None /\
  nodes (world (snd run)) !! "notes/_assets.a/a.json" = None.
Proof.
  intros w s run.
  destruct (X23_rename_empties_the_old_folder "notes/b.md" s (snd run))
    as (_ & _ & _ & Hgone).
  - discriminate.
  - vm_compute. reflexivity.
  - vm_compute. reflexivity.
  - vm_compute. discriminate.
  - split; [vm_compute; reflexivity |]. split; [vm_compute; reflexivity |].
    split; [apply Hgone; left; reflexivity |].
    split; apply Hgone; right; reflexivity.
Defined.

(** What such a rename leaves in the new folder: the image under its new
    key, the sidecar under the new document's name, and also the old
    sidecar, which was a file of the old folder and moved with the rest. *)
Example rename_takes_the_old_sidecar_along :
  let w := with_nodes (insert "notes/b.md" (File (Raw "# b"))) (one_image_world []) in
  let s := {| this := one_image; world := w |} in
  let run := renameImageFolder "notes/b.md" s in
  JsMap.keys (images (this (snd run))) = ["notes/_assets.b/img.png"] /\
  nodes (world (snd run)) !! "notes/_assets.b/img.png" = Some (File (Raw "PNG")) /\
  present (world (snd run)) "notes/_assets.b/b.json" = true /\
  nodes (world (snd run)) !! "notes/_assets.b/a.json"
  = nodes w !! "notes/_assets.a/a.json" /\
  present w "notes/_assets.a/a.json" = true.
Proof. vm_compute. auto 6. Qed.

(* ===================================================================== *)
(** * downloadAllImages with nothing missing                         *)
(* ===================================================================== *)

(** ** What the vault adapter cannot touch *)

Section adapter_only.
Import Adapter.
Variable Q : World -> Prop.
Hypothesis Q_faults : forall f w, Q w -> Q (set_faults f w).
Hypothesis Q_nodes : forall g w, Q w -> Q (with_nodes g w).

Lemma only_io : preserves Q io.
Proof. intros w r w' H Hq. apply io_inv in H as (f & -> & _). now apply Q_faults. Qed.

Lemma only_call {A} (k : gmap string node -> M World A) :
  (forall ns, preserves Q (k ns)) -> preserves Q (io ;;; ns <- peek ;; k ns).
Proof.
  intros Hk. apply preserves_bind; [apply only_io | intros _].
  apply preserves_bind; [| exact Hk].
  intros w r w' [= _ <-]. auto.
Qed.

Lemma only_modify_nodes g : preserves Q (modify (with_nodes g)).
Proof. intros w r w' [= _ <-] Hq. now apply Q_nodes. Qed.

Lemma only_exists p : preserves Q (exists_ p).
Proof. apply only_call. intros ns. apply preserves_ret. Qed.

Lemma only_write p c : preserves Q (write p c).
Proof.
  apply only_call. intros ns.
  destruct (ns !! p) as [[c'|]|]; auto using only_modify_nodes, preserves_throw.
Qed.

Lemma only_mkdir p : preserves Q (mkdir p).
Proof.
  apply only_call. intros ns.
  destruct (ns !! p) as [[c'|]|];
    auto using only_modify_nodes, preserves_throw, preserves_ret.
Qed.

Lemma only_remove p : preserves Q (remove p).
Proof.
  apply only_call. intros ns.
  destruct (ns !! p) as [[c'|]|]; auto using only_modify_nodes, preserves_throw.
Qed.

Lemma only_rmdir p : preserves Q (rmdir p).
Proof.
  apply only_call. intros ns.
  destruct (ns !! p) as [[c'|]|]; auto using only_modify_nodes, preserves_throw.
Qed.

Lemma only_saveToJson : preserves (fun s => Q (world s)) saveToJson.
Proof.
  unfold saveToJson.
  repeat first
    [ apply preserves_ret
    | apply preserves_world_self
    | apply preserves_world_getJsonPath
    | apply preserves_when
    | apply preserves_world_host;
      first [apply only_exists | apply only_remove | apply only_rmdir
            | apply only_mkdir | apply only_write]
    | apply preserves_try
    | apply preserves_bind; [| intros ?]
    | match goal with |- preserves _ (if ?b then _ else _) => destruct b end ].
Qed.

End adapter_only.

(** The loop of [downloadAllImages] when every uploaded record has its
    local file: no record is touched, nothing is fetched, no file is
    written. *)
Lemma downloadLoop_idle (m : DocumentImageManager) (ns : gmap string node)
    (R : list (option string)) n :
  (forall k info, (k, info) ∈ images m -> isUploaded info = true ->
                  localPath info <> "" /\ is_Some (ns !! localPath info)) ->
  forall i acc,
    preserves (fun s => this s = m /\ nodes (world s) = ns /\ responses (world s) = R)
      (downloadLoop n i acc).
Proof.
  intros Hall. induction n as [|n IH]; intros i acc; [apply preserves_ret |].
  intros s r s' H (Hm & Hns & HR). cbn [downloadLoop] in H.
  unfold bind at 1 in H. unfold self at 1 in H.
  destruct (nth_error (images (this s)) i) as [[path info]|] eqn:Hi.
  2: { apply ret_inv in H as [_ ->]. auto. }
  assert (Hin : (path, info) ∈ images m).
  { rewrite <- Hm. apply list_elem_of_In. eapply nth_error_In, Hi. }
  destruct (isUploaded info) eqn:Hup.
  - destruct (Hall _ _ Hin Hup) as [Hlp Hthere].
    apply String.eqb_neq in Hlp. rewrite Hlp in H.
    apply bind_inv in H as [(missing & s1 & Hc & H) | [[Hc _] | [Hc _]]].
    + apply bind_inv in Hc as [(found & s2 & He & Hc) | [[_ [=]] | [_ [=]]]].
      apply ret_inv in Hc as [[= ->] ->].
      apply host_exists_inv in He as (f & -> & [[=] | [= ->]]).
      assert (Hp : present (world s) (localPath info) = true).
      { apply present_true. now rewrite Hns. }
      rewrite Hp in H. cbn [negb] in H.
      eapply IH; [exact H |]. auto.
    + apply bind_inv in Hc as [(found & s2 & He & Hc) | [[He _] | [_ [=]]]].
      * apply ret_inv in Hc as [[=] _].
      * apply host_exists_inv in He as (f & -> & _). auto.
    + apply bind_inv in Hc as [(found & s2 & He & Hc) | [[_ [=]] | [He _]]].
      * apply ret_inv in Hc as [[=] _].
      * apply host_exists_inv in He as (f & -> & _). auto.
  - unfold bind at 1 in H. unfold ret at 1 in H.
    eapply IH; [exact H |]. auto.
Qed.

(** X24.  [downloadAllImages] downloads only what is missing: when every
    uploaded record names a local file that is in the vault, then however
    the call ends the manager is exactly as it was and no response was
    fetched. *)
Theorem X24_downloadAllImages_fetches_only_the_missing (s : St) :
  (forall k info, (k, info) ∈ images (this s) -> isUploaded info = true ->
                  localPath info <> "" /\
                  present (world s) (localPath info) = true) ->
  this (snd (downloadAllImages s)) = this s /\
  responses (world (snd (downloadAllImages s))) = responses (world s).
Proof.
  intros Hall.
  destruct (downloadAllImages s) as [r s'] eqn:H. cbn [snd].
  unfold downloadAllImages in H. unfold bind at 1 in H. unfold self at 1 in H.
  assert (Hloop : forall r1 s1,
             downloadLoop (JsMap.size (images (this s))) 0 true s = (r1, s1) ->
             this s1 = this s /\ responses (world s1) = responses (world s)).
  { intros r1 s1 Hl.
    destruct (downloadLoop_idle (this s) (nodes (world s)) (responses (world s))
                (JsMap.size (images (this s)))
                (fun k info Hin Hup =>
                   let '(conj Hlp Hp) := Hall k info Hin Hup in
                   conj Hlp (proj1 (present_true _ _) Hp))
                0%nat true s r1 s1 Hl) as (Hm & _ & HR); auto. }
  apply bind_inv in H as [(ok & s1 & Hl & H) | [[Hl _] | [Hl _]]];
    try (now apply Hloop in Hl).
  destruct (Hloop _ _ Hl) as [Hm HR].
  assert (Hsave : forall r2 s2, saveToJson s1 = (r2, s2) ->
             this s2 = this s /\ responses (world s2) = responses (world s)).
  { intros r2 s2 Hs. split.
    - now rewrite (keeps_saveToJson _ _ _ Hs).
    - apply (only_saveToJson (fun w => responses w = responses (world s))
               (fun _ _ Hq => Hq) (fun _ _ Hq => Hq) _ _ _ Hs HR). }
  apply bind_inv in H as [(saved & s2 & Hs & H) | [[Hs _] | [Hs _]]];
    try (now apply Hsave in Hs).
  apply ret_inv in H as [_ ->]. now apply Hsave in Hs.
Qed.

Lemma X24_downloadAllImages_fetches_only_the_missing_witness :
  let m := set_images
             [("notes/_assets.a/img.png",
               uploaded_record "notes/_assets.a/img.png" "https://x/1.png")]
             one_image in
  let w := {| nodes := nodes (one_image_world []); vaultName := "vault";
              faults := []; clock := []; stamps := []; replies := [];
              handed := []; responses := [Some "BODY"] |} in
  let s := {| this := m; world := w |} in
  fst (downloadAllImages s) = Return true /\
  this (snd (downloadAllImages s)) = m /\
  responses (world (snd (downloadAllImages s))) = [Some "BODY"].
Proof.
  intros m w s. split; [vm_compute; reflexivity |].
  apply (X24_downloadAllImages_fetches_only_the_missing s).
  intros k info Hin Hup.
  apply list_elem_of_In in Hin. destruct Hin as [[= <- <-] | []].
  split; [discriminate | vm_compute; reflexivity].
Defined.
